(** * neon_match: the match-three engine of [src/utils/gameLogic.ts] and the
    resolution pass of [src/App.tsx], embedded in Rocq.

    The TypeScript functions are translated one by one, loops as loop
    combinators over an explicit state, reads of a slot that does not exist as
    a thrown [TypeError], unbounded loops with fuel, [Math.random] as an
    explicit stream of draws.  Part I holds the embedding, Part II the
    vocabulary of the properties, Part III the proofs of the claims C1 to
    C10, Part IV further properties of the engine, X1 and the following. *)

From stdpp Require Import base decidable option list strings pretty.
From Stdlib Require Import ZArith QArith Qround Qabs Lia.

Open Scope nat_scope.

(* ===================================================================== *)
(** * Part I.  The embedding                                              *)
(* ===================================================================== *)

(** ** Outcomes of running a piece of JavaScript *)

(** The engine contains no [throw] statement: the only exception it can raise
    is the [TypeError] of reading a property of [undefined].  [ThrownError]
    stands for an explicit [throw new Error(msg)]. *)
Inductive JsError : Type :=
| TypeError
| ThrownError (msg : string).

Inductive outcome (A : Type) : Type :=
| Ok (a : A)
| Throw (e : JsError)
| OutOfFuel.
Arguments Ok {A} a.
Arguments Throw {A} e.
Arguments OutOfFuel {A}.

Definition obind {A B} (m : outcome A) (k : A -> outcome B) : outcome B :=
  match m with
  | Ok a => k a
  | Throw e => Throw e
  | OutOfFuel => OutOfFuel
  end.

Notation "'let*' x := m 'in' k" := (obind m (fun x => k))
  (at level 10, x pattern, m at level 100, k at level 200).

(** Reading a property of a value that may be [undefined]. *)
Definition defined {A} (o : option A) : outcome A :=
  match o with
  | Some a => Ok a
  | None => Throw TypeError
  end.

(** ** Loops *)

(** [for (let i = lo; i < lo + n; i++) body] *)
Fixpoint for_up {St} (n i : nat) (body : nat -> St -> outcome St) (s : St) : outcome St :=
  match n with
  | O => Ok s
  | S n' => let* s' := body i s in for_up n' (S i) body s'
  end.

(** [for (let i = n - 1; i >= 0; i--) body] *)
Fixpoint for_down {St} (n : nat) (body : nat -> St -> outcome St) (s : St) : outcome St :=
  match n with
  | O => Ok s
  | S n' => let* s' := body n' s in for_down n' body s'
  end.

(** [for (const x of xs) body], also [xs.forEach(body)] *)
Fixpoint for_each {A St} (xs : list A) (body : A -> St -> outcome St) (s : St) : outcome St :=
  match xs with
  | [] => Ok s
  | x :: xs' => let* s' := body x s in for_each xs' body s'
  end.

(** [while (cond) body] *)
Fixpoint while_loop {St} (fuel : nat) (cond : St -> outcome bool)
    (body : St -> outcome St) (s : St) : outcome St :=
  match fuel with
  | O => OutOfFuel
  | S fuel' =>
      let* b := cond s in
      if b then let* s' := body s in while_loop fuel' cond body s' else Ok s
  end.

(** [do body while (cond)] *)
Fixpoint do_while {St} (fuel : nat) (body : St -> outcome St)
    (cond : St -> outcome bool) (s : St) : outcome St :=
  match fuel with
  | O => OutOfFuel
  | S fuel' =>
      let* s' := body s in
      let* b := cond s' in
      if b then do_while fuel' body cond s' else Ok s'
  end.

(** ** [Math.random] *)

(** The generator is a stream of draws.  A draw [d] stands for the float that
    one call returned: [Math.floor(Math.random() * n)] is [rand_index d n]
    (every index below [n] is the image of some draw; [0] when [n = 0], as in
    JavaScript), and its rendering inside a template string is [pretty d]. *)
Definition Rng : Type := nat -> nat.

Definition random (g : Rng) : nat * Rng := (g 0, fun n => g (S n)).

Definition rand_index (d n : nat) : nat :=
  if n =? 0 then 0 else d mod n.

(** Visual effects only consume draws. *)
Definition skip_draws (k : nat) (g : Rng) : Rng := fun n => g (k + n).

(** ** [Set]: insertion-ordered, without duplicates *)

Section JsSet.
Context {A : Type} `{EqDecision A}.

Definition set_has (s : list A) (x : A) : bool := bool_decide (x ∈ s).

Definition set_add (x : A) (s : list A) : list A :=
  if set_has s x then s else s ++ [x].

(** [new Set(xs)] *)
Definition set_of (xs : list A) : list A := foldl (fun s x => set_add x s) [] xs.

Definition set_size (s : list A) : nat := length s.
End JsSet.

(** ** [types.ts] *)

Module GemType.
Inductive t : Type :=
| RED | BLUE | GREEN | YELLOW | PURPLE | ORANGE | DIAMOND | STAR | RAINBOW.
End GemType.

Inductive SpecialType : Type :=
| NONE | ROW_BLAST | COL_BLAST | AREA_BLAST | RAINBOW.

Inductive CellStatus : Type :=
| IDLE | SWAPPING | MATCHED | DROPPING | EMPTY | CREATED.

#[global] Instance GemType_eq_dec : EqDecision GemType.t.
Proof. solve_decision. Defined.
#[global] Instance SpecialType_eq_dec : EqDecision SpecialType.
Proof. solve_decision. Defined.
#[global] Instance CellStatus_eq_dec : EqDecision CellStatus.
Proof. solve_decision. Defined.

Record Position : Type := mkPosition { prow : Z; pcol : Z }.

(** [type] is [None] where JavaScript holds [undefined]: what
    [allowedTypes[i]] yields out of range, and what [findMatches] tests for. *)
Record Cell : Type := mkCell {
  id : string;
  type : option GemType.t;
  special : SpecialType;
  status : CellStatus;
  row : Z;
  col : Z;
  visualRow : Z;
  visualCol : Z;
  isBonus : option bool
}.

Abbreviation Board := (list (list Cell)).

Definition GRID_ROWS : nat := 8.
Definition GRID_COLS : nat := 8.

Definition GEM_TYPES_ARRAY : list GemType.t :=
  [GemType.RED; GemType.BLUE; GemType.GREEN; GemType.YELLOW; GemType.PURPLE;
   GemType.ORANGE; GemType.DIAMOND; GemType.STAR; GemType.RAINBOW].

(** [{ ...cell, status: s }] and the like *)
Definition with_status (s : CellStatus) (c : Cell) : Cell :=
  mkCell (id c) (type c) (special c) s (row c) (col c) (visualRow c) (visualCol c) (isBonus c).

(** [board[r][c]]: [None] when the row or the slot does not exist. *)
Definition cellAt (b : Board) (r c : nat) : option Cell :=
  row_ ← b !! r; row_ !! c.

(** The same with JavaScript numbers for indices. *)
Definition cellAtZ (b : Board) (r c : Z) : option Cell :=
  if bool_decide (0 <= r)%Z && bool_decide (0 <= c)%Z
  then cellAt b (Z.to_nat r) (Z.to_nat c) else None.

(** [board[r][c] = v].  Every use below writes a slot that the code has read
    before, so the indices are in range and the extension of a short array by
    an assignment does not arise. *)
Definition setCell (b : Board) (r c : nat) (v : Cell) : outcome Board :=
  let* row_ := defined (b !! r) in
  Ok (<[r := <[c := v]> row_]> b).

(** ** [findMatches] *)

(** The inner [while] tests [k < GRID_COLS] first, so it makes at most
    [GRID_COLS + 1] tests: that is its fuel. *)
Definition findMatches (board : Board) : outcome (list string) :=
  let matchedIds : list string := [] in
  (* Horizontal *)
  let* matchedIds :=
    for_up GRID_ROWS 0 (fun r matchedIds =>
      for_up (GRID_COLS - 2) 0 (fun c matchedIds =>
        let* c0 := defined (cellAt board r c) in
        let type_ := type c0 in
        if bool_decide (type_ ≠ None) then
          let* c1 := defined (cellAt board r (c + 1)) in
          if bool_decide (type c1 = type_) then
            let* c2 := defined (cellAt board r (c + 2)) in
            if bool_decide (type c2 = type_) then
              let matchedIds := set_add (id c0) matchedIds in
              let matchedIds := set_add (id c1) matchedIds in
              let matchedIds := set_add (id c2) matchedIds in
              (* continue checking for >3 matches *)
              let k := c + 3 in
              let* (_, matchedIds) :=
                while_loop (S GRID_COLS)
                  (fun '(k, _) =>
                     if k <? GRID_COLS
                     then let* cell := defined (cellAt board r k) in
                          Ok (bool_decide (type cell = type_))
                     else Ok false)
                  (fun '(k, matchedIds) =>
                     let* cell := defined (cellAt board r k) in
                     Ok (S k, set_add (id cell) matchedIds))
                  (k, matchedIds) in
              Ok matchedIds
            else Ok matchedIds
          else Ok matchedIds
        else Ok matchedIds) matchedIds) matchedIds in
  (* Vertical *)
  for_up GRID_COLS 0 (fun c matchedIds =>
    for_up (GRID_ROWS - 2) 0 (fun r matchedIds =>
      let* c0 := defined (cellAt board r c) in
      let type_ := type c0 in
      if bool_decide (type_ ≠ None) then
        let* c1 := defined (cellAt board (r + 1) c) in
        if bool_decide (type c1 = type_) then
          let* c2 := defined (cellAt board (r + 2) c) in
          if bool_decide (type c2 = type_) then
            let matchedIds := set_add (id c0) matchedIds in
            let matchedIds := set_add (id c1) matchedIds in
            let matchedIds := set_add (id c2) matchedIds in
            let k := r + 3 in
            let* (_, matchedIds) :=
              while_loop (S GRID_ROWS)
                (fun '(k, _) =>
                   if k <? GRID_ROWS
                   then let* cell := defined (cellAt board k c) in
                        Ok (bool_decide (type cell = type_))
                   else Ok false)
                (fun '(k, matchedIds) =>
                   let* cell := defined (cellAt board k c) in
                   Ok (S k, set_add (id cell) matchedIds))
                (k, matchedIds) in
            Ok matchedIds
          else Ok matchedIds
        else Ok matchedIds
      else Ok matchedIds) matchedIds) matchedIds.

(** ** [getConnectedGroups] *)

(** [r >= 0 && r < GRID_ROWS && c >= 0 && c < GRID_COLS] *)
Definition in_grid (r c : Z) : bool :=
  bool_decide (0 <= r)%Z && bool_decide (r < Z.of_nat GRID_ROWS)%Z &&
  bool_decide (0 <= c)%Z && bool_decide (c < Z.of_nat GRID_COLS)%Z.

Definition neighbors (current : Cell) : list Position :=
  [ mkPosition (row current - 1) (col current);
    mkPosition (row current + 1) (col current);
    mkPosition (row current) (col current - 1);
    mkPosition (row current) (col current + 1) ].

(** The state of one flood fill: the queue, the visited set and the group. *)
Abbreviation BfsState := (list Cell * list string * list Cell)%type.

(** One turn of [while (queue.length > 0)]. *)
Definition bfs_step (board : Board) (matchedIds : list string)
    (st : BfsState) : outcome BfsState :=
  let '(queue, visited, group) := st in
  (* queue.shift()! *)
  let* current := defined (head queue) in
  let queue := tail queue in
  let group := group ++ [current] in
  let* (queue, visited) :=
    for_each (neighbors current) (fun n '(queue, visited) =>
      if in_grid (prow n) (pcol n) then
        let* neighbor := defined (cellAtZ board (prow n) (pcol n)) in
        if set_has matchedIds (id neighbor)
           && negb (set_has visited (id neighbor))
           && bool_decide (type neighbor = type current)
        then Ok (queue ++ [neighbor], set_add (id neighbor) visited)
        else Ok (queue, visited)
      else Ok (queue, visited)) (queue, visited) in
  Ok (queue, visited, group).

Definition bfs (fuel : nat) (board : Board) (matchedIds : list string)
    (st : BfsState) : outcome BfsState :=
  while_loop fuel (fun '(queue, _, _) => Ok (0 <? length queue))
    (bfs_step board matchedIds) st.

(** [fuel] bounds the turns of each flood fill. *)
Definition getConnectedGroups (fuel : nat) (board : Board)
    (matchedIds : list string) : outcome (list (list Cell)) :=
  let visited : list string := [] in
  let groups : list (list Cell) := [] in
  let* (_, groups) :=
    for_up GRID_ROWS 0 (fun r st =>
      for_up GRID_COLS 0 (fun c '(visited, groups) =>
        let* cell := defined (cellAt board r c) in
        if set_has matchedIds (id cell) && negb (set_has visited (id cell)) then
          let group : list Cell := [] in
          let queue := [cell] in
          let visited := set_add (id cell) visited in
          let* (_, visited, group) := bfs fuel board matchedIds (queue, visited, group) in
          Ok (visited, groups ++ [group])
        else Ok (visited, groups)) st) (visited, groups) in
  Ok groups.

(** ** [classifyMatchGroup] *)

Definition classifyMatchGroup (group : list Cell) : SpecialType :=
  if length group <? 4 then NONE
  else if 5 <=? length group then
    let rows := set_of (map row group) in
    let cols := set_of (map col group) in
    if (set_size rows =? 1) || (set_size cols =? 1) then RAINBOW
    else AREA_BLAST
  else
    let rows := set_of (map row group) in
    let cols := set_of (map col group) in
    if set_size rows =? 1 then COL_BLAST
    else if set_size cols =? 1 then ROW_BLAST
    else NONE.

(** ** [getBombAffectedCells] and [getSpecialBlastTargets] *)

(** The clamped 3x3 neighbourhood of [(r0, c0)], row by row. *)
Definition around (board : Board) (r0 c0 : Z) : outcome (list Cell) :=
  for_each (seqZ (r0 - 1) 3) (fun r acc =>
    for_each (seqZ (c0 - 1) 3) (fun c acc =>
      if in_grid r c
      then let* cell := defined (cellAtZ board r c) in Ok (acc ++ [cell])
      else Ok acc) acc) [].

Definition getBombAffectedCells (board : Board) (center : Position)
    : outcome (list string) :=
  let* cells := around board (prow center) (pcol center) in
  Ok (map id cells).

(** A slot that is missing in an existing row is pushed as [undefined] by the
    source, and the callers, which all read [t.id] of every target, raise the
    [TypeError] then; the model raises it at the push. *)
Definition getSpecialBlastTargets (board : Board) (cell : Cell) (g : Rng)
    : outcome (list Cell * Rng) :=
  match special cell with
  | ROW_BLAST =>
      let* targets :=
        for_up GRID_COLS 0 (fun c targets =>
          let* t := defined (cellAtZ board (row cell) (Z.of_nat c)) in
          Ok (targets ++ [t])) [] in
      Ok (targets, g)
  | COL_BLAST =>
      let* targets :=
        for_up GRID_ROWS 0 (fun r targets =>
          let* t := defined (cellAtZ board (Z.of_nat r) (col cell)) in
          Ok (targets ++ [t])) [] in
      Ok (targets, g)
  | AREA_BLAST =>
      let* targets := around board (row cell) (col cell) in
      Ok (targets, g)
  | RAINBOW =>
      for_up 5 0 (fun _ '(targets, g) =>
        let '(d1, g) := random g in
        let r := rand_index d1 GRID_ROWS in
        let '(d2, g) := random g in
        let c := rand_index d2 GRID_COLS in
        let* t := defined (cellAt board r c) in
        Ok (targets ++ [t], g)) ([], g)
  | NONE => Ok ([], g)
  end.

(** ** [applyGravity] *)

Definition is_vacant (s : CellStatus) : bool :=
  bool_decide (s = MATCHED) || bool_decide (s = EMPTY).

(** [type === GemType.RAINBOW ? 'RAINBOW' : 'NONE'] *)
Definition special_of_type (ty : option GemType.t) : SpecialType :=
  if bool_decide (ty = Some GemType.RAINBOW) then RAINBOW else NONE.

Record GravityResult : Type := mkGravityResult {
  newBoard : Board;
  movesDetected : bool
}.

(** The state of the loop over one column. *)
Abbreviation ColState := (nat * Board * bool * Rng)%type.

(** The body of [for (let r = GRID_ROWS - 1; r >= 0; r--)] in column [c]. *)
Definition drop_step (c r : nat) (st : ColState) : outcome ColState :=
  let '(emptySlots, newBoard, movesDetected, g) := st in
  let* cell := defined (cellAt newBoard r c) in
  if is_vacant (status cell) then
    let* newBoard := setCell newBoard r c (with_status EMPTY cell) in
    Ok (emptySlots + 1, newBoard, movesDetected, g)
  else if 0 <? emptySlots then
    let* newBoard :=
      setCell newBoard (r + emptySlots) c
        (mkCell (id cell) (type cell) (special cell) DROPPING
           (Z.of_nat (r + emptySlots)) (col cell) (Z.of_nat r) (visualCol cell)
           (isBonus cell)) in
    let '(d, g) := random g in
    let* newBoard :=
      setCell newBoard r c
        (mkCell ("temp-" +:+ pretty r +:+ "-" +:+ pretty c +:+ "-" +:+ pretty d)
           (Some GemType.RED) NONE EMPTY
           (Z.of_nat r) (Z.of_nat c) (Z.of_nat r) (Z.of_nat c) None) in
    Ok (emptySlots, newBoard, true, g)
  else Ok st.

(** The body of [for (let r = 0; r < emptySlots; r++)] in column [c]. *)
Definition fill_step (allowedTypes : list GemType.t) (emptySlots c r : nat)
    (st : Board * bool * Rng) : outcome (Board * bool * Rng) :=
  let '(newBoard, movesDetected, g) := st in
  let '(d, g) := random g in
  let ty := allowedTypes !! rand_index d (length allowedTypes) in
  let '(d', g) := random g in
  let* newBoard :=
    setCell newBoard r c
      (mkCell ("new-" +:+ pretty c +:+ "-" +:+ pretty d')
         ty (special_of_type ty) DROPPING
         (Z.of_nat r) (Z.of_nat c) (Z.of_nat r - Z.of_nat emptySlots) (Z.of_nat c)
         None) in
  Ok (newBoard, true, g).

Definition gravity_column (allowedTypes : list GemType.t) (c : nat)
    (st : Board * bool * Rng) : outcome (Board * bool * Rng) :=
  let '(newBoard, movesDetected, g) := st in
  let emptySlots := 0 in
  let* (emptySlots, newBoard, movesDetected, g) :=
    for_down GRID_ROWS (drop_step c) (emptySlots, newBoard, movesDetected, g) in
  (* Fill top empty slots with new gems *)
  for_up emptySlots 0 (fill_step allowedTypes emptySlots c) (newBoard, movesDetected, g).

Definition applyGravity (board : Board) (allowedTypes : list GemType.t) (g : Rng)
    : outcome (GravityResult * Rng) :=
  (* board.map(row => row.map(cell => ({ ...cell }))) *)
  let newBoard := map (map (fun cell : Cell => cell)) board in
  let movesDetected := false in
  let* (newBoard, movesDetected, g) :=
    for_up GRID_COLS 0 (gravity_column allowedTypes) (newBoard, movesDetected, g) in
  Ok (mkGravityResult newBoard movesDetected, g).

(** ** [createInitialBoard] *)

(** The condition of the [do ... while]: the choice would complete a run of
    three with the two cells to the left or the two cells above. *)
Definition completes_run (board : Board) (row_ : list Cell) (r c : nat)
    (ty : option GemType.t) : outcome bool :=
  let* onLeft :=
    if 2 <=? c then
      let* c1 := defined (row_ !! (c - 1)) in
      if bool_decide (type c1 = ty) then
        let* c2 := defined (row_ !! (c - 2)) in
        Ok (bool_decide (type c2 = ty))
      else Ok false
    else Ok false in
  if onLeft then Ok true
  else if 2 <=? r then
    let* c1 := defined (cellAt board (r - 1) c) in
    if bool_decide (type c1 = ty) then
      let* c2 := defined (cellAt board (r - 2) c) in
      Ok (bool_decide (type c2 = ty))
    else Ok false
  else Ok false.

(** [fuel] bounds the turns of each [do ... while]. *)
Definition pick_type (fuel : nat) (allowedTypes : list GemType.t) (board : Board)
    (row_ : list Cell) (r c : nat) (g : Rng) : outcome (option GemType.t * Rng) :=
  do_while fuel
    (fun '(_, g) =>
       let '(d, g) := random g in
       Ok (allowedTypes !! rand_index d (length allowedTypes), g))
    (fun '(ty, _) => completes_run board row_ r c ty)
    (None, g).

Definition createInitialBoard (fuel : nat) (allowedTypes : list GemType.t) (g : Rng)
    : outcome (Board * Rng) :=
  for_up GRID_ROWS 0 (fun r '(board, g) =>
    let* (row_, g) :=
      for_up GRID_COLS 0 (fun c '(row_, g) =>
        let* (ty, g) := pick_type fuel allowedTypes board row_ r c g in
        let '(d, g) := random g in
        Ok (row_ ++
              [mkCell ("cell-" +:+ pretty r +:+ "-" +:+ pretty c +:+ "-" +:+ pretty d)
                 ty (special_of_type ty) IDLE
                 (Z.of_nat r) (Z.of_nat c) (Z.of_nat r) (Z.of_nat c) None], g))
        ([], g) in
    Ok (board ++ [row_], g)) ([], g).

(** ** [App.tsx]: the resolution pass of [resolveBoard] *)

(** What the model keeps of the React component: the board transformations,
    the matched set, the groups, the score and the special gems created.
    State setters, timers and sounds are left out; particles, floating texts
    and the noise of [playExplosion] only consume draws ([audio] per
    explosion, three per particle, one per floating text). *)

(** [board.map(row => row.map(f))] where [f] also spawns effects: [f] returns
    the new cell and the number of draws its effects consume. *)
Definition map_board_fx (f : Cell -> Cell * nat) (board : Board) (g : Rng) : Board * Rng :=
  (map (map (fun c => (f c).1)) board,
   skip_draws (foldl (fun n c => n + (f c).2) 0 (concat board)) g).

(** [Map<string, SpecialType>] *)
Definition map_has (m : list (string * SpecialType)) (k : string) : bool :=
  bool_decide (k ∈ m.*1).

Definition map_get (m : list (string * SpecialType)) (k : string) : option SpecialType :=
  snd <$> find (fun kv => bool_decide (kv.1 = k)) m.

Definition map_set (k : string) (v : SpecialType) (m : list (string * SpecialType))
    : list (string * SpecialType) :=
  if map_has m k
  then map (fun kv => if bool_decide (kv.1 = k) then (k, v) else kv) m
  else m ++ [(k, v)].

(** Step 1: the natural matches and the cells already marked [MATCHED]. *)
Definition collectMatched (currentBoard : Board) : outcome (list string) :=
  let* matchedIds := findMatches currentBoard in
  Ok (foldl (fun ids cell =>
               if bool_decide (status cell = MATCHED) then set_add (id cell) ids else ids)
        matchedIds (concat currentBoard)).

(** The search of the cell that carries an identifier: the last one wins. *)
Definition findById (currentBoard : Board) (x : string) : outcome (option Cell) :=
  for_up GRID_ROWS 0 (fun r found =>
    for_up GRID_COLS 0 (fun c found =>
      let* cell := defined (cellAt currentBoard r c) in
      if bool_decide (id cell = x) then Ok (Some cell) else Ok found) found) None.

(** The state of the expansion: queue, matched set, processed specials, the
    flag [specialTriggered], the generator. *)
Abbreviation ExpandState :=
  (list string * list string * list string * bool * Rng)%type.

(** Step 2, one turn of [while (queue.length > 0)]. *)
Definition expand_step (soundEnabled : bool) (audio : nat) (currentBoard : Board)
    (st : ExpandState) : outcome ExpandState :=
  let '(queue, matchedIds, processedSpecials, specialTriggered, g) := st in
  match queue with
  | [] => Ok st
  | x :: queue =>
      let* cell := findById currentBoard x in
      match cell with
      | Some cell =>
          if bool_decide (special cell ≠ NONE) && negb (set_has processedSpecials (id cell))
          then
            let processedSpecials := set_add (id cell) processedSpecials in
            let* (targets, g) := getSpecialBlastTargets currentBoard cell g in
            let '(queue, matchedIds, g) :=
              foldl (fun '(queue, matchedIds, g) t =>
                       if negb (set_has matchedIds (id t))
                       then (queue ++ [id t], set_add (id t) matchedIds, skip_draws 15 g)
                       else (queue, matchedIds, g))
                (queue, matchedIds, g) targets in
            Ok (queue, matchedIds, processedSpecials, true,
                if soundEnabled then skip_draws audio g else g)
          else Ok (queue, matchedIds, processedSpecials, specialTriggered, g)
      | None => Ok (queue, matchedIds, processedSpecials, specialTriggered, g)
      end
  end.

(** Steps 1 and 2: the matched set of the pass. *)
Definition matchedSet (fuel : nat) (soundEnabled : bool) (audio : nat)
    (currentBoard : Board) (g : Rng) : outcome (list string * bool * Rng) :=
  let* matchedIds := collectMatched currentBoard in
  let processedSpecials : list string := [] in
  let queue := matchedIds in
  let specialTriggered := false in
  let* (_, matchedIds, _, specialTriggered, g) :=
    while_loop fuel (fun '(queue, _, _, _, _) => Ok (0 <? length queue))
      (expand_step soundEnabled audio currentBoard)
      (queue, matchedIds, processedSpecials, specialTriggered, g) in
  Ok (matchedIds, specialTriggered, g).

(** *** Step 3: score and special gems *)

(** JavaScript numbers are modelled by exact rationals.  At level 1 with
    combo 0 every intermediate value of the formula is an integer or a
    multiple of one half, which doubles represent exactly. *)
Definition basePoints : Q := 20.

Definition levelBaseMultiplier (currentLevel : Z) : Q :=
  1 + inject_Z (currentLevel - 1) * (1 # 2).

Definition levelComboStep (currentLevel : Z) : Q :=
  (1 # 2) + inject_Z (currentLevel - 1) * (1 # 10).

Definition comboMultiplier (currentCombo currentLevel : Z) : Q :=
  1 + inject_Z currentCombo * levelComboStep currentLevel.

Definition sizeMultiplier (size : nat) : Q :=
  if 5 <=? size then 3 else if size =? 4 then 3 # 2 else 1.

Definition groupScore (size : nat) (currentCombo currentLevel : Z) : Z :=
  Qfloor (inject_Z (Z.of_nat size) * basePoints * sizeMultiplier size
          * comboMultiplier currentCombo currentLevel
          * levelBaseMultiplier currentLevel).

(** "Find best candidate position": the cell of a group that becomes the
    special gem. *)
Definition chooseCandidate (group : list Cell) (lastSwapTarget : option Position)
    : option Cell :=
  let candidate := group !! 0 in
  match lastSwapTarget with
  | Some target =>
      let targetInGroup :=
        find (fun c => bool_decide (row c = prow target) && bool_decide (col c = pcol target))
          group in
      match targetInGroup with
      | Some c => Some c
      | None => candidate
      end
  | None => group !! (length group / 2)
  end.

(** What the pass records of one group. *)
Record GroupResult : Type := mkGroupResult {
  gr_size : nat;
  gr_special : SpecialType;
  gr_score : Z;
  gr_candidate : option Cell
}.

Abbreviation ScoreState :=
  (list (string * SpecialType) * Z * list GroupResult * Rng)%type.

(** The body of [groups.forEach]. *)
Definition score_group (currentCombo currentLevel : Z) (lastSwapTarget : option Position)
    (group : list Cell) (st : ScoreState) : outcome ScoreState :=
  let '(newSpecialGems, turnPoints, log, g) := st in
  let size := length group in
  let special := classifyMatchGroup group in
  let groupScore := groupScore size currentCombo currentLevel in
  let turnPoints := (turnPoints + groupScore)%Z in
  let* center := defined (group !! (size / 2)) in
  let g := skip_draws 1 g in
  let g := if (size =? 4) || (5 <=? size) then skip_draws 1 g else g in
  if bool_decide (special ≠ NONE) then
    let* candidate := defined (chooseCandidate group lastSwapTarget) in
    Ok (map_set (id candidate) special newSpecialGems, turnPoints,
        log ++ [mkGroupResult size special groupScore (Some candidate)],
        skip_draws 1 g)
  else
    Ok (newSpecialGems, turnPoints,
        log ++ [mkGroupResult size special groupScore None], g).

Record Scoring : Type := mkScoring {
  sc_groups : list (list Cell);
  sc_results : list GroupResult;
  sc_newSpecialGems : list (string * SpecialType);
  sc_turnPoints : Z
}.

Definition scoreBoard (fuel : nat) (currentBoard : Board) (matchedIds : list string)
    (currentCombo currentLevel : Z) (lastSwapTarget : option Position) (g : Rng)
    : outcome (Scoring * Rng) :=
  let* naturalMatches := findMatches currentBoard in
  let* groups := getConnectedGroups fuel currentBoard naturalMatches in
  let* (newSpecialGems, turnPoints, log, g) :=
    for_each groups (score_group currentCombo currentLevel lastSwapTarget)
      ([], 0%Z, [], g) in
  (* Add points for blast debris (non-grouped matches) *)
  let blastDebrisCount :=
    (Z.of_nat (set_size matchedIds)
     - foldl (fun acc grp => acc + Z.of_nat (length grp)) 0 groups)%Z in
  let turnPoints :=
    if bool_decide (0 < blastDebrisCount)%Z
    then (turnPoints
          + Qfloor (inject_Z blastDebrisCount * basePoints
                    * levelBaseMultiplier currentLevel
                    * comboMultiplier currentCombo currentLevel))%Z
    else turnPoints in
  Ok (mkScoring groups log newSpecialGems turnPoints, g).

(** *** Step 4: the board with its cells marked *)

Definition mark_cell (newSpecialGems : list (string * SpecialType))
    (matchedIds : list string) (cell : Cell) : Cell * nat :=
  match map_get newSpecialGems (id cell) with
  | Some specialType =>
      (mkCell (id cell)
         (if bool_decide (specialType = RAINBOW) then Some GemType.RAINBOW else type cell)
         specialType CREATED (row cell) (col cell) (visualRow cell) (visualCol cell)
         (isBonus cell),
       if bool_decide (specialType = RAINBOW) then 54 else 48)
  | None =>
      if set_has matchedIds (id cell) then (with_status MATCHED cell, 37)
      else (cell, 0)
  end.

Record Pass : Type := mkPass {
  p_matchedIds : list string;
  p_specialTriggered : bool;
  p_scoring : Scoring;
  p_nextCombo : Z;
  p_matchedBoard : Board
}.

(** Steps 1 to 4 of [resolveBoard]: [None] when the matched set is empty (the
    board is stable), the pass otherwise. *)
Definition resolvePass (fuel : nat) (soundEnabled : bool) (audio : nat)
    (currentLevel : Z) (currentBoard : Board) (currentCombo : Z)
    (lastSwapTarget : option Position) (g : Rng) : outcome (option Pass * Rng) :=
  let* (matchedIds, specialTriggered, g) :=
    matchedSet fuel soundEnabled audio currentBoard g in
  if 0 <? set_size matchedIds then
    let* (scoring, g) :=
      scoreBoard fuel currentBoard matchedIds currentCombo currentLevel lastSwapTarget g in
    let nextCombo := (currentCombo + 1)%Z in
    let '(matchedBoard, g) :=
      map_board_fx (mark_cell (sc_newSpecialGems scoring) matchedIds) currentBoard g in
    Ok (Some (mkPass matchedIds specialTriggered scoring nextCombo matchedBoard), g)
  else Ok (None, g).

(** Steps 5 and 6, and the cascade: gravity, the statuses back to [IDLE], and
    the next pass on the settled board, until a pass finds nothing. The result
    is the stable board, the points of the turn and the combo counter. *)
Definition settle (cell : Cell) : Cell :=
  mkCell (id cell) (type cell) (special cell) IDLE (row cell) (col cell)
    (row cell) (col cell) (isBonus cell).

Fixpoint resolveBoard (passes fuel : nat) (soundEnabled : bool) (audio : nat)
    (currentLevel : Z) (activeGemTypes : list GemType.t)
    (currentBoard : Board) (currentCombo : Z) (lastSwapTarget : option Position)
    (score : Z) (g : Rng) : outcome (Board * Z * Z * Rng) :=
  match passes with
  | O => OutOfFuel
  | S passes' =>
      let* (pass, g) :=
        resolvePass fuel soundEnabled audio currentLevel currentBoard currentCombo
          lastSwapTarget g in
      match pass with
      | Some p =>
          let* (gr, g) := applyGravity (p_matchedBoard p) activeGemTypes g in
          let settledBoard := map (map settle) (newBoard gr) in
          resolveBoard passes' fuel soundEnabled audio currentLevel activeGemTypes
            settledBoard (p_nextCombo p) None
            (score + sc_turnPoints (p_scoring p))%Z g
      | None => Ok (currentBoard, score, currentCombo, g)
      end
  end.

(** ** [App.tsx]: [handleSwap] *)

(** [{ ...cell, row, col, visualRow, visualCol, status }] *)
Definition placed (cell : Cell) (pos : Position) (s : CellStatus) : Cell :=
  mkCell (id cell) (type cell) (special cell) s (prow pos) (pcol pos)
    (prow pos) (pcol pos) (isBonus cell).

(** [board[pos.row][pos.col] = v], the slot having been read before. *)
Definition setCellZ (b : Board) (pos : Position) (v : Cell) : outcome Board :=
  setCell b (Z.to_nat (prow pos)) (Z.to_nat (pcol pos)) v.

(** [if (board[r]?.[c]) blastIds.add(board[r][c].id)] *)
Definition add_if_present (board : Board) (r c : Z) (blastIds : list string) : list string :=
  match cellAtZ board r c with
  | Some cell => set_add (id cell) blastIds
  | None => blastIds
  end.

(** What [handleSwap] ends with: a call of [resolveBoard] (one move is
    consumed), or the swap undone. *)
Inductive SwapAction : Type :=
| Resolve (activeBoard : Board) (combo : Z) (lastSwapTarget : option Position)
| Revert (revertBoard : Board).

(** Case C of the special combinations: two blasts. *)
Definition blastCombo (board tempBoard : Board) (cell1 cell2 : Cell) (pos2 : Position)
    (g : Rng) : outcome (Board * Rng) :=
  let blastIds := set_add (id cell2) (set_add (id cell1) []) in
  let* (targets1, g) := getSpecialBlastTargets board cell1 g in
  let* (targets2, g) := getSpecialBlastTargets board cell2 g in
  let blastIds := foldl (fun s t => set_add (id t) s) blastIds targets1 in
  let blastIds := foldl (fun s t => set_add (id t) s) blastIds targets2 in
  let blastIds :=
    if bool_decide (special cell1 = AREA_BLAST) && bool_decide (special cell2 = AREA_BLAST)
    then
      (* 5x5 centered on pos2 *)
      foldl (fun s r =>
               foldl (fun s c => add_if_present board r c s) s (seqZ (pcol pos2 - 2) 5))
        blastIds (seqZ (prow pos2 - 2) 5)
    else if (bool_decide (special cell1 = AREA_BLAST) && bool_decide (special cell2 ≠ AREA_BLAST))
            || (bool_decide (special cell2 = AREA_BLAST) && bool_decide (special cell1 ≠ AREA_BLAST))
    then
      (* 3 rows and 3 columns centered on pos2 *)
      let blastIds :=
        foldl (fun s r =>
                 foldl (fun s c => add_if_present board r c s) s (seqZ 0 (Z.of_nat GRID_COLS)))
          blastIds (seqZ (prow pos2 - 1) 3) in
      foldl (fun s c =>
               foldl (fun s r => add_if_present board r c s) s (seqZ 0 (Z.of_nat GRID_ROWS)))
        blastIds (seqZ (pcol pos2 - 1) 3)
    else blastIds in
  Ok (map_board_fx (fun c =>
        if set_has blastIds (id c) then (with_status MATCHED c, 24) else (c, 0))
      tempBoard g).

(** The body of [handleSwap] past its guard: the board is not being processed
    and the game phase is [PLAYING]. *)
Definition handleSwap (soundEnabled : bool) (audio : nat) (board : Board) (combo : Z)
    (pos1 pos2 : Position) (g : Rng) : outcome (SwapAction * Rng) :=
  (* 1. Optimistic swap *)
  let tempBoard := map (map (fun c : Cell => c)) board in
  let* cell1 := defined (cellAtZ tempBoard (prow pos1) (pcol pos1)) in
  let* cell2 := defined (cellAtZ tempBoard (prow pos2) (pcol pos2)) in
  let* tempBoard := setCellZ tempBoard pos1 (placed cell2 pos1 SWAPPING) in
  let* tempBoard := setCellZ tempBoard pos2 (placed cell1 pos2 SWAPPING) in
  (* 2. Special gem combinations *)
  let isSpecial1 := bool_decide (special cell1 ≠ NONE) in
  let isSpecial2 := bool_decide (special cell2 ≠ NONE) in
  let isRainbow1 := bool_decide (special cell1 = RAINBOW) in
  let isRainbow2 := bool_decide (special cell2 = RAINBOW) in
  if isSpecial1 && isSpecial2 then
    let activeBoard := map (map (fun c : Cell => c)) tempBoard in
    let* (activeBoard, g) :=
      if isRainbow1 && isRainbow2 then
        (* Case A: two rainbows *)
        Ok (map (map (with_status MATCHED)) activeBoard, g)
      else if isRainbow1 || isRainbow2 then
        (* Case B: rainbow + special *)
        let rainbowCell := if isRainbow1 then cell1 else cell2 in
        let otherCell := if isRainbow1 then cell2 else cell1 in
        let targetType := type otherCell in
        let targetSpecial := special otherCell in
        Ok (map_board_fx (fun c =>
              if bool_decide (id c = id rainbowCell) then (with_status MATCHED c, 0)
              else if bool_decide (type c = targetType) then
                (mkCell (id c) (type c) targetSpecial MATCHED (row c) (col c)
                   (visualRow c) (visualCol c) (isBonus c), 24)
              else (c, 0)) activeBoard g)
      else
        (* Case C: two blasts *)
        blastCombo board activeBoard cell1 cell2 pos2 g in
    Ok (Resolve activeBoard combo None, skip_draws audio g)
  else if isRainbow1 || isRainbow2 then
    (* 3. Rainbow + normal gem *)
    let rainbowCell := if isRainbow1 then cell1 else cell2 in
    let otherCell := if isRainbow1 then cell2 else cell1 in
    let targetType := type otherCell in
    let '(activeBoard, g) :=
      map_board_fx (fun c =>
        if bool_decide (type c = targetType) || bool_decide (id c = id rainbowCell)
           || bool_decide (id c = id otherCell)
        then (with_status MATCHED c, 24) else (c, 0)) tempBoard g in
    Ok (Resolve activeBoard combo None, if soundEnabled then skip_draws audio g else g)
  else
    (* 4. Standard swap *)
    let* matches := findMatches tempBoard in
    if 0 <? set_size matches then Ok (Resolve tempBoard combo (Some pos2), g)
    else
      let revertBoard := map (map (fun c : Cell => c)) tempBoard in
      let* cellAtPos1 := defined (cellAtZ revertBoard (prow pos1) (pcol pos1)) in
      let* cellAtPos2 := defined (cellAtZ revertBoard (prow pos2) (pcol pos2)) in
      let* revertBoard := setCellZ revertBoard pos1 (placed cellAtPos2 pos1 IDLE) in
      let* revertBoard := setCellZ revertBoard pos2 (placed cellAtPos1 pos2 IDLE) in
      Ok (Revert revertBoard, g).

(** ** [gameLogic.ts]: the levels *)

Module LevelConfig.
Record t : Type := mk {
  level : Z;
  targetScore : Z;
  moves : Z;
  timeLimit : option Z;
  description : string
}.
End LevelConfig.

Definition LEVELS : list LevelConfig.t :=
  [ LevelConfig.mk 1 1000 10 None "Tutorial: Score 1000 pts in 10 moves!";
    LevelConfig.mk 2 3000 15 None "Score 3000 pts in 15 moves.";
    LevelConfig.mk 3 6000 20 None "Score 6000 pts in 20 moves.";
    LevelConfig.mk 4 12000 25 None "Challenge: 12,000 pts in 25 moves!";
    LevelConfig.mk 5 25000 30 None "Master: 25,000 pts in 30 moves!" ].

Definition getLevelConfig (level : Z) : LevelConfig.t :=
  let base := find (fun l => bool_decide (LevelConfig.level l = level)) LEVELS in
  match base with
  | Some base => base
  | None =>
      (* Procedural generation for levels beyond 5 *)
      let multiplier := (level - 4)%Z in
      LevelConfig.mk level (25000 + 10000 * multiplier)%Z (30 + multiplier * 2)%Z None
        ("Endless Mode: Level " +:+ pretty level)
  end.

(** [xs.slice(start, end)], with the relative indices of JavaScript. *)
Definition slice {A} (xs : list A) (start end_ : Z) : list A :=
  let len := Z.of_nat (length xs) in
  let k := if (start <? 0)%Z then Z.max (len + start) 0 else Z.min start len in
  let final := if (end_ <? 0)%Z then Z.max (len + end_) 0 else Z.min end_ len in
  take (Z.to_nat (final - k)) (drop (Z.to_nat k) xs).


(** [customCount] is [None] for [undefined]; [level === 1 && customCount]
    holds when the count is given and is not the falsy number [0]. *)
Definition getGemTypesForLevel (level : Z) (customCount : option Z) : list GemType.t :=
  let custom :=
    match customCount with
    | Some n =>
        if bool_decide (level = 1%Z) && negb (bool_decide (n = 0%Z)) then Some n else None
    | None => None
    end in
  match custom with
  | Some customCount =>
      (* Safe clamp between 3 and 8 (excluding RAINBOW which is index 8) *)
      let count := Z.max 3 (Z.min 8 customCount) in
      slice GEM_TYPES_ARRAY 0 count
  | None =>
      if bool_decide (level = 1%Z) then
        [GemType.RED; GemType.BLUE; GemType.GREEN; GemType.YELLOW; GemType.PURPLE]
      else if bool_decide (level = 2%Z) then
        [GemType.RED; GemType.BLUE; GemType.GREEN; GemType.YELLOW; GemType.PURPLE;
         GemType.ORANGE]
      else if bool_decide (level = 3%Z) then
        [GemType.RED; GemType.BLUE; GemType.GREEN; GemType.YELLOW; GemType.PURPLE;
         GemType.ORANGE; GemType.DIAMOND]
      else
        [GemType.RED; GemType.BLUE; GemType.GREEN; GemType.YELLOW; GemType.PURPLE;
         GemType.ORANGE; GemType.DIAMOND; GemType.STAR]
  end.

(** ** [App.tsx]: the start of a level, the tools and the input handlers *)

Inductive GamePhase : Type :=
| START | PLAYING | LEVEL_COMPLETE | GAME_OVER.

Module ItemType.
Inductive t : Type := BOMB | REFRESH.
End ItemType.

#[global] Instance GamePhase_eq_dec : EqDecision GamePhase.
Proof. solve_decision. Defined.
#[global] Instance ItemType_eq_dec : EqDecision ItemType.t.
Proof. solve_decision. Defined.

(** [inventory]: the number of uses left of each tool. *)
Module Inventory.
Record t : Type := mk { BOMB : Z; REFRESH : Z }.
End Inventory.

(** The state that [startLevel] sets. *)
Record LevelStart : Type := mkLevelStart {
  ls_currentLevel : Z;
  ls_score : Z;
  ls_combo : Z;
  ls_comboTimer : Z;
  ls_timeLeft : option Z;
  ls_movesLeft : Z;
  ls_board : Board;
  ls_inventory : Inventory.t;
  ls_activeTool : option ItemType.t;
  ls_gamePhase : GamePhase
}.

(** [config.timeLimit || null]: a limit of [0] is falsy. *)
Definition or_null (n : option Z) : option Z :=
  match n with
  | Some n => if bool_decide (n = 0%Z) then None else Some n
  | None => None
  end.

Definition startLevel (fuel : nat) (level1GemCount : Z) (level : Z) (g : Rng)
    : outcome (LevelStart * Rng) :=
  let config := getLevelConfig level in
  let types :=
    getGemTypesForLevel level
      (if bool_decide (level = 1%Z) then Some level1GemCount else None) in
  let* (board, g) := createInitialBoard fuel types g in
  Ok (mkLevelStart level 0 0 0 (or_null (LevelConfig.timeLimit config))
        (LevelConfig.moves config) board (Inventory.mk 2 2) None PLAYING, g).

(** What a tool ends with: nothing (the guard), or a new inventory and a new
    board; the bomb then calls [resolveBoard(tempBoard, combo)]. *)
Inductive ToolAction : Type :=
| ToolIgnored
| ToolUsed (inventory : Inventory.t) (newBoard : Board).

Definition activateBomb (soundEnabled : bool) (audio : nat) (inventory : Inventory.t)
    (board : Board) (centerPos : Position) (g : Rng) : outcome (ToolAction * Rng) :=
  if bool_decide (Inventory.BOMB inventory <= 0)%Z then Ok (ToolIgnored, g)
  else
    let inventory :=
      Inventory.mk (Inventory.BOMB inventory - 1) (Inventory.REFRESH inventory) in
    let g := if soundEnabled then skip_draws audio g else g in
    let* ids := getBombAffectedCells board centerPos in
    let idsToDestroy := set_of ids in
    let '(tempBoard, g) :=
      map_board_fx (fun cell =>
        if set_has idsToDestroy (id cell) then (with_status MATCHED cell, 36)
        else (cell, 0)) board g in
    Ok (ToolUsed inventory tempBoard, g).

Definition activateReshuffle (fuel : nat) (isProcessing : bool) (inventory : Inventory.t)
    (activeGemTypes : list GemType.t) (g : Rng) : outcome (ToolAction * Rng) :=
  if isProcessing || bool_decide (Inventory.REFRESH inventory <= 0)%Z
  then Ok (ToolIgnored, g)
  else
    let inventory :=
      Inventory.mk (Inventory.BOMB inventory) (Inventory.REFRESH inventory - 1) in
    let* (newBoard, g) := createInitialBoard fuel activeGemTypes g in
    Ok (ToolUsed inventory newBoard, g).

(** What a click on the slot [(r, c)] does. *)
Inductive ClickAction : Type :=
| ClickIgnored
| ClickBomb (centerPos : Position)
| ClickSelect (selectedPos : option Position)
| ClickSwap (pos1 pos2 : Position).

Definition onCellClick (gamePhase : GamePhase) (isProcessing : bool)
    (activeTool : option ItemType.t) (board : Board) (selectedPos : option Position)
    (r c : Z) : outcome ClickAction :=
  if bool_decide (gamePhase ≠ PLAYING) || isProcessing then Ok ClickIgnored
  else if bool_decide (activeTool = Some ItemType.BOMB) then
    (* TOOL LOGIC: BOMB *)
    Ok (ClickBomb (mkPosition r c))
  else
    (* Normal Swap Logic *)
    let* cell := defined (cellAtZ board r c) in
    if bool_decide (status cell ≠ IDLE) then Ok ClickIgnored
    else
      match selectedPos with
      | None => Ok (ClickSelect (Some (mkPosition r c)))
      | Some selectedPos =>
          let isAdjacent :=
            bool_decide
              (Z.abs (prow selectedPos - r) + Z.abs (pcol selectedPos - c) = 1)%Z in
          if isAdjacent then Ok (ClickSwap selectedPos (mkPosition r c))
          else if bool_decide (prow selectedPos = r) && bool_decide (pcol selectedPos = c)
          then Ok (ClickSelect None)
          else Ok (ClickSelect (Some (mkPosition r c)))
      end.

(** The two references of the swipe gesture: where the touch started, in
    client coordinates, and on which cell. *)
Record Gesture : Type := mkGesture {
  touchStartRef : option (Q * Q);
  activeCellRef : option Position
}.

Definition handleTouchStart (isProcessing : bool) (gamePhase : GamePhase)
    (activeTool : option ItemType.t) (clientX clientY : Q) (r c : Z)
    (refs : Gesture) : Gesture :=
  if isProcessing || bool_decide (gamePhase ≠ PLAYING) then refs
  else if bool_decide (activeTool = Some ItemType.BOMB) then refs
  else mkGesture (Some (clientX, clientY)) (Some (mkPosition r c)).

(** [x > y] on numbers. *)
Definition Qgt_bool (x y : Q) : bool := negb (Qle_bool x y).

(** The swap that a move of the finger to [(x, y)] issues, if any, and the
    references after it. *)
Definition handleTouchMove (isProcessing : bool) (activeTool : option ItemType.t)
    (x y : Q) (refs : Gesture) : option (Position * Position) * Gesture :=
  match touchStartRef refs, activeCellRef refs with
  | Some (startX, startY), Some activeCell =>
      if isProcessing || bool_decide (activeTool = Some ItemType.BOMB) then (None, refs)
      else
        let deltaX := (x - startX)%Q in
        let deltaY := (y - startY)%Q in
        (* Threshold for swipe *)
        if Qgt_bool (Qabs deltaX) 40 || Qgt_bool (Qabs deltaY) 40 then
          let targetRow := prow activeCell in
          let targetCol := pcol activeCell in
          let '(targetRow, targetCol) :=
            if Qgt_bool (Qabs deltaX) (Qabs deltaY)
            then (targetRow, (targetCol + (if Qgt_bool deltaX 0 then 1 else -1))%Z)
            else ((targetRow + (if Qgt_bool deltaY 0 then 1 else -1))%Z, targetCol) in
          (* Check bounds *)
          if in_grid targetRow targetCol
          then (Some (activeCell, mkPosition targetRow targetCol), mkGesture None None)
          else (None, refs)
        else (None, refs)
  | _, _ => (None, refs)
  end.
(* ===================================================================== *)
(** * Part II.  The vocabulary of the properties                          *)
(* ===================================================================== *)

(** A board has [GRID_ROWS] rows of [GRID_COLS] cells. *)
Definition board_shape (b : Board) : Prop :=
  length b = GRID_ROWS ∧ Forall (fun r => length r = GRID_COLS) b.

(** No identifier is carried by two slots. *)
Definition unique_ids (b : Board) : Prop :=
  ∀ r c r' c' x y,
    cellAt b r c = Some x → cellAt b r' c' = Some y → id x = id y →
    r = r' ∧ c = c'.

(** The logical coordinates of a cell are those of its slot. *)
Definition coords_ok (b : Board) : Prop :=
  ∀ r c x, cellAt b r c = Some x → row x = Z.of_nat r ∧ col x = Z.of_nat c.

(** The slot [(r, c)] holds a token of type [t]. *)
Definition typed (b : Board) (r c : nat) (t : GemType.t) : Prop :=
  ∃ cell, cellAt b r c = Some cell ∧ type cell = Some t.

(** A horizontal run: [len >= 3] consecutive slots of row [r], from column
    [c0] on, all of type [t]; a vertical run likewise in column [c]. *)
Definition hrun (b : Board) (r c0 len : nat) (t : GemType.t) : Prop :=
  3 ≤ len ∧ ∀ k, c0 ≤ k < c0 + len → typed b r k t.

Definition vrun (b : Board) (c r0 len : nat) (t : GemType.t) : Prop :=
  3 ≤ len ∧ ∀ k, r0 ≤ k < r0 + len → typed b k c t.

(** The slot [(r, c)] lies in some run. *)
Definition in_run (b : Board) (r c : nat) : Prop :=
  (∃ c0 len t, hrun b r c0 len t ∧ c0 ≤ c < c0 + len) ∨
  (∃ r0 len t, vrun b c r0 len t ∧ r0 ≤ r < r0 + len).

(** The two scans of [findMatches] run one body along a line of the board, a
    row or a column read through [at_]: the [while] that extends a run past
    its first three cells, ... *)
Definition extend_run (at_ : nat -> option Cell) (limit : nat)
    (ty : option GemType.t) (k0 : nat) (ids : list string) : outcome (list string) :=
  let* (_, ids') :=
    while_loop (S limit)
      (fun '(k, _) =>
         if k <? limit
         then let* cell := defined (at_ k) in Ok (bool_decide (type cell = ty))
         else Ok false)
      (fun '(k, ids) =>
         let* cell := defined (at_ k) in Ok (S k, set_add (id cell) ids))
      (k0, ids) in
  Ok ids'.

(** ... and the test of three consecutive cells from [i] on, with the
    marking. *)
Definition scan_at (at_ : nat -> option Cell) (limit i : nat)
    (ids : list string) : outcome (list string) :=
  let* c0 := defined (at_ i) in
  let ty := type c0 in
  if bool_decide (ty ≠ None) then
    let* c1 := defined (at_ (i + 1)) in
    if bool_decide (type c1 = ty) then
      let* c2 := defined (at_ (i + 2)) in
      if bool_decide (type c2 = ty) then
        let ids := set_add (id c0) ids in
        let ids := set_add (id c1) ids in
        let ids := set_add (id c2) ids in
        extend_run at_ limit ty (i + 3) ids
      else Ok ids
    else Ok ids
  else Ok ids.

(** [s'] is the set [s] with the elements that satisfy [Q] added. *)
Definition adds {A} (Q : A → Prop) (s s' : list A) : Prop :=
  (NoDup s → NoDup s') ∧ ∀ x, x ∈ s' ↔ x ∈ s ∨ Q x.

(** A line of the board (a row or a column) is read through [at_]; slot [k]
    of the line holds a token of type [t]. *)
Definition ltyped (at_ : nat → option Cell) (k : nat) (t : GemType.t) : Prop :=
  ∃ cell, at_ k = Some cell ∧ type cell = Some t.

(** What [scan_at] marks when it starts at [i]: the slots [k] from [i] on
    such that everything from [i] to [k], and at least to [i + 2], has one
    type. *)
Definition lmark (at_ : nat → option Cell) (limit i k : nat) : Prop :=
  i ≤ k < limit ∧ ∃ t, ∀ j, i ≤ j ≤ k `max` (i + 2) → ltyped at_ j t.

Definition marked_ids (at_ : nat → option Cell) (limit i : nat) (x : string) : Prop :=
  ∃ k cell, at_ k = Some cell ∧ id cell = x ∧ lmark at_ limit i k.


(** ** Gravity *)

(** Column [c] of a board, from the top row down. *)
Definition column (b : Board) (c : nat) : list Cell :=
  omap (λ row_ : list Cell, row_ !! c) b.

(** A slot is occupied when its status is neither [MATCHED] nor [EMPTY]. *)
Definition occupied (x : Cell) : Prop := is_vacant (status x) = false.

#[global] Instance occupied_dec x : Decision (occupied x).
Proof. unfold occupied. apply _. Defined.

(** [y] is the token [x], possibly moved: gravity rewrites the row, the
    status and the visual row of a cell, nothing else. *)
Definition same_token (x y : Cell) : Prop :=
  id y = id x ∧ type y = type x ∧ special y = special x ∧ col y = col x ∧
  visualCol y = visualCol x ∧ isBonus y = isBonus x ∧ occupied y.

(** What gravity makes of a column: freshly generated [DROPPING] cells, as
    many as the column had vacant slots, on top of its occupied cells in their
    original order. *)
Definition gravity_post (inp out : list Cell) : Prop :=
  ∃ fresh surv,
    out = fresh ++ surv ∧
    length fresh = length inp - length (filter occupied inp) ∧
    Forall (λ x, status x = DROPPING) fresh ∧
    Forall2 same_token (filter occupied inp) surv.


(** The invariant of the bottom-up loop of [applyGravity] in column [c] of the
    board [nb], the rows from [k] down done. *)
Definition drop_inv (c : nat) (nb : Board) (mv0 : bool) (k : nat) (st : ColState) : Prop :=
  let '(e, cur, mv, g) := st in
  board_shape cur ∧
  (∀ c', c' ≠ c → c' < GRID_COLS → column cur c' = column nb c') ∧
  take k (column cur c) = take k (column nb c) ∧
  e + length (filter occupied (drop k (column nb c))) = GRID_ROWS - k ∧
  Forall2 same_token (filter occupied (drop k (column nb c))) (drop (k + e) (column cur c)) ∧
  (mv0 = true → mv = true) ∧ (mv = true → mv0 = true ∨ 0 < e).

(** The invariant of the refill loop in column [c], the rows above [r]
    filled. *)
Definition fill_inv (c e : nat) (cur : Board) (mv0 : bool) (r : nat)
    (st : Board * bool * Rng) : Prop :=
  let '(cur', mv, g) := st in
  board_shape cur' ∧
  (∀ c', c' ≠ c → c' < GRID_COLS → column cur' c' = column cur c') ∧
  drop e (column cur' c) = drop e (column cur c) ∧
  Forall (λ x, status x = DROPPING) (take r (column cur' c)) ∧
  (mv = true ↔ mv0 = true ∨ 0 < r).

(** All the cells of a group lie in one row; in one column. *)
Definition share_row (group : list Cell) : Prop :=
  ∃ r, ∀ x, x ∈ group → row x = r.

Definition share_col (group : list Cell) : Prop :=
  ∃ c, ∀ x, x ∈ group → col x = c.

(** Four copies of one cell: a list of cells that lies both in one row and in
    one column. *)
Definition stacked_group : list Cell :=
  replicate 4 (mkCell "cell-0-0-1" (Some GemType.RED) NONE IDLE 0 0 0 0 None).

(** The cell sits at the position [p], by its logical coordinates. *)
Definition at_position (p : Position) (x : Cell) : Prop :=
  row x = prow p ∧ col x = pcol p.

(** Sample boards: cells of the given types, with their coordinates and the
    identifiers [cell-r-c]. *)
Definition sample_cell (r c : nat) (ty : GemType.t) : Cell :=
  mkCell ("cell-" +:+ pretty r +:+ "-" +:+ pretty c) (Some ty) NONE IDLE
    (Z.of_nat r) (Z.of_nat c) (Z.of_nat r) (Z.of_nat c) None.

Definition sample_board (types : list (list GemType.t)) : Board :=
  imap (λ r tys, imap (λ c ty, sample_cell r c ty) tys) types.

(** A board without any run: rows of the pattern A A B B shifted by two
    every second row. *)
Definition quiet_types : list (list GemType.t) :=
  let a := [GemType.RED; GemType.RED; GemType.BLUE; GemType.BLUE;
            GemType.RED; GemType.RED; GemType.BLUE; GemType.BLUE] in
  let b := [GemType.BLUE; GemType.BLUE; GemType.RED; GemType.RED;
            GemType.BLUE; GemType.BLUE; GemType.RED; GemType.RED] in
  [a; a; b; b; a; a; b; b].

(** A stable board on which moving the [GREEN] token of slot (1, 1) up
    completes a run of four in row 0. *)
Definition before_swap_types : list (list GemType.t) :=
  <[0 := [GemType.GREEN; GemType.YELLOW; GemType.GREEN; GemType.GREEN;
          GemType.RED; GemType.RED; GemType.BLUE; GemType.BLUE]]>
  (<[1 := [GemType.RED; GemType.GREEN; GemType.BLUE; GemType.BLUE;
           GemType.RED; GemType.RED; GemType.BLUE; GemType.BLUE]]> quiet_types).

Definition before_swap_board : Board := sample_board before_swap_types.

(** The player selects (0, 1) and swaps it with (1, 1). *)
Definition swap_from : Position := mkPosition 0 1.
Definition swap_to : Position := mkPosition 1 1.

(** The board after that swap, as [handleSwap] hands it to [resolveBoard]. *)
Definition after_swap_board : Board :=
  match handleSwap true 0 before_swap_board 0 swap_from swap_to (λ _, 0) with
  | Ok (Resolve activeBoard _ _, _) => activeBoard
  | _ => []
  end.

(** The identifiers of the run that the swap completes. *)
Definition swap_matches : list string :=
  ["cell-0-0"; "cell-1-1"; "cell-0-2"; "cell-0-3"].

(** No three consecutive cells of a row, or of a column, have one type. *)
Definition no_triple_h (row_ : list Cell) : Prop :=
  ∀ c x0 x1 x2,
    row_ !! c = Some x0 → row_ !! (c + 1) = Some x1 → row_ !! (c + 2) = Some x2 →
    ¬ (type x1 = type x2 ∧ type x0 = type x2).

Definition no_triple_v (b : Board) : Prop :=
  ∀ r c x0 x1 x2,
    cellAt b r c = Some x0 → cellAt b (r + 1) c = Some x1 → cellAt b (r + 2) c = Some x2 →
    ¬ (type x1 = type x2 ∧ type x0 = type x2).



(** A generator and a set of types for a sample run of
    [createInitialBoard]. *)
Definition initial_rng : Rng := λ n, n * 7 + 3.
Definition initial_types := [GemType.RED; GemType.BLUE; GemType.GREEN].


(** ** Groups *)

(** The cell is the content of some slot of the board. *)
Definition on_board (b : Board) (y : Cell) : Prop :=
  ∃ r c, cellAt b r c = Some y.

(** [y] is what the flood fill looks for around [x]: the content of one of
    the four slots next to the logical position of [x], matched, and of the
    type of [x]. *)
Definition adjacent_match (b : Board) (matchedIds : list string) (x y : Cell) : Prop :=
  ∃ n, n ∈ neighbors x ∧ in_grid (prow n) (pcol n) = true ∧
    cellAtZ b (prow n) (pcol n) = Some y ∧ id y ∈ matchedIds ∧ type y = type x.

(** The number of slots whose identifier has not been visited. *)
Definition unvisited (b : Board) (visited : list string) : nat :=
  length (filter (λ y, id y ∉ visited) (concat b)).

(** The invariant of one flood fill, started from [seed] when the
    identifiers [V0] had been visited. *)
Definition bfs_inv (b : Board) (matchedIds V0 : list string) (seed : Cell)
    (st : BfsState) : Prop :=
  let '(queue, visited, group) := st in
  seed ∈ group ++ queue ∧
  NoDup (id <$> group ++ queue) ∧
  (∀ x, x ∈ visited ↔ x ∈ V0 ∨ x ∈ id <$> group ++ queue) ∧
  (∀ x, x ∈ id <$> group ++ queue → x ∉ V0) ∧
  (∀ y, y ∈ group ++ queue → on_board b y ∧ id y ∈ matchedIds ∧ type y = type seed) ∧
  (∀ x y, x ∈ group → adjacent_match b matchedIds x y → id y ∈ visited).

(** What holds of the groups found so far: no identifier twice, no empty
    group, only matched cells of the board, one type per group, and around
    each cell of a group every matched cell of its type is in that group or
    in an earlier one. *)
Definition groups_ok (b : Board) (matchedIds : list string)
    (groups : list (list Cell)) : Prop :=
  NoDup (id <$> concat groups) ∧
  (∀ g, g ∈ groups → g ≠ []) ∧
  (∀ y, y ∈ concat groups → on_board b y ∧ id y ∈ matchedIds) ∧
  (∀ g x y, g ∈ groups → x ∈ g → y ∈ g → type x = type y) ∧
  (∀ i g x y, groups !! i = Some g → x ∈ g → adjacent_match b matchedIds x y →
     id y ∈ id <$> concat (take (S i) groups)).

(** The invariant of the scan for seeds, the slots in [P] done. *)
Definition seeds_inv (b : Board) (matchedIds : list string) (P : nat → nat → Prop)
    (st : list string * list (list Cell)) : Prop :=
  let '(visited, groups) := st in
  groups_ok b matchedIds groups ∧
  (∀ x, x ∈ visited ↔ x ∈ id <$> concat groups) ∧
  (∀ r c y, P r c → cellAt b r c = Some y → id y ∈ matchedIds → id y ∈ visited).

(** The variant of a flood fill. *)
Definition bfs_measure (b : Board) (st : BfsState) : nat :=
  let '(queue, visited, _) := st in unvisited b visited + length queue.

(** The cell is one of the four cells of row [r] from column [c0] on. *)
Definition in_four (b : Board) (r c0 : nat) (y : Cell) : Prop :=
  ∃ j, j < 4 ∧ cellAt b r (c0 + j) = Some y.

(** The board on which a run of four [GREEN] tokens opens row 0. *)
Definition four_run_types : list (list GemType.t) :=
  <[0 := [GemType.GREEN; GemType.GREEN; GemType.GREEN; GemType.GREEN;
          GemType.RED; GemType.RED; GemType.BLUE; GemType.BLUE]]> quiet_types.

Definition four_run_board : Board := sample_board four_run_types.

Definition four_run_ids : list string := ["cell-0-0"; "cell-0-1"; "cell-0-2"; "cell-0-3"].

(** The quiet board with the cell of slot (5, 0) cleared. *)
Definition hole_board : Board :=
  map (map (λ x, if bool_decide (row x = 5%Z ∧ col x = 0%Z)
                 then with_status MATCHED x else x))
    (sample_board quiet_types).

(** The quiet board with two wildcards side by side in row 3. *)
Definition rainbow_board : Board :=
  map (map (λ x, if bool_decide (row x = 3%Z ∧ (col x = 3%Z ∨ col x = 4%Z))
                 then mkCell (id x) (Some GemType.RAINBOW) RAINBOW (status x)
                        (row x) (col x) (visualRow x) (visualCol x) (isBonus x)
                 else x))
    (sample_board quiet_types).

(** The executable form of [coords_ok]. *)
Definition coords_okb (b : Board) : bool :=
  forallb (λ r,
    forallb (λ c,
      match cellAt b r c with
      | Some x => bool_decide (row x = Z.of_nat r ∧ col x = Z.of_nat c)
      | None => true
      end) (seq 0 GRID_COLS)) (seq 0 GRID_ROWS).

(** The slots of the two wildcards. *)
Definition rainbow_left : Position := mkPosition 3 3.
Definition rainbow_right : Position := mkPosition 3 4.

(** ** Tools and blasts *)

(** The slot [(r, c)] is within one step of the position [p], diagonals
    included. *)
Definition near (p : Position) (r c : nat) : Prop :=
  (Z.abs (Z.of_nat r - prow p) ≤ 1)%Z ∧ (Z.abs (Z.of_nat c - pcol p) ≤ 1)%Z.

(** The positions of the 3x3 window centred on [(r0, c0)], row by row, and
    the cells of the board found at the positions of a list that lie on the
    grid. *)
Definition window (r0 c0 : Z) : list (Z * Z) :=
  r ← seqZ (r0 - 1) 3; c ← seqZ (c0 - 1) 3; [(r, c)].

Definition cells_in (b : Board) (ps : list (Z * Z)) : list Cell :=
  omap (λ '(r, c), if in_grid r c then cellAtZ b r c else None) ps.

(** ** Board generation *)

(** A cell as [createInitialBoard] makes it for the slot [(r, c)]: at rest on
    its slot, of one of the allowed types, special only as a [RAINBOW]. *)
Definition initial_cell (allowedTypes : list GemType.t) (r c : nat) (x : Cell) : Prop :=
  row x = Z.of_nat r ∧ col x = Z.of_nat c ∧
  visualRow x = Z.of_nat r ∧ visualCol x = Z.of_nat c ∧
  status x = IDLE ∧ isBonus x = None ∧
  special x = special_of_type (type x) ∧
  ∃ t, type x = Some t ∧ t ∈ allowedTypes.

(** A generator is fair for [n] choices when, from every point of the stream
    on, one of the next [K] draws picks an index other than two given ones. *)
Definition fair (K n : nat) (g : Rng) : Prop :=
  ∀ m i1 i2, ∃ j, j < K ∧
    rand_index (g (m + j)) n ≠ i1 ∧ rand_index (g (m + j)) n ≠ i2.

(** ** Swaps *)

(** The board that [handleSwap] ends with. *)
Definition action_board (a : SwapAction) : Board :=
  match a with
  | Resolve activeBoard _ _ => activeBoard
  | Revert revertBoard => revertBoard
  end.

(** The slot [(r, c)] is the one at the position [p]. *)
Definition at_slot (p : Position) (r c : nat) : Prop :=
  prow p = Z.of_nat r ∧ pcol p = Z.of_nat c.

#[global] Instance at_slot_dec p r c : Decision (at_slot p r c).
Proof. unfold at_slot. apply _. Defined.

(** The cell is at rest at the position [p]. *)
Definition settled_at (p : Position) (x : Cell) : Prop :=
  row x = prow p ∧ col x = pcol p ∧
  visualRow x = prow p ∧ visualCol x = pcol p ∧ status x = IDLE.

(** ** Resolution *)

(** A board is stable when it has no run of three and no [MATCHED] cell:
    there is nothing to resolve. *)
Definition stable (b : Board) : Prop :=
  findMatches b = Ok [] ∧ ∀ r c x, cellAt b r c = Some x → status x ≠ MATCHED.

(** The cell [t] is in the blast of the special gem [cell]: its row for a
    [ROW_BLAST], its column for a [COL_BLAST], the slots within one step of
    it for an [AREA_BLAST].  (The targets of a [RAINBOW] are drawn at
    random.) *)
Definition blast_zone (b : Board) (cell t : Cell) : Prop :=
  match special cell with
  | ROW_BLAST => ∃ c, cellAtZ b (row cell) (Z.of_nat c) = Some t
  | COL_BLAST => ∃ r, cellAtZ b (Z.of_nat r) (col cell) = Some t
  | AREA_BLAST =>
      ∃ r c, cellAt b r c = Some t ∧ near (mkPosition (row cell) (col cell)) r c
  | _ => False
  end.

(** The blasts of the cells that carry the identifier [x] are within the
    set [M]. *)
Definition closed (b : Board) (M : list string) (x : string) : Prop :=
  ∀ cell t, on_board b cell → id cell = x → blast_zone b cell t → id t ∈ M.

(** The invariant of the expansion of the matched set, started from [M0]. *)
Definition expand_inv (b : Board) (M0 : list string) (st : ExpandState) : Prop :=
  let '(queue, M, P, _, _) := st in
  NoDup M ∧
  (∀ x, x ∈ M0 → x ∈ M) ∧
  (∀ x, x ∈ M → ∃ y, on_board b y ∧ id y = x) ∧
  (∀ x, x ∈ queue → x ∈ M) ∧
  (∀ x, x ∈ M → x ∈ queue ∨ closed b M x) ∧
  (∀ x, x ∈ P → closed b M x).

(** The variant of the expansion. *)
Definition expand_measure (b : Board) (st : ExpandState) : nat :=
  let '(queue, M, _, _, _) := st in unvisited b M + length queue.

(** ** Connected groups *)

(** [y] is reached from [x] through matched cells of one type, each in a slot
    next to the position of the one before. *)
Inductive linked (b : Board) (matchedIds : list string) : Cell → Cell → Prop :=
| linked_refl x : linked b matchedIds x x
| linked_step x y z :
    linked b matchedIds x y → adjacent_match b matchedIds y z → linked b matchedIds x z.

(** The logical positions of two cells are side by side. *)
Definition side_by_side (x y : Cell) : Prop :=
  (Z.abs (row x - row y) + Z.abs (col x - col y) = 1)%Z.

(** Every cell of the flood fill is linked to the seed, which comes first. *)
Definition reach_inv (b : Board) (matchedIds : list string) (seed : Cell)
    (st : BfsState) : Prop :=
  let '(queue, _, group) := st in
  head (group ++ queue) = Some seed ∧
  ∀ y, y ∈ group ++ queue → linked b matchedIds seed y.

(** ** More sample data *)

(** The board without any run. *)
Definition quiet_board : Board := sample_board quiet_types.

(** The slot above the left wildcard of [rainbow_board]. *)
Definition above_rainbow : Position := mkPosition 2 3.

(** The board with the two wildcards, the cell above the left one made a
    row blast gem. *)
Definition blast_board : Board :=
  map (map (λ x, if bool_decide (row x = 2%Z ∧ col x = 3%Z)
                 then mkCell (id x) (type x) ROW_BLAST (status x)
                        (row x) (col x) (visualRow x) (visualCol x) (isBonus x)
                 else x))
    rainbow_board.
(* ===================================================================== *)
(** * Part III.  Proofs                                                   *)
(* ===================================================================== *)

(** ** Loop rules *)

Lemma obind_Ok {A B} (m : outcome A) (k : A → outcome B) (b : B) :
  obind m k = Ok b ↔ ∃ a, m = Ok a ∧ k a = Ok b.
Proof.
  destruct m; simpl; split.
  - eauto.
  - by intros (a' & [= ->] & ?).
  - done.
  - by intros (? & ? & ?).
  - done.
  - by intros (? & ? & ?).
Qed.

(** Total correctness of a counting loop from an invariant. *)
Lemma for_up_spec {St} (I : nat → St → Prop) body n i (s : St) :
  I i s →
  (∀ k s, i ≤ k < i + n → I k s → ∃ s', body k s = Ok s' ∧ I (S k) s') →
  ∃ s', for_up n i body s = Ok s' ∧ I (i + n) s'.
Proof.
  revert i s. induction n as [|n IH]; intros i s Hi Hbody; simpl.
  - exists s. by rewrite Nat.add_0_r.
  - destruct (Hbody i s) as (s1 & -> & H1); [lia | done |]. simpl.
    destruct (IH (S i) s1) as (s2 & -> & H2); [done | |].
    + intros k s0 ? ?. apply Hbody; [lia | done].
    + exists s2. split; [done|]. by replace (i + S n) with (S i + n) by lia.
Qed.

(** Partial correctness: what a returned state satisfies. *)
Lemma for_up_inv {St} (I : nat → St → Prop) body n i (s s' : St) :
  for_up n i body s = Ok s' →
  I i s →
  (∀ k s s', i ≤ k < i + n → I k s → body k s = Ok s' → I (S k) s') →
  I (i + n) s'.
Proof.
  revert i s. induction n as [|n IH]; intros i s Hrun Hi Hbody; simpl in Hrun.
  - injection Hrun as <-. by rewrite Nat.add_0_r.
  - apply obind_Ok in Hrun as (s1 & H1 & Hrun).
    replace (i + S n) with (S i + n) by lia.
    eapply IH; [exact Hrun | eapply Hbody; eauto; lia |].
    intros k s0 s0' ? ? ?. eapply Hbody; eauto. lia.
Qed.

Lemma for_down_spec {St} (I : nat → St → Prop) body n (s : St) :
  I n s →
  (∀ k s, k < n → I (S k) s → ∃ s', body k s = Ok s' ∧ I k s') →
  ∃ s', for_down n body s = Ok s' ∧ I 0 s'.
Proof.
  revert s. induction n as [|n IH]; intros s Hi Hbody; simpl.
  - by exists s.
  - destruct (Hbody n s) as (s1 & -> & H1); [lia | done |]. simpl.
    apply IH; [done|]. intros k s0 ? ?. apply Hbody; [lia | done].
Qed.

Lemma for_each_spec {A St} (I : list A → St → Prop) body (xs : list A) (s : St) :
  I [] s →
  (∀ done_ x rest s, xs = done_ ++ x :: rest → I done_ s →
     ∃ s', body x s = Ok s' ∧ I (done_ ++ [x]) s') →
  ∃ s', for_each xs body s = Ok s' ∧ I xs s'.
Proof.
  intros H0 Hbody.
  cut (∀ pre suf s, xs = pre ++ suf → I pre s →
         ∃ s', for_each suf body s = Ok s' ∧ I (pre ++ suf) s').
  { intros H. by apply (H [] xs). }
  clear H0 s. intros pre suf. revert pre.
  induction suf as [|x suf IH]; intros pre s Hxs Hpre; simpl.
  - exists s. by rewrite app_nil_r.
  - destruct (Hbody pre x suf s Hxs Hpre) as (s1 & -> & H1). simpl.
    destruct (IH (pre ++ [x]) s1) as (s2 & -> & H2); [by rewrite <- app_assoc | done |].
    exists s2. by rewrite <- app_assoc in H2.
Qed.

(** Total correctness of a [while] from an invariant and a variant. *)
Lemma while_loop_spec {St} (I : St → Prop) (m : St → nat) cond body fuel (s : St) :
  I s → m s < fuel →
  (∀ s, I s → ∃ b, cond s = Ok b ∧
      (b = true → ∃ s', body s = Ok s' ∧ I s' ∧ m s' < m s)) →
  ∃ s', while_loop fuel cond body s = Ok s' ∧ I s' ∧ cond s' = Ok false.
Proof.
  intros Hi Hm Hstep. revert s Hi Hm.
  induction fuel as [|fuel IH]; intros s Hi Hm; [lia|]. simpl.
  destruct (Hstep s Hi) as (b & Hc & Hb). rewrite Hc. simpl.
  destruct b.
  - destruct Hb as (s1 & -> & H1 & Hlt); [done|]. simpl. apply IH; [done | lia].
  - by exists s.
Qed.

(** ** Sets *)

Section JsSetFacts.
Context {A : Type} `{EqDecision A}.
Implicit Types (s : list A) (x y : A).

Lemma set_has_true s x : set_has s x = true ↔ x ∈ s.
Proof. unfold set_has. apply bool_decide_eq_true. Qed.

Lemma set_has_false s x : set_has s x = false ↔ x ∉ s.
Proof. unfold set_has. apply bool_decide_eq_false. Qed.

Lemma elem_of_set_add x y s : y ∈ set_add x s ↔ y = x ∨ y ∈ s.
Proof.
  unfold set_add. destruct (set_has s x) eqn:E.
  - apply set_has_true in E. split; [auto|]. by intros [-> |?].
  - rewrite elem_of_app, list_elem_of_singleton. tauto.
Qed.

Lemma NoDup_set_add x s : NoDup s → NoDup (set_add x s).
Proof.
  intros Hs. unfold set_add. destruct (set_has s x) eqn:E; [done|].
  apply set_has_false in E. apply NoDup_app. split_and!; [done | | apply NoDup_singleton].
  intros y Hy Hy'. apply list_elem_of_singleton in Hy'. by subst.
Qed.

Lemma adds_none (Q : A → Prop) s : (∀ x, Q x → x ∈ s) → adds Q s s.
Proof. intros HQ. split; [done|]. intros x. split; [auto|]. intros [?|?]; auto. Qed.

Lemma adds_set_add x s : adds (λ y, y = x) s (set_add x s).
Proof.
  split; [apply NoDup_set_add|]. intros y. rewrite elem_of_set_add. tauto.
Qed.

Lemma adds_trans (Q1 Q2 : A → Prop) s s1 s2 :
  adds Q1 s s1 → adds Q2 s1 s2 → adds (λ x, Q1 x ∨ Q2 x) s s2.
Proof.
  intros [N1 H1] [N2 H2]. split; [auto|].
  intros x. rewrite H2, H1. tauto.
Qed.

Lemma adds_weaken (Q Q' : A → Prop) s s' :
  adds Q s s' → (∀ x, x ∈ s ∨ Q x ↔ x ∈ s ∨ Q' x) → adds Q' s s'.
Proof. intros [N1 H1] HQ. split; [done|]. intros x. by rewrite H1. Qed.

Lemma for_up_adds (Q : nat → A → Prop) body n i s :
  (∀ k s, i ≤ k < i + n → ∃ s', body k s = Ok s' ∧ adds (Q k) s s') →
  ∃ s', for_up n i body s = Ok s' ∧ adds (λ x, ∃ k, i ≤ k < i + n ∧ Q k x) s s'.
Proof.
  intros Hbody.
  apply (for_up_spec (λ k s', adds (λ x, ∃ j, i ≤ j < k ∧ Q j x) s s')).
  - apply adds_none. intros x (j & ? & _). lia.
  - intros k s1 Hk H1. destruct (Hbody k s1 Hk) as (s2 & -> & H2).
    exists s2. split; [done|].
    eapply adds_weaken; [exact (adds_trans _ _ _ _ _ H1 H2)|].
    intros x. split; (intros [?|HQ]; [by left|right]).
    + destruct HQ as [(j & ? & ?)|?]; [exists j | exists k]; split; (lia || done).
    + destruct HQ as (j & ? & ?). destruct (decide (j = k)) as [-> |]; [by right|].
      left. exists j. split; [lia | done].
Qed.
End JsSetFacts.

(** ** [findMatches] *)

Lemma board_shape_lookup b r c :
  board_shape b → r < GRID_ROWS → c < GRID_COLS → is_Some (cellAt b r c).
Proof.
  intros [Hr Hc] ? ?. unfold cellAt.
  destruct (lookup_lt_is_Some_2 b r) as [row_ Hrow]; [lia|]. rewrite Hrow. simpl.
  apply lookup_lt_is_Some_2.
  rewrite Forall_forall in Hc. rewrite (Hc row_); [done|].
  eapply list_elem_of_lookup_2. exact Hrow.
Qed.

Lemma cellAt_lt b r c x :
  board_shape b → cellAt b r c = Some x → r < GRID_ROWS ∧ c < GRID_COLS.
Proof.
  intros [Hr Hc] H. unfold cellAt in H.
  destruct (b !! r) as [row_|] eqn:Hrow; [|done]. simpl in H.
  split.
  - rewrite <- Hr. eapply lookup_lt_Some. exact Hrow.
  - rewrite Forall_forall in Hc. rewrite <- (Hc row_).
    + eapply lookup_lt_Some. exact H.
    + eapply list_elem_of_lookup_2. exact Hrow.
Qed.

Section Line.
(** A line of the board: a row or a column, read through [at_]. *)
Variable at_ : nat → option Cell.
Variable limit : nat.
Hypothesis line_defined : ∀ k, k < limit → is_Some (at_ k).

Local Abbreviation ltyped := (ltyped at_).
Local Abbreviation lmark := (lmark at_ limit).
Local Abbreviation marked_ids := (marked_ids at_ limit).

Lemma ltyped_inj k t t' : ltyped k t → ltyped k t' → t = t'.
Proof. intros (c & H1 & H2) (c' & H1' & H2'). congruence. Qed.

Lemma extend_run_spec t i ids :
  i + 3 ≤ limit →
  ∃ ids', extend_run at_ limit (Some t) (i + 3) ids = Ok ids' ∧
    adds (λ x, ∃ k cell, at_ k = Some cell ∧ id cell = x ∧
                 i + 3 ≤ k < limit ∧ ∀ j, i + 3 ≤ j ≤ k → ltyped j t) ids ids'.
Proof.
  intros Hi. unfold extend_run.
  set (cond := λ '(k, _), _). set (body := λ '(k, ids0), _).
  destruct (while_loop_spec
    (λ '(k, ids_k), i + 3 ≤ k ≤ limit ∧ (∀ j, i + 3 ≤ j < k → ltyped j t) ∧
       adds (λ x, ∃ j cell, at_ j = Some cell ∧ id cell = x ∧ i + 3 ≤ j < k) ids ids_k)
    (λ '(k, _), limit - k) cond body (S limit) (i + 3, ids))
    as ([k ids'] & -> & (Hk & Hty & Hadds) & Hexit).
  - split_and!; [lia | lia | intros; lia |].
    apply adds_none. intros x (j & ? & _ & _ & ?). lia.
  - lia.
  - intros [k ids_k] (Hk & Hty & Hadds). unfold cond, body.
    destruct (k <? limit) eqn:Hlt.
    + apply Nat.ltb_lt in Hlt. destruct (line_defined k Hlt) as [cell Hcell].
      rewrite Hcell. simpl. eexists. split; [done|].
      intros Heq. apply bool_decide_eq_true in Heq.
      eexists. split; [done|]. split_and!; [lia | lia | | | lia].
      * intros j Hj. destruct (decide (j = k)) as [-> |]; [by exists cell|].
        apply Hty. lia.
      * eapply adds_weaken; [exact (adds_trans _ _ _ _ _ Hadds (adds_set_add (id cell) _))|].
        intros x. split; (intros [?|HQ]; [by left|right]).
        -- destruct HQ as [(j & c' & ? & ? & ?)| ->].
           ++ exists j, c'. split_and!; (done || lia).
           ++ exists k, cell. split_and!; (done || lia).
        -- destruct HQ as (j & c' & Hj & Hid & ?).
           destruct (decide (j = k)) as [-> |].
           ++ right. congruence.
           ++ left. exists j, c'. split_and!; (done || lia).
    + eexists. split; [done|]. done.
  - simpl. eexists. split; [done|].
    eapply adds_weaken; [exact Hadds|].
    intros x. split; (intros [?|HQ]; [by left|right]).
    + destruct HQ as (j & c' & ? & ? & ?). exists j, c'.
      split_and!; [done | done | lia | lia |]. intros j' ?. apply Hty. lia.
    + destruct HQ as (j & c' & Hj & Hid & Hjk & Hall). exists j, c'.
      split_and!; [done | done | lia |].
      destruct (decide (j < k)) as [|Hge]; [done|]. exfalso.
      unfold cond in Hexit.
      destruct (k <? limit) eqn:Hlt; [|apply Nat.ltb_ge in Hlt; lia].
      destruct (Hall k) as (ck & Hck & Htk); [lia|].
      rewrite Hck in Hexit. simpl in Hexit.
      injection Hexit as Hexit. apply bool_decide_eq_false in Hexit. done.
Qed.

Lemma scan_at_spec i ids :
  i + 2 < limit →
  ∃ ids', scan_at at_ limit i ids = Ok ids' ∧ adds (marked_ids i) ids ids'.
Proof.
  intros Hi. unfold scan_at.
  destruct (line_defined i) as [c0 H0]; [lia|].
  destruct (line_defined (i + 1)) as [c1 H1]; [lia|].
  destruct (line_defined (i + 2)) as [c2 H2]; [lia|].
  rewrite H0. simpl.
  assert (Hnone : ∀ (P : Prop), (∀ t, ltyped i t → ltyped (i + 1) t → ltyped (i + 2) t → P) →
            ∀ x, marked_ids i x → P).
  { intros P HP x (k & c & _ & _ & _ & t & Ht). apply (HP t); apply Ht; lia. }
  case_bool_decide as Hd.
  2:{ eexists. split; [done|]. apply adds_none.
      intros x Hx. exfalso. revert x Hx. apply Hnone.
      intros t (c & Hc & Ht) _ _. congruence. }
  destruct (type c0) as [t|] eqn:Ht0; [|done].
  rewrite H1. simpl. case_bool_decide as Hd1.
  2:{ eexists. split; [done|]. apply adds_none.
      intros x Hx. exfalso. revert x Hx. apply Hnone.
      intros t' (c & Hc & Ht) (c' & Hc' & Ht') _. congruence. }
  rewrite H2. simpl. case_bool_decide as Hd2.
  2:{ eexists. split; [done|]. apply adds_none.
      intros x Hx. exfalso. revert x Hx. apply Hnone.
      intros t' (c & Hc & Ht) _ (c' & Hc' & Ht'). congruence. }
  destruct (extend_run_spec t i
     (set_add (id c2) (set_add (id c1) (set_add (id c0) ids)))) as (ids' & -> & Hadds); [lia|].
  exists ids'. split; [done|].
  pose proof (adds_trans _ _ _ _ _
    (adds_trans _ _ _ _ _
       (adds_trans _ _ _ _ _ (adds_set_add (id c0) ids) (adds_set_add (id c1) _))
       (adds_set_add (id c2) _)) Hadds) as Hall.
  eapply adds_weaken; [exact Hall|]. clear Hall Hadds.
  assert (Hfirst : ∀ j, i ≤ j ≤ i + 2 → ltyped j t).
  { intros j Hj. assert (j = i ∨ j = i + 1 ∨ j = i + 2) as Hcases by lia.
    destruct Hcases as [-> | [-> | ->]]; eexists; (split; [eassumption | congruence]). }
  intros x. split; (intros [?|HQ]; [by left|right]).
  - assert (Hmk : ∀ k, i ≤ k < limit → (∀ j, i + 3 ≤ j ≤ k → ltyped j t) → lmark i k).
    { intros k ? Hrun. split; [lia|]. exists t. intros j ?.
      destruct (decide (j ≤ i + 2)); [apply Hfirst; lia | apply Hrun; lia]. }
    destruct HQ as [[[-> | ->]| ->]|(k & c & Hk & Hid & ? & Hrun)].
    + exists i, c0. split; [done|]. split; [done|]. apply Hmk; [lia|]. intros; lia.
    + exists (i + 1), c1. split; [done|]. split; [done|]. apply Hmk; [lia|]. intros; lia.
    + exists (i + 2), c2. split; [done|]. split; [done|]. apply Hmk; [lia|]. intros; lia.
    + exists k, c. split; [done|]. split; [done|]. apply Hmk; [lia | done].
  - destruct HQ as (k & c & Hk & Hid & Hik & t' & Hrun).
    assert (t' = t) as ->.
    { apply (ltyped_inj i); [apply Hrun | apply Hfirst]; lia. }
    destruct (decide (k = i)) as [-> |]; [left; left; left; congruence|].
    destruct (decide (k = i + 1)) as [-> |]; [left; left; right; congruence|].
    destruct (decide (k = i + 2)) as [-> |]; [left; right; congruence|].
    right. exists k, c. split; [done|]. split; [done|]. split; [lia|].
    intros j ?. apply Hrun. lia.
Qed.
End Line.

(** [findMatches] is the scan of every row followed by the scan of every
    column. *)
Lemma findMatches_scans (board : Board) :
  findMatches board =
    let* matchedIds :=
      for_up GRID_ROWS 0 (λ r ids,
        for_up (GRID_COLS - 2) 0 (λ c ids,
          scan_at (λ k, cellAt board r k) GRID_COLS c ids) ids) [] in
    for_up GRID_COLS 0 (λ c ids,
      for_up (GRID_ROWS - 2) 0 (λ r ids,
        scan_at (λ k, cellAt board k c) GRID_ROWS r ids) ids) matchedIds.
Proof. reflexivity. Qed.

(** The two scans of [findMatches], as sets of marked identifiers. *)
Lemma findMatches_marks b :
  board_shape b →
  ∃ ids, findMatches b = Ok ids ∧ NoDup ids ∧
    ∀ x, x ∈ ids ↔
      (∃ r, r < GRID_ROWS ∧ ∃ c, c < GRID_COLS - 2 ∧
         marked_ids (λ k, cellAt b r k) GRID_COLS c x) ∨
      (∃ c, c < GRID_COLS ∧ ∃ r, r < GRID_ROWS - 2 ∧
         marked_ids (λ k, cellAt b k c) GRID_ROWS r x).
Proof.
  intros Hb. rewrite findMatches_scans.
  destruct (for_up_adds
    (λ r x, ∃ c, 0 ≤ c < 0 + (GRID_COLS - 2) ∧ marked_ids (λ k, cellAt b r k) GRID_COLS c x)
    (λ r ids, for_up (GRID_COLS - 2) 0
       (λ c ids, scan_at (λ k, cellAt b r k) GRID_COLS c ids) ids)
    GRID_ROWS 0 []) as (ids1 & -> & N1 & H1).
  { intros r s Hr. apply for_up_adds. intros c s' Hc.
    apply scan_at_spec.
    - intros k Hk. apply board_shape_lookup; [done | lia | done].
    - unfold GRID_COLS in *. lia. }
  unfold obind at 1.
  destruct (for_up_adds
    (λ c x, ∃ r, 0 ≤ r < 0 + (GRID_ROWS - 2) ∧ marked_ids (λ k, cellAt b k c) GRID_ROWS r x)
    (λ c ids, for_up (GRID_ROWS - 2) 0
       (λ r ids, scan_at (λ k, cellAt b k c) GRID_ROWS r ids) ids)
    GRID_COLS 0 ids1) as (ids2 & -> & N2 & H2).
  { intros c s Hc. apply for_up_adds. intros r s' Hr.
    apply scan_at_spec.
    - intros k Hk. apply board_shape_lookup; [done | done | lia].
    - unfold GRID_ROWS in *. lia. }
  exists ids2. split; [done|]. split; [apply N2, N1, NoDup_nil_2|].
  intros x. rewrite H2, H1. rewrite elem_of_nil.
  split.
  - intros [[[]|(r & ? & c & ? & ?)]|(c & ? & r & ? & ?)].
    + left. exists r. split; [lia|]. exists c. split; [lia | done].
    + right. exists c. split; [lia|]. exists r. split; [lia | done].
  - intros [(r & ? & c & ? & ?)|(c & ? & r & ? & ?)].
    + left. right. exists r. split; [lia|]. exists c. split; [lia | done].
    + right. exists c. split; [lia|]. exists r. split; [lia | done].
Qed.

Lemma hrun_marked b r c :
  board_shape b →
  (∃ c0 len t, hrun b r c0 len t ∧ c0 ≤ c < c0 + len) ↔
  (r < GRID_ROWS ∧ ∃ c0, c0 < GRID_COLS - 2 ∧ lmark (λ k, cellAt b r k) GRID_COLS c0 c).
Proof.
  intros Hb. split.
  - intros (c0 & len & t & [Hlen Hrun] & Hc).
    assert (Hin : ∀ k, c0 ≤ k < c0 + len → r < GRID_ROWS ∧ k < GRID_COLS).
    { intros k Hk. destruct (Hrun k Hk) as (cell & Hcell & _).
      eapply cellAt_lt; eauto. }
    split; [apply (Hin c0); lia|]. exists c0.
    split; [pose proof (Hin (c0 + 2)); lia|].
    split; [pose proof (Hin c); lia|]. exists t. intros j Hj. apply Hrun. lia.
  - intros (Hr & c0 & Hc0 & Hc & t & Hrun).
    exists c0, (S (c `max` (c0 + 2)) - c0), t. split; [|lia].
    split; [lia|]. intros k Hk. apply Hrun. lia.
Qed.

Lemma vrun_marked b r c :
  board_shape b →
  (∃ r0 len t, vrun b c r0 len t ∧ r0 ≤ r < r0 + len) ↔
  (c < GRID_COLS ∧ ∃ r0, r0 < GRID_ROWS - 2 ∧ lmark (λ k, cellAt b k c) GRID_ROWS r0 r).
Proof.
  intros Hb. split.
  - intros (r0 & len & t & [Hlen Hrun] & Hc).
    assert (Hin : ∀ k, r0 ≤ k < r0 + len → k < GRID_ROWS ∧ c < GRID_COLS).
    { intros k Hk. destruct (Hrun k Hk) as (cell & Hcell & _).
      eapply cellAt_lt; eauto. }
    split; [apply (Hin r0); lia|]. exists r0.
    split; [pose proof (Hin (r0 + 2)); lia|].
    split; [pose proof (Hin r); lia|]. exists t. intros j Hj. apply Hrun. lia.
  - intros (Hr & r0 & Hr0 & Hc & t & Hrun).
    exists r0, (S (r `max` (r0 + 2)) - r0), t. split; [|lia].
    split; [lia|]. intros k Hk. apply Hrun. lia.
Qed.

(** The matched set, in terms of runs: an identifier is in it exactly when a
    slot of some run carries it. *)
Lemma findMatches_runs b :
  board_shape b →
  ∃ ids, findMatches b = Ok ids ∧ NoDup ids ∧
    ∀ x, x ∈ ids ↔ ∃ r c cell, cellAt b r c = Some cell ∧ id cell = x ∧ in_run b r c.
Proof.
  intros Hb. destruct (findMatches_marks b Hb) as (ids & Hrun & Hnd & Hids).
  exists ids. split; [done|]. split; [done|].
  intros x. rewrite Hids. unfold in_run. split.
  - intros [(r & Hr & c0 & Hc0 & k & cell & Hcell & Hid & Hm)
           |(c & Hc & r0 & Hr0 & k & cell & Hcell & Hid & Hm)].
    + exists r, k, cell. split; [done|]. split; [done|]. left.
      apply hrun_marked; [done|]. eauto.
    + exists k, c, cell. split; [done|]. split; [done|]. right.
      apply vrun_marked; [done|]. eauto.
  - intros (r & c & cell & Hcell & Hid & [Hh|Hv]).
    + apply hrun_marked in Hh as (Hr & c0 & Hc0 & Hm); [|done].
      left. exists r. split; [done|]. exists c0. split; [done|]. by exists c, cell.
    + apply vrun_marked in Hv as (Hc & r0 & Hr0 & Hm); [|done].
      right. exists c. split; [done|]. exists r0. split; [done|]. by exists r, cell.
Qed.

(** C1.  On every board of [GRID_ROWS] rows of [GRID_COLS] cells,
    [findMatches] returns a set of identifiers (a list without duplicates)
    that holds exactly the identifiers of the cells lying in a horizontal or
    vertical run of three or more cells of one defined type.  Every cell of
    every such run is in the set, whatever the length of the run; and, the
    identifiers of the board being unique, no cell outside every run is. *)
Theorem findMatches_exact (b : Board) :
  board_shape b →
  ∃ ids, findMatches b = Ok ids ∧ NoDup ids ∧
    (∀ x, x ∈ ids ↔ ∃ r c cell, cellAt b r c = Some cell ∧ id cell = x ∧ in_run b r c) ∧
    (∀ r c cell, cellAt b r c = Some cell → in_run b r c → id cell ∈ ids) ∧
    (unique_ids b → ∀ r c cell, cellAt b r c = Some cell → id cell ∈ ids → in_run b r c).
Proof.
  intros Hb. destruct (findMatches_runs b Hb) as (ids & Hrun & Hnd & Hids).
  exists ids. split_and!; [done | done | done | |].
  - intros r c cell Hcell Hin. apply Hids. by exists r, c, cell.
  - intros Hu r c cell Hcell Hin. apply Hids in Hin as (r' & c' & cell' & Hcell' & Hid & Hin).
    destruct (Hu _ _ _ _ _ _ Hcell' Hcell Hid) as [-> ->]. done.
Qed.

(** ** [applyGravity] *)

Lemma column_lookup b c r :
  board_shape b → c < GRID_COLS → column b c !! r = cellAt b r c.
Proof.
  intros [_ Hc] Hlt. unfold column, cellAt. revert r.
  induction Hc as [|row_ b Hrow Hb IH]; intros r; [done|].
  destruct (lookup_lt_is_Some_2 row_ c) as [x Hx]; [lia|].
  simpl. rewrite Hx. destruct r as [|r]; simpl; [done|]. apply IH.
Qed.

Lemma column_length b c :
  board_shape b → c < GRID_COLS → length (column b c) = GRID_ROWS.
Proof.
  intros [Hr Hc] Hlt. rewrite <- Hr. unfold column. clear Hr.
  induction Hc as [|row_ b Hrow Hb IH]; [done|].
  destruct (lookup_lt_is_Some_2 row_ c) as [x Hx]; [lia|].
  simpl. rewrite Hx. simpl. f_equal. exact IH.
Qed.

Lemma setCell_spec b r c v :
  board_shape b → r < GRID_ROWS → c < GRID_COLS →
  ∃ b', setCell b r c v = Ok b' ∧ board_shape b' ∧
    column b' c = <[r := v]> (column b c) ∧
    ∀ c', c' ≠ c → c' < GRID_COLS → column b' c' = column b c'.
Proof.
  intros Hb Hr Hc. unfold setCell.
  destruct Hb as [Hlen Hall].
  destruct (lookup_lt_is_Some_2 b r) as [row_ Hrow]; [lia|].
  rewrite Hrow. simpl. eexists. split; [done|].
  assert (Hb' : board_shape (<[r := <[c := v]> row_]> b)).
  { split; [by rewrite length_insert|].
    apply Forall_insert; [done|]. rewrite length_insert.
    rewrite Forall_forall in Hall. apply Hall. eapply list_elem_of_lookup_2. exact Hrow. }
  split; [done|].
  assert (Hcell : ∀ r' c', cellAt (<[r := <[c := v]> row_]> b) r' c' =
            if decide (r' = r ∧ c' = c) then Some v else cellAt b r' c').
  { intros r' c'. unfold cellAt.
    destruct (decide (r' = r)) as [-> |Hne].
    - rewrite list_lookup_insert_eq by lia. rewrite Hrow. simpl.
      destruct (decide (c' = c)) as [-> |Hne'].
      + rewrite list_lookup_insert_eq; [by rewrite decide_True|].
        rewrite Forall_forall in Hall. rewrite (Hall row_); [done|].
        eapply list_elem_of_lookup_2. exact Hrow.
      + rewrite list_lookup_insert_ne by done. rewrite decide_False; [done|]. tauto.
    - rewrite list_lookup_insert_ne by done. rewrite decide_False; [done|]. tauto. }
  split.
  - apply list_eq. intros i. rewrite column_lookup by done. rewrite Hcell.
    destruct (decide (i = r)) as [-> |Hne].
    + rewrite decide_True by done. rewrite list_lookup_insert_eq; [done|].
      rewrite column_length; done.
    + rewrite decide_False by tauto. rewrite list_lookup_insert_ne by done.
      by rewrite column_lookup.
  - intros c' Hne Hc'. apply list_eq. intros i.
    rewrite !column_lookup by done. rewrite Hcell. rewrite decide_False; [done|]. tauto.
Qed.

Lemma drop_insert_eq {A} (l : list A) n v :
  n < length l → drop n (<[n := v]> l) = v :: drop (S n) l.
Proof.
  intros Hn. rewrite (drop_S _ v n) by (by apply list_lookup_insert_eq).
  f_equal. apply drop_insert_lt. lia.
Qed.

Lemma filter_occupied_short (l : list Cell) :
  length (filter occupied l) < length l ↔ ∃ x, x ∈ l ∧ is_vacant (status x) = true.
Proof.
  induction l as [|y l IH]; simpl.
  - split; [lia|]. intros (x & Hx & _). by apply elem_of_nil in Hx.
  - pose proof (length_filter occupied l) as Hle.
    rewrite filter_cons. destruct (decide (occupied y)) as [Hy|Hy]; simpl.
    + rewrite <- Nat.succ_lt_mono, IH. split.
      * intros (x & ? & ?). exists x. split; [by right | done].
      * intros (x & Hx & Hv). apply elem_of_cons in Hx as [-> |Hx]; [|by exists x].
        unfold occupied in Hy. congruence.
    + split; [|lia]. intros _. exists y. split; [by left|].
      unfold occupied in Hy. by destruct (is_vacant (status y)).
Qed.

Section Column.
Variable allowedTypes : list GemType.t.
Variable c : nat.
Hypothesis c_lt : c < GRID_COLS.
Variable nb : Board.
Hypothesis nb_shape : board_shape nb.

Local Abbreviation drop_inv := (drop_inv c nb).

Lemma drop_step_inv mv0 k st :
  k < GRID_ROWS → drop_inv mv0 (S k) st →
  ∃ st', drop_step c k st = Ok st' ∧ drop_inv mv0 k st'.
Proof.
  intros Hk. destruct st as [[[e cur] mv] g].
  intros (Hshape & Hother & Htake & He & Hsurv & Hmv1 & Hmv2).
  pose proof (column_length nb c nb_shape c_lt) as Hlen0.
  pose proof (column_length cur c Hshape c_lt) as Hlen.
  destruct (lookup_lt_is_Some_2 (column nb c) k) as [x Hx]; [lia|].
  assert (Hcur : cellAt cur k c = Some x).
  { rewrite <- column_lookup by done.
    rewrite <- (lookup_take_lt _ (S k) k) by lia. rewrite Htake.
    by rewrite lookup_take_lt by lia. }
  assert (Htake' : take k (column cur c) = take k (column nb c)).
  { apply (f_equal (take k)) in Htake. rewrite !take_take in Htake.
    by rewrite Nat.min_l in Htake by lia. }
  assert (Hdrop : filter occupied (drop k (column nb c)) =
            if decide (occupied x) then x :: filter occupied (drop (S k) (column nb c))
            else filter occupied (drop (S k) (column nb c))).
  { by rewrite (drop_S _ x k Hx), filter_cons. }
  unfold drop_step. rewrite Hcur. simpl.
  destruct (is_vacant (status x)) eqn:Hvac.
  - destruct (setCell_spec cur k c (with_status EMPTY x) Hshape Hk c_lt)
      as (cur' & -> & Hshape' & Hcol & Hoth).
    simpl. eexists. split; [done|]. unfold drop_inv. rewrite Hdrop.
    rewrite decide_False by (unfold occupied; congruence).
    split_and!; [done | | | lia | | done | intros; right; lia].
    + intros c' ? ?. rewrite Hoth by done. by apply Hother.
    + rewrite Hcol. by rewrite take_insert_ge by lia.
    + rewrite Hcol. rewrite drop_insert_lt by lia.
      by replace (k + (e + 1)) with (S k + e) by lia.
  - rewrite decide_True in Hdrop by done.
    destruct (0 <? e) eqn:He0.
    + apply Nat.ltb_lt in He0.
      destruct (setCell_spec cur (k + e) c
        (mkCell (id x) (type x) (special x) DROPPING (Z.of_nat (k + e)) (col x)
           (Z.of_nat k) (visualCol x) (isBonus x)) Hshape) as (cur1 & -> & Hshape1 & Hcol1 & Hoth1);
        [lia | done |].
      simpl. destruct (random g) as [d g'].
      match goal with |- context [setCell cur1 k c ?v] =>
        destruct (setCell_spec cur1 k c v Hshape1 Hk c_lt) as (cur2 & -> & Hshape2 & Hcol2 & Hoth2)
      end.
      simpl. eexists. split; [done|]. unfold drop_inv. rewrite Hdrop.
      split_and!; [done | | | simpl; lia | | done | by right].
      * intros c' ? ?. rewrite Hoth2, Hoth1 by done. by apply Hother.
      * rewrite Hcol2, Hcol1. by rewrite !take_insert_ge by lia.
      * rewrite Hcol2, Hcol1. rewrite drop_insert_lt by lia.
        rewrite drop_insert_eq by lia.
        constructor; [done|]. by replace (S (k + e)) with (S k + e) by lia.
    + apply Nat.ltb_ge in He0. assert (e = 0) as -> by lia.
      eexists. split; [done|]. unfold drop_inv. rewrite Hdrop.
      split_and!; [done | done | done | simpl; lia | | done | done].
      rewrite Nat.add_0_r in *.
      rewrite (drop_S _ x k) by (by rewrite column_lookup).
      constructor; [done|]. done.
Qed.

Local Abbreviation fill_inv := (fill_inv c).

Lemma fill_step_inv e cur mv0 r st :
  r < e → e ≤ GRID_ROWS → fill_inv e cur mv0 r st →
  ∃ st', fill_step allowedTypes e c r st = Ok st' ∧ fill_inv e cur mv0 (S r) st'.
Proof.
  intros Hr He. destruct st as [[cur' mv] g].
  intros (Hshape & Hother & Hdrop & Hfresh & Hmv).
  pose proof (column_length cur' c Hshape c_lt) as Hlen.
  unfold fill_step. destruct (random g) as [d g1]. destruct (random g1) as [d' g2].
  match goal with |- context [setCell cur' r c ?v] =>
    destruct (setCell_spec cur' r c v Hshape) as (cur2 & -> & Hshape2 & Hcol2 & Hoth2);
      [lia | done |]
  end.
  simpl. eexists. split; [done|].
  split_and!; [done | | | | ].
  - intros c' ? ?. rewrite Hoth2 by done. by apply Hother.
  - rewrite Hcol2. by rewrite drop_insert_lt by lia.
  - rewrite Hcol2. erewrite take_S_r by (apply list_lookup_insert_eq; lia).
    rewrite take_insert_ge by lia. apply Forall_app. split; [done|].
    by constructor.
  - split; [intros; right; lia | done].
Qed.

Lemma gravity_column_spec mv0 g :
  ∃ out mv g', gravity_column allowedTypes c (nb, mv0, g) = Ok (out, mv, g') ∧
    board_shape out ∧
    (∀ c', c' ≠ c → c' < GRID_COLS → column out c' = column nb c') ∧
    gravity_post (column nb c) (column out c) ∧
    (mv = true ↔ mv0 = true ∨
       length (filter occupied (column nb c)) < length (column nb c)).
Proof.
  pose proof (column_length nb c nb_shape c_lt) as Hlen0.
  unfold gravity_column.
  destruct (for_down_spec (drop_inv mv0) (drop_step c) GRID_ROWS (0, nb, mv0, g))
    as ([[[e cur] mv] g1] & -> & Hshape & Hother & _ & He & Hsurv & Hmv1 & Hmv2).
  { split_and!; [done | done | done | | | done | by left].
    - rewrite drop_ge by lia. simpl. lia.
    - rewrite drop_ge by lia. rewrite drop_ge by (rewrite column_length; [lia | done..]).
      constructor. }
  { intros k st Hk. by apply drop_step_inv. }
  unfold obind at 1. rewrite drop_0 in He, Hsurv. simpl in Hsurv.
  destruct (for_up_spec (fill_inv e cur mv) (fill_step allowedTypes e c) e 0 (cur, mv, g1))
    as ([[out mv'] g2] & -> & Hshape' & Hother' & Hdrop & Hfresh & Hmv').
  { split_and!; [done | done | done | by rewrite take_0 | ]. split; [by left|].
    intros [?|?]; [done | lia]. }
  { intros k st Hk. apply fill_step_inv; lia. }
  exists out, mv', g2. split; [done|]. split; [done|].
  pose proof (column_length out c Hshape' c_lt) as Hlen.
  split_and!.
  - intros c' ? ?. rewrite Hother' by done. by apply Hother.
  - exists (take e (column out c)), (drop e (column out c)).
    split_and!; [by rewrite take_drop | | done | by rewrite Hdrop].
    rewrite length_take. lia.
  - rewrite Hmv'. simpl. split.
    + intros [Hm|?]; [|right; lia].
      destruct (Hmv2 Hm); [by left | right; lia].
    + intros [?|?]; [left; auto | right; lia].
Qed.
End Column.

Lemma board_copy (b : Board) : map (map (λ cell : Cell, cell)) b = b.
Proof.
  induction b as [|row_ b IH]; [done|]. simpl. rewrite IH. f_equal.
  induction row_ as [|x row_ IHr]; [done|]. simpl. by rewrite IHr.
Qed.

(** The whole of [applyGravity], column by column. *)
Lemma applyGravity_spec (b : Board) (allowedTypes : list GemType.t) (g : Rng) :
  board_shape b →
  ∃ res g', applyGravity b allowedTypes g = Ok (res, g') ∧
    board_shape (newBoard res) ∧
    (∀ c, c < GRID_COLS → gravity_post (column b c) (column (newBoard res) c)) ∧
    (movesDetected res = true ↔
       ∃ c, c < GRID_COLS ∧ length (filter occupied (column b c)) < length (column b c)).
Proof.
  intros Hb. unfold applyGravity. rewrite board_copy.
  destruct (for_up_spec
    (λ c '(cur, mv, g),
       board_shape cur ∧
       (∀ c', c' < c → gravity_post (column b c') (column cur c')) ∧
       (∀ c', c ≤ c' < GRID_COLS → column cur c' = column b c') ∧
       (mv = true ↔
          ∃ c', c' < c ∧ length (filter occupied (column b c')) < length (column b c')))
    (gravity_column allowedTypes) GRID_COLS 0 (b, false, g))
    as ([[out mv] g'] & -> & Hshape & Hpost & _ & Hmv).
  - split_and!; [done | intros; lia | done |].
    split; [done|]. intros (c' & ? & _). lia.
  - intros c [[cur mv] g1] Hc (Hshape & Hdone & Htodo & Hmv).
    destruct (gravity_column_spec allowedTypes c ltac:(lia) cur Hshape mv g1)
      as (out & mv' & g2 & -> & Hshape' & Hother & Hpost & Hmv').
    eexists. split; [done|]. split_and!; [done | | | ].
    + intros c' Hc'. destruct (decide (c' = c)) as [-> |Hne].
      * rewrite <- (Htodo c) at 1 by lia. done.
      * rewrite Hother by (done || lia). apply Hdone. lia.
    + intros c' Hc'. rewrite Hother by lia. apply Htodo. lia.
    + rewrite Hmv', Hmv, (Htodo c) by lia. split.
      * intros [(c' & ? & ?)|?]; [exists c' | exists c]; split; (done || lia).
      * intros (c' & ? & ?). destruct (decide (c' = c)) as [-> |]; [by right|].
        left. exists c'. split; [lia | done].
  - simpl. eexists _, _. split; [done|]. simpl.
    split_and!; [done | | ].
    + intros c Hc. apply Hpost. lia.
    + rewrite Hmv. split; intros (c & ? & ?); exists c; split; (done || lia).
Qed.

Lemma gravity_post_occupied inp out x :
  gravity_post inp out → x ∈ out → status x ≠ MATCHED ∧ status x ≠ EMPTY.
Proof.
  intros (fresh & surv & -> & _ & Hfresh & Hsurv) Hx.
  apply elem_of_app in Hx as [Hx|Hx].
  - rewrite Forall_forall in Hfresh. rewrite (Hfresh x Hx). done.
  - assert (Hocc : Forall occupied surv).
    { clear Hx. induction Hsurv as [|? ? ? ? Hst _ IH]; constructor; [|done].
      apply Hst. }
    rewrite Forall_forall in Hocc. specialize (Hocc x Hx).
    unfold occupied, is_vacant in Hocc. apply orb_false_iff in Hocc as [H1 H2].
    apply bool_decide_eq_false in H1, H2. done.
Qed.

(** C10.  On every board, the board returned by [applyGravity] has the same
    shape and holds no cell of status [MATCHED] or [EMPTY], and the flag
    [movesDetected] is true if and only if the input board held a cell of
    status [MATCHED] or [EMPTY]. *)
Theorem applyGravity_fills_board (b : Board) (allowedTypes : list GemType.t) (g : Rng) :
  board_shape b →
  ∃ res g', applyGravity b allowedTypes g = Ok (res, g') ∧
    board_shape (newBoard res) ∧
    (∀ r c x, cellAt (newBoard res) r c = Some x →
       status x ≠ MATCHED ∧ status x ≠ EMPTY) ∧
    (movesDetected res = true ↔
       ∃ r c x, cellAt b r c = Some x ∧ (status x = MATCHED ∨ status x = EMPTY)).
Proof.
  intros Hb. destruct (applyGravity_spec b allowedTypes g Hb)
    as (res & g' & Hrun & Hshape & Hpost & Hmv).
  exists res, g'. split_and!; [done | done | |].
  - intros r c x Hx. destruct (cellAt_lt _ _ _ _ Hshape Hx) as [Hr Hc].
    apply (gravity_post_occupied _ _ _ (Hpost c Hc)).
    rewrite <- column_lookup in Hx by done. by eapply list_elem_of_lookup_2.
  - rewrite Hmv. split.
    + intros (c & Hc & Hlt). apply filter_occupied_short in Hlt as (x & Hx & Hv).
      apply list_elem_of_lookup_1 in Hx as [r Hr]. rewrite column_lookup in Hr by done.
      exists r, c, x. split; [done|]. unfold is_vacant in Hv.
      apply orb_true_iff in Hv as [Hv|Hv]; apply bool_decide_eq_true in Hv; auto.
    + intros (r & c & x & Hx & Hv). destruct (cellAt_lt _ _ _ _ Hb Hx) as [Hr Hc].
      exists c. split; [done|]. apply filter_occupied_short. exists x. split.
      * rewrite <- column_lookup in Hx by done. by eapply list_elem_of_lookup_2.
      * unfold is_vacant. destruct Hv as [-> | ->]; done.
Qed.

(** C2, amended.  On every board, [applyGravity] keeps the occupied cells of
    every column (status neither [MATCHED] nor [EMPTY]) in that column, all of
    them and in their order from the top down, at the bottom of the column;
    above them it puts as many fresh [DROPPING] cells as the column had
    vacant slots.  The number of surviving cells is unchanged; the number of
    occupied cells of the column becomes [GRID_ROWS]. *)
Theorem applyGravity_keeps_survivors (b : Board) (allowedTypes : list GemType.t) (g : Rng) :
  board_shape b →
  ∃ res g', applyGravity b allowedTypes g = Ok (res, g') ∧
    ∀ c, c < GRID_COLS →
      ∃ fresh surv,
        column (newBoard res) c = fresh ++ surv ∧
        length fresh = GRID_ROWS - length (filter occupied (column b c)) ∧
        Forall (λ x, status x = DROPPING) fresh ∧
        length surv = length (filter occupied (column b c)) ∧
        Forall2 same_token (filter occupied (column b c)) surv ∧
        (∀ i x, filter occupied (column b c) !! i = Some x →
           ∃ y, column (newBoard res) c !! (length fresh + i) = Some y ∧ same_token x y) ∧
        length (filter occupied (column (newBoard res) c)) = GRID_ROWS.
Proof.
  intros Hb. destruct (applyGravity_spec b allowedTypes g Hb)
    as (res & g' & Hrun & Hshape & Hpost & _).
  exists res, g'. split; [done|]. intros c Hc.
  destruct (Hpost c Hc) as (fresh & surv & Hcol & Hlen & Hfresh & Hsurv).
  exists fresh, surv. rewrite (column_length b c Hb Hc) in Hlen.
  split_and!; [done | done | done | | done | |].
  - symmetry. by eapply Forall2_length.
  - intros i x Hx. destruct (Forall2_lookup_l _ _ _ _ _ Hsurv Hx) as (y & Hy & Hxy).
    exists y. split; [|done]. rewrite Hcol, lookup_app_r by lia.
    by replace (length fresh + i - length fresh) with i by lia.
  - rewrite <- (column_length (newBoard res) c Hshape Hc). f_equal.
    assert (Hocc : Forall occupied (column (newBoard res) c)).
    { rewrite Hcol. apply Forall_app. split.
      - eapply Forall_impl; [exact Hfresh|]. intros x Hx. unfold occupied. by rewrite Hx.
      - clear -Hsurv. induction Hsurv as [|? ? ? ? Hst _ IH]; constructor; [apply Hst | done]. }
    clear -Hocc. induction Hocc as [|x l Hx _ IH]; [done|].
    rewrite filter_cons, decide_True by done. by rewrite IH.
Qed.

(** C2, the claim as stated fails: column 0 of the board with slot (5, 0)
    cleared has seven occupied cells before gravity and eight after it. *)
Lemma applyGravity_changes_occupied_count :
  ∃ res g', applyGravity hole_board initial_types initial_rng = Ok (res, g') ∧
    length (filter occupied (column hole_board 0)) = 7 ∧
    length (filter occupied (column (newBoard res) 0)) = 8.
Proof.
  eexists _, _. split; [vm_compute; reflexivity|]. split; vm_compute; reflexivity.
Qed.

(** ** [classifyMatchGroup] *)

Section SetOf.
Context {A : Type} `{EqDecision A}.
Implicit Types (l s : list A).

Lemma elem_of_foldl_set_add l s x :
  x ∈ foldl (λ s y, set_add y s) s l ↔ x ∈ s ∨ x ∈ l.
Proof.
  revert s. induction l as [|y l IH]; intros s; simpl.
  - rewrite elem_of_nil. tauto.
  - rewrite IH, elem_of_set_add, elem_of_cons. tauto.
Qed.

Lemma NoDup_foldl_set_add l s :
  NoDup s → NoDup (foldl (λ s y, set_add y s) s l).
Proof.
  revert s. induction l as [|y l IH]; intros s Hs; simpl; [done|].
  apply IH. by apply NoDup_set_add.
Qed.

Lemma elem_of_set_of l x : x ∈ set_of l ↔ x ∈ l.
Proof. unfold set_of. rewrite elem_of_foldl_set_add, elem_of_nil. tauto. Qed.

Lemma NoDup_set_of l : NoDup (set_of l).
Proof. apply NoDup_foldl_set_add. constructor. Qed.

(** A set has one element exactly when the list it was built from is not
    empty and holds one value only. *)
Lemma set_size_one l :
  set_size (set_of l) = 1 ↔ l ≠ [] ∧ ∃ v, ∀ x, x ∈ l → x = v.
Proof.
  unfold set_size. pose proof (NoDup_set_of l) as Hnd.
  pose proof (elem_of_set_of l) as Hel. split.
  - intros Hlen. destruct (set_of l) as [|v [|w s]] eqn:E; try done.
    split.
    + intros ->. by vm_compute in E.
    + exists v. intros x Hx. apply Hel in Hx. by apply list_elem_of_singleton in Hx.
  - intros [Hne (v & Hv)]. destruct (set_of l) as [|a [|a' s]] eqn:E.
    + destruct l as [|y l]; [done|]. exfalso.
      apply (not_elem_of_nil y). apply Hel. by left.
    + done.
    + exfalso. assert (a = v) as -> by (apply Hv, Hel; by left).
      assert (a' = v) as -> by (apply Hv, Hel; right; by left).
      apply NoDup_cons in Hnd as [Hnin _]. apply Hnin. by left.
Qed.
End SetOf.

Lemma rows_size_one (group : list Cell) :
  set_size (set_of (map row group)) = 1 ↔ group ≠ [] ∧ share_row group.
Proof.
  rewrite set_size_one. split.
  - intros [Hne (v & Hv)]. split; [by destruct group|].
    exists v. intros x Hx. apply Hv. apply list_elem_of_fmap. by exists x.
  - intros [Hne (v & Hv)]. split; [by destruct group|].
    exists v. intros x Hx. apply list_elem_of_fmap in Hx as (y & -> & Hy). by apply Hv.
Qed.

Lemma cols_size_one (group : list Cell) :
  set_size (set_of (map col group)) = 1 ↔ group ≠ [] ∧ share_col group.
Proof.
  rewrite set_size_one. split.
  - intros [Hne (v & Hv)]. split; [by destruct group|].
    exists v. intros x Hx. apply Hv. apply list_elem_of_fmap. by exists x.
  - intros [Hne (v & Hv)]. split; [by destruct group|].
    exists v. intros x Hx. apply list_elem_of_fmap in Hx as (y & -> & Hy). by apply Hv.
Qed.

(** The classification by size and shape, with the tests in the order in
    which [classifyMatchGroup] makes them. *)
Lemma classifyMatchGroup_spec (group : list Cell) :
  (length group < 4 → classifyMatchGroup group = NONE) ∧
  (length group = 4 → share_row group → classifyMatchGroup group = COL_BLAST) ∧
  (length group = 4 → share_col group → ¬ share_row group →
     classifyMatchGroup group = ROW_BLAST) ∧
  (length group = 4 → ¬ share_row group → ¬ share_col group →
     classifyMatchGroup group = NONE) ∧
  (5 ≤ length group → share_row group ∨ share_col group →
     classifyMatchGroup group = RAINBOW) ∧
  (5 ≤ length group → ¬ share_row group → ¬ share_col group →
     classifyMatchGroup group = AREA_BLAST).
Proof.
  assert (Hne : 4 ≤ length group → group ≠ []) by (intros ? ->; simpl in *; lia).
  pose proof (rows_size_one group) as Hrows.
  pose proof (cols_size_one group) as Hcols.
  unfold classifyMatchGroup.
  destruct (set_size (set_of (map row group)) =? 1) eqn:Er;
    [apply Nat.eqb_eq in Er | apply Nat.eqb_neq in Er];
  (destruct (set_size (set_of (map col group)) =? 1) eqn:Ec;
    [apply Nat.eqb_eq in Ec | apply Nat.eqb_neq in Ec]);
  (destruct (length group <? 4) eqn:E4;
    [apply Nat.ltb_lt in E4 | apply Nat.ltb_ge in E4]);
  (destruct (5 <=? length group) eqn:E5;
    [apply Nat.leb_le in E5 | apply Nat.leb_gt in E5]);
  simpl; split_and!; intros; try done; try lia; exfalso; tauto.
Qed.



(** ** The choice of the special gem *)

Lemma find_Some_first {A} (f : A → bool) (l : list A) x :
  find f l = Some x → x ∈ l ∧ f x = true.
Proof.
  induction l as [|y l IH]; simpl; [done|].
  destruct (f y) eqn:E.
  - intros [= ->]. split; [by left | done].
  - intros H. destruct (IH H). split; [by right | done].
Qed.

Lemma find_None_all {A} (f : A → bool) (l : list A) :
  find f l = None ↔ ∀ x, x ∈ l → f x = false.
Proof.
  induction l as [|y l IH]; simpl.
  - split; [|done]. intros _ x Hx. by apply elem_of_nil in Hx.
  - destruct (f y) eqn:E.
    + split; [done|]. intros H. rewrite H in E; [done | by left].
    + rewrite IH. split.
      * intros H x Hx. apply elem_of_cons in Hx as [-> |Hx]; auto.
      * intros H x Hx. apply H. by right.
Qed.



(** ** [createInitialBoard] on the empty set *)

Lemma do_while_exit {St} fuel body cond (s s' : St) :
  do_while fuel body cond s = Ok s' → cond s' = Ok false.
Proof.
  revert s. induction fuel as [|fuel IH]; intros s; simpl; [done|].
  intros H. apply obind_Ok in H as (s1 & H1 & H).
  apply obind_Ok in H as (b & Hb & H). destruct b.
  - by eapply IH.
  - by injection H as <-.
Qed.

Lemma do_while_S {St} fuel body cond (s : St) :
  do_while (S fuel) body cond s =
    obind (body s) (λ s', obind (cond s') (λ b : bool,
      if b then do_while fuel body cond s' else Ok s')).
Proof. done. Qed.

(** With no allowed type every draw is [undefined], and from the third cell
    of the first row on the two cells to the left are [undefined] as well:
    the condition of the [do ... while] holds at every turn. *)
Lemma completes_run_undefined board row_ r c x1 x2 :
  2 ≤ c → row_ !! (c - 1) = Some x1 → row_ !! (c - 2) = Some x2 →
  type x1 = None → type x2 = None →
  completes_run board row_ r c None = Ok true.
Proof.
  intros Hc H1 H2 T1 T2. unfold completes_run.
  destruct (2 <=? c) eqn:E; [|apply Nat.leb_gt in E; lia].
  rewrite H1. cbn [defined obind]. rewrite T1, bool_decide_eq_true_2 by done.
  rewrite H2. cbn [defined obind]. rewrite T2, bool_decide_eq_true_2 by done.
  done.
Qed.

Lemma pick_type_empty_stuck fuel board row_ r c g x1 x2 :
  2 ≤ c → row_ !! (c - 1) = Some x1 → row_ !! (c - 2) = Some x2 →
  type x1 = None → type x2 = None →
  pick_type fuel [] board row_ r c g = OutOfFuel.
Proof.
  intros Hc H1 H2 T1 T2. unfold pick_type.
  generalize (@None GemType.t) at 1. intros ty0. revert ty0 g.
  induction fuel as [|fuel IH]; intros ty0 g; [done|].
  rewrite do_while_S. cbn [obind random length lookup list_lookup].
  rewrite lookup_nil.
  cbn [obind].
  rewrite (completes_run_undefined board row_ r c x1 x2) by done.
  cbn [obind]. apply IH.
Qed.

(** The first two cells of the first row are accepted at once. *)
Lemma pick_type_first_cells fuel allowedTypes row_ c g :
  c < 2 →
  pick_type (S fuel) allowedTypes [] row_ 0 c g =
    Ok (allowedTypes !! rand_index (g 0) (length allowedTypes), λ n, g (S n)).
Proof.
  intros Hc. unfold pick_type. rewrite do_while_S. cbn [obind random].
  unfold completes_run.
  destruct (2 <=? c) eqn:E; [apply Nat.leb_le in E; lia|]. done.
Qed.

(** On the empty set the construction is stuck in the [do ... while] of the
    third cell, whatever the fuel. *)
Lemma createInitialBoard_empty_stuck (fuel : nat) (g : Rng) :
  createInitialBoard fuel [] g = OutOfFuel.
Proof.
  unfold createInitialBoard, GRID_ROWS, GRID_COLS.
  destruct fuel as [|fuel]; [done|].
  cbn [for_up obind].
  rewrite pick_type_first_cells by lia. cbn [obind random app].
  rewrite pick_type_first_cells by lia. cbn [obind random app].
  erewrite pick_type_empty_stuck; [done | lia | done | done | |].
  - apply lookup_nil.
  - apply lookup_nil.
Qed.

(** C6, amended.  [createInitialBoard] does not check its argument: given the
    empty set of allowed types it signals no error and returns no board; its
    rejection loop never ends, however many turns it is given. *)
Theorem createInitialBoard_empty_diverges (fuel : nat) (g : Rng) :
  createInitialBoard fuel [] g = OutOfFuel ∧
  (∀ e, createInitialBoard fuel [] g ≠ Throw e) ∧
  (∀ b g', createInitialBoard fuel [] g ≠ Ok (b, g')).
Proof. rewrite createInitialBoard_empty_stuck. done. Qed.

(** C6, the claim as stated fails: on the empty set no error is thrown, with
    a thousand turns of fuel or with any other number. *)
Lemma createInitialBoard_empty_no_error :
  createInitialBoard 1000 [] (λ _, 0) = OutOfFuel ∧
  (∀ fuel e, createInitialBoard fuel [] (λ _, 0) ≠ Throw e).
Proof.
  split; [apply createInitialBoard_empty_stuck|].
  intros fuel e. by rewrite createInitialBoard_empty_stuck.
Qed.

(** ** [createInitialBoard] leaves no match *)

(** What the rejection test of [createInitialBoard] has established when a
    type is accepted. *)
Lemma completes_run_false board row_ r c ty :
  completes_run board row_ r c ty = Ok false →
  (∀ x1 x2, 2 ≤ c → row_ !! (c - 1) = Some x1 → row_ !! (c - 2) = Some x2 →
     ¬ (type x1 = ty ∧ type x2 = ty)) ∧
  (∀ x1 x2, 2 ≤ r → cellAt board (r - 1) c = Some x1 → cellAt board (r - 2) c = Some x2 →
     ¬ (type x1 = ty ∧ type x2 = ty)).
Proof.
  unfold completes_run. intros H. apply obind_Ok in H as (onLeft & Hl & H).
  destruct onLeft; [done|]. split.
  - intros x1 x2 Hc H1 H2 [T1 T2].
    destruct (2 <=? c) eqn:E; [|apply Nat.leb_gt in E; lia].
    rewrite H1 in Hl. cbn [defined obind] in Hl.
    rewrite bool_decide_eq_true_2 in Hl by done.
    rewrite H2 in Hl. cbn [defined obind] in Hl.
    rewrite bool_decide_eq_true_2 in Hl by done. done.
  - intros x1 x2 Hr H1 H2 [T1 T2].
    destruct (2 <=? r) eqn:E; [|apply Nat.leb_gt in E; lia].
    rewrite H1 in H. cbn [defined obind] in H.
    rewrite bool_decide_eq_true_2 in H by done.
    rewrite H2 in H. cbn [defined obind] in H.
    rewrite bool_decide_eq_true_2 in H by done. done.
Qed.

Lemma pick_type_accepts fuel allowedTypes board row_ r c g ty g' :
  pick_type fuel allowedTypes board row_ r c g = Ok (ty, g') →
  completes_run board row_ r c ty = Ok false.
Proof. intros H. unfold pick_type in H. by apply do_while_exit in H. Qed.

Lemma cellAt_app_l (b : Board) row_ r c :
  r < length b → cellAt (b ++ [row_]) r c = cellAt b r c.
Proof. intros Hr. unfold cellAt. by rewrite lookup_app_l. Qed.

Lemma cellAt_app_r (b : Board) (row_ : list Cell) c :
  cellAt (b ++ [row_]) (length b) c = row_ !! c.
Proof. unfold cellAt. rewrite list_lookup_middle; done. Qed.

Lemma cellAt_Some_row_lt (b : Board) r c x : cellAt b r c = Some x → r < length b.
Proof.
  unfold cellAt. destruct (b !! r) eqn:E; [|done]. intros _.
  by eapply lookup_lt_Some.
Qed.

(** The board that [createInitialBoard] returns, when it returns one. *)
Lemma createInitialBoard_spec fuel allowedTypes g b g' :
  createInitialBoard fuel allowedTypes g = Ok (b, g') →
  board_shape b ∧ Forall no_triple_h b ∧ no_triple_v b.
Proof.
  intros Hrun. unfold createInitialBoard in Hrun.
  apply (for_up_inv
    (λ r '(board, _), length board = r ∧ Forall (λ row_, length row_ = GRID_COLS) board ∧
        Forall no_triple_h board ∧ no_triple_v board)) in Hrun.
  - destruct Hrun as (Hlen & Hcols & Hh & Hv). done.
  - split_and!; [done | constructor | constructor |].
    intros r c x0 x1 x2 H0. done.
  - clear. intros r [board g] [board' g'] _ (Hlen & Hcols & Hh & Hv) Hbody.
    apply obind_Ok in Hbody as ([row_ g1] & Hrow & [= <- <-]).
    apply (for_up_inv
      (λ c '(row_, _), length row_ = c ∧ no_triple_h row_ ∧
         ∀ c' x x1 x2, 2 ≤ r → row_ !! c' = Some x →
           cellAt board (r - 1) c' = Some x1 → cellAt board (r - 2) c' = Some x2 →
           ¬ (type x1 = type x ∧ type x2 = type x))) in Hrow.
    + destruct Hrow as (Hrlen & Hrh & Hrv).
      split_and!.
      * rewrite length_app. simpl. lia.
      * apply Forall_app. split; [done|]. by constructor.
      * apply Forall_app. split; [done|]. by constructor.
      * intros r0 c x0 x1 x2 H0 H1 H2.
        pose proof (cellAt_Some_row_lt _ _ _ _ H2) as Hlt.
        rewrite length_app in Hlt. simpl in Hlt.
        destruct (decide (r0 + 2 = length board)) as [Heq|Hne].
        -- rewrite Heq, cellAt_app_r in H2.
           rewrite cellAt_app_l in H0, H1 by lia.
           intros [T1 T0]. apply (Hrv c x2 x1 x0); [lia | done | | | done].
           ++ by replace (r - 1) with (r0 + 1) by lia.
           ++ by replace (r - 2) with r0 by lia.
        -- rewrite cellAt_app_l in H0, H1, H2 by lia. by eapply Hv.
    + split_and!; [done | intros c x0 x1 x2 H0; done | intros c' x x1 x2 _ H0; done].
    + clear Hrow. intros c [row0 g0] [row1 g2] _ (Hrlen & Hrh & Hrv) Hbody.
      apply obind_Ok in Hbody as ([ty g3] & Hpick & Hbody).
      destruct (random g3) as [d g4]. injection Hbody as <- <-.
      apply pick_type_accepts, completes_run_false in Hpick as [Hleft Hup].
      split_and!.
      * rewrite length_app. simpl. lia.
      * intros c0 x0 x1 x2 H0 H1 H2.
        pose proof (lookup_lt_Some _ _ _ H2) as Hlt.
        rewrite length_app in Hlt. simpl in Hlt.
        destruct (decide (c0 + 2 = length row0)) as [Heq|Hne].
        -- rewrite Heq, list_lookup_middle in H2 by done. injection H2 as <-.
           rewrite lookup_app_l in H0, H1 by lia. simpl.
           intros [T1 T0]. apply (Hleft x1 x0); [lia | | | done].
           ++ by replace (c - 1) with (c0 + 1) by lia.
           ++ by replace (c - 2) with c0 by lia.
        -- rewrite lookup_app_l in H0, H1, H2 by lia. by eapply Hrh.
      * intros c' x x1 x2 Hr Hx H1 H2.
        pose proof (lookup_lt_Some _ _ _ Hx) as Hlt.
        rewrite length_app in Hlt. simpl in Hlt.
        destruct (decide (c' = length row0)) as [Heq|Hne].
        -- rewrite Heq, list_lookup_middle in Hx by done. injection Hx as <-. simpl.
           apply (Hup x1 x2); [done | by rewrite <- Hrlen, <- Heq..].
        -- rewrite lookup_app_l in Hx by lia. by eapply Hrv.
Qed.

Lemma typed_inj b r c t t' : typed b r c t → typed b r c t' → t = t'.
Proof. intros (x & H1 & H2) (x' & H1' & H2'). congruence. Qed.

Lemma no_triples_no_run b r c :
  Forall no_triple_h b → no_triple_v b → ¬ in_run b r c.
Proof.
  intros Hh Hv [(c0 & len & t & [Hlen Hrun] & _)|(r0 & len & t & [Hlen Hrun] & _)].
  - destruct (Hrun c0) as (x0 & H0 & T0); [lia|].
    destruct (Hrun (c0 + 1)) as (x1 & H1 & T1); [lia|].
    destruct (Hrun (c0 + 2)) as (x2 & H2 & T2); [lia|].
    unfold cellAt in H0, H1, H2. destruct (b !! r) as [row_|] eqn:E; [|done].
    simpl in *. rewrite Forall_forall in Hh.
    apply (Hh row_ (list_elem_of_lookup_2 _ _ _ E) c0 x0 x1 x2); [done..|].
    split; congruence.
  - destruct (Hrun r0) as (x0 & H0 & T0); [lia|].
    destruct (Hrun (r0 + 1)) as (x1 & H1 & T1); [lia|].
    destruct (Hrun (r0 + 2)) as (x2 & H2 & T2); [lia|].
    apply (Hv r0 c x0 x1 x2); [done..|]. split; congruence.
Qed.

(** C7.  For every set of allowed types (empty or not) and every sequence of
    draws, whenever [createInitialBoard] returns a board, [findMatches] on
    that board returns the empty set: the board holds no run of three. *)
Theorem createInitialBoard_no_matches (fuel : nat) (allowedTypes : list GemType.t)
    (g g' : Rng) (b : Board) :
  createInitialBoard fuel allowedTypes g = Ok (b, g') →
  board_shape b ∧ findMatches b = Ok [].
Proof.
  intros Hrun. apply createInitialBoard_spec in Hrun as (Hshape & Hh & Hv).
  split; [done|].
  destruct (findMatches_runs b Hshape) as (ids & -> & _ & Hids).
  f_equal. destruct ids as [|x ids]; [done|]. exfalso.
  destruct (Hids x) as [(r & c & cell & _ & _ & Hin) _]; [by left|].
  by eapply no_triples_no_run.
Qed.

Lemma createInitialBoard_no_matches_witness :
  ∃ b g', createInitialBoard 10 initial_types initial_rng = Ok (b, g') ∧
    board_shape b ∧ findMatches b = Ok [].
Proof.
  eexists _, _. split; [vm_compute; reflexivity|].
  eapply (createInitialBoard_no_matches 10 initial_types initial_rng).
  vm_compute. reflexivity.
Defined.

(** ** [getConnectedGroups] *)

Lemma cellAtZ_Some b r c y :
  cellAtZ b r c = Some y ↔
  (0 ≤ r)%Z ∧ (0 ≤ c)%Z ∧ cellAt b (Z.to_nat r) (Z.to_nat c) = Some y.
Proof.
  unfold cellAtZ. repeat case_bool_decide; simpl; split; try done; try tauto; lia.
Qed.

Lemma in_grid_spec r c :
  in_grid r c = true ↔
  (0 ≤ r)%Z ∧ (Z.to_nat r < GRID_ROWS) ∧ (0 ≤ c)%Z ∧ (Z.to_nat c < GRID_COLS).
Proof.
  unfold in_grid. rewrite !andb_true_iff, !bool_decide_eq_true. lia.
Qed.

Lemma in_grid_defined b r c :
  board_shape b → in_grid r c = true → is_Some (cellAtZ b r c).
Proof.
  intros Hb Hg. apply in_grid_spec in Hg as (? & ? & ? & ?).
  destruct (board_shape_lookup b (Z.to_nat r) (Z.to_nat c)) as [y Hy]; [done..|].
  exists y. by apply cellAtZ_Some.
Qed.

Lemma elem_of_concat {A} (x : A) (ls : list (list A)) :
  x ∈ concat ls ↔ ∃ l, x ∈ l ∧ l ∈ ls.
Proof.
  induction ls as [|l0 ls IH]; simpl.
  - rewrite elem_of_nil. split; [done|]. intros (l & _ & H). by apply elem_of_nil in H.
  - rewrite elem_of_app, IH. split.
    + intros [?|(l & ? & ?)]; [exists l0 | exists l]; split; (done || by constructor).
    + intros (l & Hx & Hl). apply elem_of_cons in Hl as [-> |Hl]; [by left|].
      right. by exists l.
Qed.

Lemma on_board_concat b y : on_board b y ↔ y ∈ concat b.
Proof.
  unfold on_board, cellAt. rewrite elem_of_concat. split.
  - intros (r & c & H). destruct (b !! r) as [row_|] eqn:E; [|done]. simpl in H.
    exists row_. split; by eapply list_elem_of_lookup_2.
  - intros (row_ & Hy & Hrow). apply list_elem_of_lookup_1 in Hy as [c Hc].
    apply list_elem_of_lookup_1 in Hrow as [r Hr].
    exists r, c. by rewrite Hr.
Qed.

Lemma board_shape_cells b :
  board_shape b → length (concat b) = GRID_ROWS * GRID_COLS.
Proof.
  intros [Hr Hc]. rewrite <- Hr. clear Hr.
  induction Hc as [|row_ b Hrow _ IH]; [done|].
  simpl. rewrite length_app, IH, Hrow. done.
Qed.

(** Visiting the identifier of a slot not yet visited leaves fewer slots
    unvisited. *)
Lemma unvisited_visit b visited y :
  on_board b y → id y ∉ visited →
  unvisited b (set_add (id y) visited) < unvisited b visited.
Proof.
  intros Hy Hnew. apply on_board_concat in Hy. unfold unvisited.
  induction (concat b) as [|z l IH]; [by apply elem_of_nil in Hy|].
  assert (Hle : length (filter (λ y0, id y0 ∉ set_add (id y) visited) l)
                ≤ length (filter (λ y0, id y0 ∉ visited) l)).
  { clear. induction l as [|w l IH]; [done|]. rewrite !filter_cons.
    destruct (decide (id w ∉ set_add (id y) visited)) as [H1|H1];
      destruct (decide (id w ∉ visited)) as [H2|H2]; simpl; try lia.
    exfalso. apply H1. apply elem_of_set_add. right.
    destruct (decide (id w ∈ visited)); [done | by exfalso]. }
  rewrite !filter_cons.
  destruct (decide (id z = id y)) as [Heq|Hne].
  - rewrite decide_False, decide_True
      by (rewrite ?Heq; done || (rewrite elem_of_set_add; tauto)).
    simpl. lia.
  - apply elem_of_cons in Hy as [-> |Hy]; [done|]. specialize (IH Hy).
    destruct (decide (id z ∉ set_add (id y) visited)) as [H1|H1];
      destruct (decide (id z ∉ visited)) as [H2|H2]; simpl; try lia.
    exfalso. apply H1. apply elem_of_set_add. right.
    destruct (decide (id z ∈ visited)); [done | by exfalso].
Qed.

Section FloodFill.
Variable b : Board.
Variable matchedIds : list string.
Hypothesis b_shape : board_shape b.

Local Abbreviation bfs_measure := (bfs_measure b).

Lemma bfs_step_inv V0 seed st :
  bfs_inv b matchedIds V0 seed st →
  (0 <? length st.1.1) = true →
  ∃ st', bfs_step b matchedIds st = Ok st' ∧ bfs_inv b matchedIds V0 seed st' ∧
    bfs_measure st' < bfs_measure st.
Proof.
  destruct st as [[queue visited] group]. unfold bfs_inv, bfs_measure. cbn [fst].
  intros (Hseed & Hnd & Hvis & Hdisj & Hprops & Hclos) Hq.
  destruct queue as [|current queue0]; [done|]. clear Hq.
  unfold bfs_step. cbn [head tail defined obind].
  assert (E : group ++ current :: queue0 = (group ++ [current]) ++ queue0)
    by (by rewrite <- app_assoc).
  rewrite E in Hseed, Hnd, Hvis, Hdisj, Hprops. clear E.
  set (group1 := group ++ [current]) in *.
  match goal with |- context [for_each ?xs ?body ?s] =>
  destruct (for_each_spec
    (λ done_ '(q, v),
       seed ∈ group1 ++ q ∧
       NoDup (id <$> group1 ++ q) ∧
       (∀ x, x ∈ v ↔ x ∈ V0 ∨ x ∈ id <$> group1 ++ q) ∧
       (∀ x, x ∈ id <$> group1 ++ q → x ∉ V0) ∧
       (∀ y, y ∈ group1 ++ q → on_board b y ∧ id y ∈ matchedIds ∧ type y = type seed) ∧
       (∀ x, x ∈ visited → x ∈ v) ∧
       (∀ n y, n ∈ done_ → in_grid (prow n) (pcol n) = true →
          cellAtZ b (prow n) (pcol n) = Some y → id y ∈ matchedIds →
          type y = type current → id y ∈ v) ∧
       unvisited b v + length q ≤ unvisited b visited + length queue0)
    body xs s)
    as ([q v] & -> & Hseed' & Hnd' & Hvis' & Hdisj' & Hprops' & Hmono & Hdone & Hm)
  end.
  - split_and!; [done | done | done | done | done | done | | done].
    intros n y Hn. by apply elem_of_nil in Hn.
  - clear Hseed Hnd Hvis Hdisj Hprops.
    intros done_ n rest_ [q v] _ (Hseed & Hnd & Hvis & Hdisj & Hprops & Hmono & Hdone & Hm).
    assert (Hkeep : (∀ y, in_grid (prow n) (pcol n) = true →
                cellAtZ b (prow n) (pcol n) = Some y → id y ∈ matchedIds →
                type y = type current → id y ∈ v) →
              (∀ n' y, n' ∈ done_ ++ [n] → in_grid (prow n') (pcol n') = true →
                cellAtZ b (prow n') (pcol n') = Some y → id y ∈ matchedIds →
                type y = type current → id y ∈ v)).
    { intros Hn n' y Hn'. apply elem_of_app in Hn' as [Hn'|Hn'].
      - by apply Hdone.
      - apply list_elem_of_singleton in Hn' as ->. apply Hn. }
    destruct (in_grid (prow n) (pcol n)) eqn:Hg.
    2:{ eexists. split; [done|]. split_and!; try done. by apply Hkeep. }
    destruct (in_grid_defined b _ _ b_shape Hg) as [y Hy]. rewrite Hy.
    cbn [defined obind].
    destruct (set_has matchedIds (id y) && negb (set_has v (id y))
              && bool_decide (type y = type current)) eqn:Hc.
    2:{ eexists. split; [done|]. split_and!; try done. apply Hkeep.
        intros y' _ Hy' HM Hty. assert (y' = y) as -> by congruence.
        apply andb_false_iff in Hc as [Hc|Hc].
        - apply andb_false_iff in Hc as [Hc|Hc].
          + apply set_has_false in Hc. done.
          + apply negb_false_iff, set_has_true in Hc. done.
        - apply bool_decide_eq_false in Hc. done. }
    apply andb_true_iff in Hc as [Hc Hty]. apply andb_true_iff in Hc as [HM Hnew].
    apply set_has_true in HM. apply negb_true_iff, set_has_false in Hnew.
    apply bool_decide_eq_true in Hty.
    assert (Hyb : on_board b y).
    { apply cellAtZ_Some in Hy as (_ & _ & Hy). by eexists _, _. }
    assert (Hcur : type current = type seed).
    { apply Hprops. apply elem_of_app. left. apply elem_of_app. right. by left. }
    eexists. split; [done|]. cbv beta iota.
    rewrite !app_assoc, !fmap_app. cbn [fmap list_fmap].
    split_and!.
    + apply elem_of_app. by left.
    + apply NoDup_app. split; [by rewrite <- fmap_app|]. split; [|apply NoDup_singleton].
      intros x Hx Hx'. apply list_elem_of_singleton in Hx' as ->.
      apply Hnew. apply Hvis. right. by rewrite fmap_app.
    + intros x. rewrite elem_of_set_add, Hvis, fmap_app.
      rewrite (elem_of_app _ [id y]), list_elem_of_singleton. tauto.
    + intros x Hx. apply elem_of_app in Hx as [Hx|Hx].
      * apply Hdisj. by rewrite fmap_app.
      * apply list_elem_of_singleton in Hx as ->. intros HV. apply Hnew, Hvis. by left.
    + intros y' Hy'. apply elem_of_app in Hy' as [Hy'|Hy'].
      * apply Hprops. done.
      * apply list_elem_of_singleton in Hy' as ->. split_and!; [done | done | congruence].
    + intros x Hx. apply elem_of_set_add. right. by apply Hmono.
    + intros n' y' Hn'. apply elem_of_app in Hn' as [Hn'|Hn'].
      * intros. apply elem_of_set_add. right. by eapply Hdone.
      * apply list_elem_of_singleton in Hn' as ->. intros _ Hy' _ _.
        apply elem_of_set_add. left. congruence.
    + pose proof (unvisited_visit b v y Hyb Hnew). rewrite length_app. simpl. lia.
  - cbn [obind]. eexists. split; [done|]. split.
    + split_and!; [done | done | done | done | done |].
      intros x y Hx Hadj. apply elem_of_app in Hx as [Hx|Hx].
      * apply Hmono. by eapply Hclos.
      * apply list_elem_of_singleton in Hx as ->.
        destruct Hadj as (n & Hn & Hg & Hy & HM & Hty). by eapply Hdone.
    + simpl. lia.
Qed.

(** A flood fill ends, with the queue empty. *)
Lemma bfs_spec fuel V0 seed st :
  bfs_inv b matchedIds V0 seed st → bfs_measure st < fuel →
  ∃ visited group, bfs fuel b matchedIds st = Ok ([], visited, group) ∧
    bfs_inv b matchedIds V0 seed ([], visited, group).
Proof.
  intros Hinv Hfuel. unfold bfs.
  destruct (while_loop_spec (bfs_inv b matchedIds V0 seed) bfs_measure
    (λ '(queue, _, _), Ok (0 <? length queue)) (bfs_step b matchedIds) fuel st)
    as ([[queue visited] group] & Hrun & Hinv' & Hexit); [done | done | |].
  - intros [[queue visited] group] Hst. eexists. split; [done|]. intros Hq.
    by apply (bfs_step_inv V0 seed (queue, visited, group)).
  - injection Hexit as Hexit. destruct queue; [|done]. by exists visited, group.
Qed.
End FloodFill.

Section Seeds.
Variable b : Board.
Variable matchedIds : list string.
Variable fuel : nat.
Hypothesis b_shape : board_shape b.
Hypothesis enough_fuel : GRID_ROWS * GRID_COLS < fuel.

Lemma seeds_inv_weaken (P P' : nat → nat → Prop) st :
  (∀ r c y, P' r c → cellAt b r c = Some y → P r c) →
  seeds_inv b matchedIds P st → seeds_inv b matchedIds P' st.
Proof.
  destruct st as [visited groups]. intros HP (Hok & Hvis & Hcov).
  split_and!; [done | done |]. intros r c y Hp Hy. apply (Hcov r c y); [|done].
  by eapply HP.
Qed.

Lemma concat_snoc {A} (ls : list (list A)) (l : list A) :
  concat (ls ++ [l]) = concat ls ++ l.
Proof. rewrite concat_app. simpl. by rewrite app_nil_r. Qed.

(** The body of the scan for seeds, at the slot [(r, c)]. *)
Lemma seed_step (P : nat → nat → Prop) r c st :
  r < GRID_ROWS → c < GRID_COLS →
  seeds_inv b matchedIds P st →
  ∃ st',
    (let '(visited, groups) := st in
     let* cell := defined (cellAt b r c) in
     if set_has matchedIds (id cell) && negb (set_has visited (id cell)) then
       let* (_, visited, group) :=
         bfs fuel b matchedIds ([cell], set_add (id cell) visited, []) in
       Ok (visited, groups ++ [group])
     else Ok (visited, groups)) = Ok st' ∧
    seeds_inv b matchedIds (λ r' c', P r' c' ∨ (r' = r ∧ c' = c)) st'.
Proof.
  intros Hr Hc. destruct st as [visited groups].
  intros ((Hnd & Hne & Hcells & Hty & Hclos) & Hvis & Hcov).
  destruct (board_shape_lookup b r c b_shape Hr Hc) as [cell Hcell].
  rewrite Hcell. cbn [defined obind].
  destruct (set_has matchedIds (id cell) && negb (set_has visited (id cell))) eqn:Hcond.
  2:{ eexists. split; [done|]. split_and!; [done | done |].
      intros r' c' y [Hp|[-> ->]] Hy HM; [by eapply Hcov|].
      assert (y = cell) as -> by congruence.
      apply andb_false_iff in Hcond as [Hcond|Hcond].
      - apply set_has_false in Hcond. done.
      - by apply negb_false_iff, set_has_true in Hcond. }
  apply andb_true_iff in Hcond as [HM Hnew].
  apply set_has_true in HM. apply negb_true_iff, set_has_false in Hnew.
  assert (Hon : on_board b cell) by (by exists r, c).
  destruct (bfs_spec b matchedIds b_shape fuel visited cell
              ([cell], set_add (id cell) visited, []))
    as (visited2 & group & -> & Hseed & Hnd2 & Hvis2 & Hdisj2 & Hprops2 & Hclos2).
  { split_and!.
    - by left.
    - simpl. apply NoDup_singleton.
    - intros x. rewrite elem_of_set_add. simpl. rewrite list_elem_of_singleton. tauto.
    - intros x Hx. simpl in Hx. apply list_elem_of_singleton in Hx as ->. done.
    - intros y Hy. simpl in Hy. apply list_elem_of_singleton in Hy as ->. done.
    - intros x y Hx. by apply elem_of_nil in Hx. }
  { unfold bfs_measure. pose proof (unvisited_visit b visited cell Hon Hnew) as Hlt.
    assert (unvisited b visited ≤ GRID_ROWS * GRID_COLS).
    { unfold unvisited. rewrite <- (board_shape_cells b b_shape). apply length_filter. }
    simpl. lia. }
  cbn [obind]. rewrite app_nil_r in *.
  eexists. split; [done|].
  assert (Hids : ∀ x, x ∈ id <$> concat (groups ++ [group])
                      ↔ x ∈ visited ∨ x ∈ id <$> group).
  { intros x. rewrite concat_snoc, fmap_app, elem_of_app, Hvis. done. }
  split_and!; [split_and! | |].
  - rewrite concat_snoc, fmap_app. apply NoDup_app. split_and!; [done | | done].
    intros x Hx Hx'. apply (Hdisj2 x Hx'). by apply Hvis.
  - intros g Hg. apply elem_of_app in Hg as [Hg|Hg]; [by apply Hne|].
    apply list_elem_of_singleton in Hg as ->. intros ->. by apply elem_of_nil in Hseed.
  - intros y Hy. rewrite concat_snoc in Hy. apply elem_of_app in Hy as [Hy|Hy].
    + by apply Hcells.
    + destruct (Hprops2 y Hy) as (? & ? & _). done.
  - intros g x y Hg Hx Hy. apply elem_of_app in Hg as [Hg|Hg]; [by eapply Hty|].
    apply list_elem_of_singleton in Hg as ->.
    destruct (Hprops2 x Hx) as (_ & _ & ->). destruct (Hprops2 y Hy) as (_ & _ & ->). done.
  - intros i g x y Hi Hx Hadj.
    destruct (decide (i < length groups)) as [Hlt|Hge].
    + rewrite lookup_app_l in Hi by done.
      rewrite take_app_le by lia. by eapply Hclos.
    + pose proof (lookup_lt_Some _ _ _ Hi) as Hlt. rewrite length_app in Hlt. simpl in Hlt.
      assert (i = length groups) as -> by lia.
      rewrite list_lookup_middle in Hi by done. injection Hi as <-.
      rewrite take_ge by (rewrite length_app; simpl; lia).
      apply Hids. apply Hvis2. by eapply Hclos2.
  - intros x. rewrite Hvis2, Hids. done.
  - intros r' c' y [Hp|[-> ->]] Hy HM'.
    + apply Hvis2. left. by eapply Hcov.
    + assert (y = cell) as -> by congruence.
      apply Hvis2. right. apply list_elem_of_fmap. by exists cell.
Qed.

(** The groups that [getConnectedGroups] returns. *)
Lemma getConnectedGroups_spec :
  ∃ groups, getConnectedGroups fuel b matchedIds = Ok groups ∧
    groups_ok b matchedIds groups ∧
    (∀ y, on_board b y → id y ∈ matchedIds → id y ∈ id <$> concat groups).
Proof.
  unfold getConnectedGroups.
  match goal with |- context [for_up GRID_ROWS 0 ?body ?s] =>
    destruct (for_up_spec (λ r st, seeds_inv b matchedIds (λ r' c', r' < r) st)
                body GRID_ROWS 0 s) as ([visited groups] & -> & Hok & Hvis & Hcov)
  end.
  - split_and!; [split_and! | intros x; simpl; tauto | intros; lia].
    + constructor.
    + intros g Hg. by apply elem_of_nil in Hg.
    + intros y Hy. by apply elem_of_nil in Hy.
    + intros g x y Hg. by apply elem_of_nil in Hg.
    + intros i g x y Hi. done.
  - intros r st Hr Hst.
    destruct (for_up_spec
      (λ c st, seeds_inv b matchedIds (λ r' c', r' < r ∨ (r' = r ∧ c' < c)) st)
      (λ c '(visited, groups),
         let* cell := defined (cellAt b r c) in
         if set_has matchedIds (id cell) && negb (set_has visited (id cell)) then
           let* (_, visited, group) :=
             bfs fuel b matchedIds ([cell], set_add (id cell) visited, []) in
           Ok (visited, groups ++ [group])
         else Ok (visited, groups))
      GRID_COLS 0 st) as (st' & Hrun & Hst').
    + eapply seeds_inv_weaken; [|exact Hst]. intros r' c' y [?|[_ ?]] _; lia.
    + intros c st0 Hc Hst0.
      destruct (seed_step _ r c st0 ltac:(lia) ltac:(lia) Hst0) as (st1 & Hrun1 & Hst1).
      exists st1. split; [by destruct st0|].
      eapply seeds_inv_weaken; [|exact Hst1]. intros r' c' y [?|[-> ?]] _; [left; by left|].
      destruct (decide (c' = c)) as [-> |]; [by right|]. left. right. lia.
    + exists st'. split; [exact Hrun|].
      eapply seeds_inv_weaken; [|exact Hst']. intros r' c' y Hr' Hy.
      destruct (cellAt_lt _ _ _ _ b_shape Hy). simpl. lia.
  - cbn [obind]. exists groups. split; [done|]. split; [done|].
    intros y (r & c & Hy) HM. apply Hvis. apply (Hcov r c y); [|done..].
    destruct (cellAt_lt _ _ _ _ b_shape Hy). simpl. lia.
Qed.
End Seeds.

Lemma NoDup_concat_index {A B} (f : A → B) (ls : list (list A)) i j g g' x :
  NoDup (f <$> concat ls) →
  ls !! i = Some g → ls !! j = Some g' → x ∈ f <$> g → x ∈ f <$> g' → i = j.
Proof.
  revert i j. induction ls as [|l ls IH]; intros i j Hnd Hi Hj Hx Hx'; [done|].
  simpl in Hnd. rewrite fmap_app in Hnd. apply NoDup_app in Hnd as (Hl & Hdisj & Hrest).
  assert (Hin : ∀ k h, ls !! k = Some h → x ∈ f <$> h → x ∈ f <$> concat ls).
  { intros k h Hk Hh. apply list_elem_of_fmap in Hh as (a & -> & Ha).
    apply list_elem_of_fmap. exists a. split; [done|].
    apply elem_of_concat. exists h. split; [done|]. by eapply list_elem_of_lookup_2. }
  destruct i as [|i], j as [|j]; simpl in Hi, Hj.
  - done.
  - injection Hi as <-. exfalso. eapply Hdisj; [exact Hx|]. by eapply Hin.
  - injection Hj as <-. exfalso. eapply Hdisj; [exact Hx'|]. by eapply Hin.
  - f_equal. by eapply IH.
Qed.

(** C4.  On every board, for every set of matched identifiers that all occur
    on the board, [getConnectedGroups] returns (the fuel exceeding the number
    of cells, every flood fill ends) a partition of the matched set: every
    matched identifier is in one group, at one index only; no identifier
    occurs twice in the groups; the groups hold matched identifiers only; and
    the cells of one group have one type. *)
Theorem getConnectedGroups_partition (fuel : nat) (b : Board) (matchedIds : list string) :
  board_shape b →
  GRID_ROWS * GRID_COLS < fuel →
  (∀ x, x ∈ matchedIds → ∃ y, on_board b y ∧ id y = x) →
  ∃ groups, getConnectedGroups fuel b matchedIds = Ok groups ∧
    (∀ x, x ∈ matchedIds →
       ∃ i g, groups !! i = Some g ∧ x ∈ id <$> g ∧
         ∀ j g', groups !! j = Some g' → x ∈ id <$> g' → j = i) ∧
    NoDup (id <$> concat groups) ∧
    (∀ x, x ∈ id <$> concat groups → x ∈ matchedIds) ∧
    (∀ g x y, g ∈ groups → x ∈ g → y ∈ g → type x = type y).
Proof.
  intros Hb Hfuel Hon.
  destruct (getConnectedGroups_spec b matchedIds fuel Hb Hfuel)
    as (groups & Hrun & (Hnd & Hne & Hcells & Hty & Hclos) & Hcov).
  exists groups. split; [done|]. split_and!; [| done | | done].
  - intros x Hx. destruct (Hon x Hx) as (y & Hy & <-).
    specialize (Hcov y Hy Hx). apply list_elem_of_fmap in Hcov as (z & Hz & Hin).
    apply elem_of_concat in Hin as (g & Hzg & Hg).
    apply list_elem_of_lookup_1 in Hg as [i Hi].
    exists i, g. split; [done|]. split.
    + rewrite Hz. apply list_elem_of_fmap. by exists z.
    + intros j g' Hj Hx'. eapply (NoDup_concat_index id groups j i); try done.
      rewrite Hz. apply list_elem_of_fmap. by exists z.
  - intros x Hx. apply list_elem_of_fmap in Hx as (y & -> & Hy). by apply Hcells.
Qed.

(** ** A lone run of four *)

Lemma cellAtZ_of_nat b r c : cellAtZ b (Z.of_nat r) (Z.of_nat c) = cellAt b r c.
Proof.
  unfold cellAtZ. rewrite !bool_decide_eq_true_2 by lia. simpl. by rewrite !Nat2Z.id.
Qed.

Lemma in_grid_of_nat r c :
  r < GRID_ROWS → c < GRID_COLS → in_grid (Z.of_nat r) (Z.of_nat c) = true.
Proof. intros. apply in_grid_spec. rewrite !Nat2Z.id. lia. Qed.

Section FourRun.
Variable b : Board.
Variable fuel : nat.
Variables r c0 : nat.
Variable t : GemType.t.
Hypothesis b_shape : board_shape b.
Hypothesis b_ids : unique_ids b.
Hypothesis b_coords : coords_ok b.
Hypothesis enough_fuel : GRID_ROWS * GRID_COLS < fuel.
Hypothesis the_run : hrun b r c0 4 t.
Hypothesis no_other : ∀ r' c', in_run b r' c' → r' = r ∧ c0 ≤ c' < c0 + 4.

Local Abbreviation in_four := (in_four b r c0).

Lemma in_four_intro j y : j < 4 → cellAt b r (c0 + j) = Some y → in_four y.
Proof. intros. by exists j. Qed.

Lemma four_cells j : j < 4 → ∃ y, cellAt b r (c0 + j) = Some y ∧ type y = Some t.
Proof. intros Hj. destruct the_run as [_ Hrun]. apply Hrun. lia. Qed.

Lemma four_in_run j : j < 4 → in_run b r (c0 + j).
Proof. intros Hj. left. exists c0, 4, t. split; [done | lia]. Qed.

Lemma matched_is_four (ids : list string) y :
  (∀ x, x ∈ ids ↔ ∃ r c cell, cellAt b r c = Some cell ∧ id cell = x ∧ in_run b r c) →
  on_board b y → id y ∈ ids → in_four y.
Proof.
  intros Hids (r' & c' & Hy) Hin.
  apply Hids in Hin as (r1 & c1 & cell & Hcell & Hid & Hrun).
  destruct (b_ids _ _ _ _ _ _ Hcell Hy Hid) as [-> ->].
  destruct (no_other _ _ Hrun) as [-> Hc]. exists (c' - c0). split; [lia|].
  by replace (c0 + (c' - c0)) with c' by lia.
Qed.

Lemma four_matched (ids : list string) y :
  (∀ x, x ∈ ids ↔ ∃ r c cell, cellAt b r c = Some cell ∧ id cell = x ∧ in_run b r c) →
  in_four y → id y ∈ ids.
Proof.
  intros Hids (j & Hj & Hy). apply Hids. exists r, (c0 + j), y.
  split; [done|]. split; [done|]. by apply four_in_run.
Qed.

Lemma in_four_type y : in_four y → type y = Some t.
Proof.
  intros (j & Hj & Hy). destruct (four_cells j Hj) as (y' & Hy' & Ht). congruence.
Qed.

Lemma in_four_id y z : in_four y → in_four z → id y = id z → y = z.
Proof.
  intros (j & Hj & Hy) (k & Hk & Hz) Hid.
  destruct (b_ids _ _ _ _ _ _ Hy Hz Hid) as [_ Hjk].
  assert (j = k) as -> by lia. congruence.
Qed.

(** Two neighbours in the run are neighbours for the flood fill. *)
Lemma four_adjacent (ids : list string) j k y z :
  (∀ x, x ∈ ids ↔ ∃ r c cell, cellAt b r c = Some cell ∧ id cell = x ∧ in_run b r c) →
  j < 4 → k < 4 → (k = j + 1 ∨ j = k + 1) →
  cellAt b r (c0 + j) = Some y → cellAt b r (c0 + k) = Some z →
  adjacent_match b ids y z.
Proof.
  intros Hids Hj Hk Hjk Hy Hz.
  destruct (b_coords _ _ _ Hy) as [Hrow Hcol].
  destruct (cellAt_lt _ _ _ _ b_shape Hz) as [Hr Hc].
  exists (mkPosition (Z.of_nat r) (Z.of_nat (c0 + k))). simpl.
  split_and!.
  - unfold neighbors. rewrite Hrow, Hcol, !elem_of_cons.
    destruct Hjk as [-> | ->].
    + do 3 right. left. f_equal. lia.
    + do 2 right. left. f_equal. lia.
  - by apply in_grid_of_nat.
  - by rewrite cellAtZ_of_nat.
  - apply four_matched; [done|]. by apply (in_four_intro k).
  - rewrite (in_four_type y), (in_four_type z);
      [done | by apply (in_four_intro k) | by apply (in_four_intro j)].
Qed.

Lemma four_run_groups :
  ∃ ids group,
    findMatches b = Ok ids ∧
    getConnectedGroups fuel b ids = Ok [group] ∧
    length group = 4 ∧ (∀ y, y ∈ group → in_four y).
Proof.
  destruct (findMatches_runs b b_shape) as (ids & Hfm & _ & Hids).
  destruct (getConnectedGroups_spec b ids fuel b_shape enough_fuel)
    as (groups & Hgc & (Hnd & Hne & Hcells & Hty & Hclos) & Hcov).
  exists ids. rewrite Hfm, Hgc.
  assert (Hfour : ∀ y, y ∈ concat groups → in_four y).
  { intros y Hy. destruct (Hcells y Hy). by apply (matched_is_four ids). }
  destruct (four_cells 0 ltac:(lia)) as (x0 & Hx0 & _).
  destruct groups as [|g1 rest].
  { exfalso. assert (Hon : on_board b x0) by (by exists r, (c0 + 0)).
    assert (Hm : id x0 ∈ ids)
      by (apply (four_matched ids); [done | apply (in_four_intro 0); [lia | done]]).
    specialize (Hcov x0 Hon Hm). simpl in Hcov. by apply elem_of_nil in Hcov. }
  assert (Hg1 : ∀ y, y ∈ g1 → in_four y).
  { intros y Hy. apply Hfour. simpl. apply elem_of_app. by left. }
  (* the first group is closed under the neighbours of the run *)
  assert (Hstep : ∀ j k y z, j < 4 → k < 4 → (k = j + 1 ∨ j = k + 1) →
            cellAt b r (c0 + j) = Some y → cellAt b r (c0 + k) = Some z →
            y ∈ g1 → z ∈ g1).
  { intros j k y z Hj Hk Hjk Hy Hz Hin.
    pose proof (Hclos 0 g1 y z eq_refl Hin
                  (four_adjacent ids j k y z Hids Hj Hk Hjk Hy Hz)) as Hz'.
    simpl in Hz'. rewrite app_nil_r in Hz'.
    apply list_elem_of_fmap in Hz' as (z' & Hid & Hz').
    assert (z = z') as ->; [|done].
    apply in_four_id; [by apply (in_four_intro k) | by apply Hg1 | done]. }
  assert (Hall : ∀ j y, j < 4 → cellAt b r (c0 + j) = Some y → y ∈ g1).
  { destruct g1 as [|y1 g1'] eqn:Eg; [exfalso; by eapply (Hne []); [left|]|].
    rewrite <- Eg in *.
    assert (Hy1 : y1 ∈ g1) by (rewrite Eg; by left).
    destruct (Hg1 y1 Hy1) as (i & Hi & Hyi).
    assert (Hdown : ∀ k, k ≤ i → ∀ y, cellAt b r (c0 + (i - k)) = Some y → y ∈ g1).
    { induction k as [|k IH]; intros Hk y Hy.
      - rewrite Nat.sub_0_r in Hy. congruence.
      - destruct (four_cells (i - k) ltac:(lia)) as (y' & Hy' & _).
        apply (Hstep (i - k) (i - S k) y' y); [lia | lia | lia | done | done |].
        apply IH; [lia | done]. }
    assert (Hup : ∀ k, i + k < 4 → ∀ y, cellAt b r (c0 + (i + k)) = Some y → y ∈ g1).
    { induction k as [|k IH]; intros Hk y Hy.
      - rewrite Nat.add_0_r in Hy. congruence.
      - destruct (four_cells (i + k) ltac:(lia)) as (y' & Hy' & _).
        apply (Hstep (i + k) (i + S k) y' y); [lia | lia | lia | done | done |].
        apply IH; [lia | done]. }
    intros j y Hj Hy. destruct (decide (j ≤ i)).
    - apply (Hdown (i - j)); [lia|]. by replace (i - (i - j)) with j by lia.
    - apply (Hup (j - i)); [lia|]. by replace (i + (j - i)) with j by lia. }
  (* there is no second group *)
  destruct rest as [|g2 rest].
  2:{ exfalso. destruct g2 as [|y2 g2'] eqn:Eg; [by eapply (Hne []); [right; left|]|].
      assert (Hy2 : in_four y2).
      { apply Hfour. simpl. apply elem_of_app. right. by left. }
      destruct Hy2 as (j & Hj & Hy2).
      assert (0 = 1); [|done].
      eapply (NoDup_concat_index id (g1 :: (y2 :: g2') :: rest) 0 1 g1 (y2 :: g2') (id y2));
        [done | done | done | | ].
      - apply list_elem_of_fmap. exists y2. split; [done|]. by eapply Hall.
      - apply list_elem_of_fmap. exists y2. split; [done | by left]. }
  exists g1. split; [done|]. split; [done|]. split; [|done].
  (* the group is a permutation of the four cells *)
  destruct (four_cells 0 ltac:(lia)) as (y0 & H0 & _).
  destruct (four_cells 1 ltac:(lia)) as (y1 & H1 & _).
  destruct (four_cells 2 ltac:(lia)) as (y2 & H2 & _).
  destruct (four_cells 3 ltac:(lia)) as (y3 & H3 & _).
  assert (Hperm : g1 ≡ₚ [y0; y1; y2; y3]).
  { apply NoDup_Permutation.
    - simpl in Hnd. rewrite app_nil_r in Hnd. by eapply NoDup_fmap_1.
    - assert (Hdiff : ∀ j k y z, j ≠ k → cellAt b r (c0 + j) = Some y →
                cellAt b r (c0 + k) = Some z → y ≠ z).
      { intros j k y z Hjk Hy Hz ->.
        destruct (b_ids _ _ _ _ _ _ Hy Hz eq_refl). lia. }
      repeat constructor; rewrite ?elem_of_cons, ?elem_of_nil.
      + intros [?|[?|[?|[]]]]; [by eapply (Hdiff 0 1) | by eapply (Hdiff 0 2) | by eapply (Hdiff 0 3)].
      + intros [?|[?|[]]]; [by eapply (Hdiff 1 2) | by eapply (Hdiff 1 3)].
      + intros [?|[]]. by eapply (Hdiff 2 3).
      + intros [].
    - intros y. split.
      + intros Hy. destruct (Hg1 y Hy) as (j & Hj & Hyj).
        assert (j = 0 ∨ j = 1 ∨ j = 2 ∨ j = 3) as Hcases by lia.
        rewrite !elem_of_cons.
        destruct Hcases as [-> | [-> | [-> | ->]]]; [left | right; left | do 2 right; left | do 3 right; left]; congruence.
      + rewrite !elem_of_cons, elem_of_nil.
        intros [-> | [-> | [-> | [-> | []]]]];
          [apply (Hall 0) | apply (Hall 1) | apply (Hall 2) | apply (Hall 3)]; (lia || done). }
  by rewrite Hperm.
Qed.
End FourRun.

Lemma chooseCandidate_defined group target :
  group ≠ [] → is_Some (chooseCandidate group target).
Proof.
  intros Hne. unfold chooseCandidate. destruct target as [p|].
  - destruct (find _ group); [done|]. by destruct group.
  - apply lookup_lt_is_Some_2. destruct group as [|x group]; [done|].
    simpl length. apply Nat.div_lt; lia.
Qed.


(** ** The matched set of a board of [MATCHED] cells *)

Lemma cellAt_setCell b r c v :
  board_shape b → r < GRID_ROWS → c < GRID_COLS →
  ∃ b', setCell b r c v = Ok b' ∧ board_shape b' ∧
    ∀ r' c', cellAt b' r' c' = if decide (r' = r ∧ c' = c) then Some v else cellAt b r' c'.
Proof.
  intros Hb Hr Hc. unfold setCell.
  destruct Hb as [Hlen Hall].
  destruct (lookup_lt_is_Some_2 b r) as [row_ Hrow]; [lia|].
  rewrite Hrow. simpl. eexists. split; [done|].
  assert (Hrlen : length row_ = GRID_COLS).
  { rewrite Forall_forall in Hall. apply Hall. eapply list_elem_of_lookup_2. exact Hrow. }
  split.
  - split; [by rewrite length_insert|].
    apply Forall_insert; [done|]. by rewrite length_insert.
  - intros r' c'. unfold cellAt.
    destruct (decide (r' = r)) as [-> |Hne].
    + rewrite list_lookup_insert_eq by lia. rewrite Hrow. simpl.
      destruct (decide (c' = c)) as [-> |Hne'].
      * rewrite list_lookup_insert_eq by lia. by rewrite decide_True.
      * rewrite list_lookup_insert_ne by done. rewrite decide_False; [done|]. tauto.
    + rewrite list_lookup_insert_ne by done. rewrite decide_False; [done|]. tauto.
Qed.

Lemma cellAt_map (f : Cell → Cell) (b : Board) r c :
  cellAt (map (map f) b) r c = f <$> cellAt b r c.
Proof.
  unfold cellAt. rewrite list_lookup_fmap. destruct (b !! r) as [row_|]; [|done].
  simpl. by rewrite list_lookup_fmap.
Qed.

Lemma board_shape_map (f : Cell → Cell) (b : Board) :
  board_shape b → board_shape (map (map f) b).
Proof.
  intros [Hr Hc]. split; [by rewrite length_map|].
  apply Forall_fmap. eapply Forall_impl; [exact Hc|]. intros row_ H. simpl.
  by rewrite length_map.
Qed.

Lemma concat_mjoin {A} (ls : list (list A)) : concat ls = mjoin ls.
Proof. induction ls as [|l ls IH]; [done|]. simpl. by rewrite IH. Qed.

(** On a board whose slots carry different identifiers, the list of all
    identifiers has no duplicates. *)
Lemma unique_ids_NoDup b :
  board_shape b → unique_ids b → NoDup (id <$> concat b).
Proof.
  intros [Hr Hc] Hu. apply NoDup_alt. intros i j x Hi Hj.
  apply list_lookup_fmap_Some in Hi as (y & -> & Hy).
  apply list_lookup_fmap_Some in Hj as (z & Hid & Hz).
  rewrite concat_mjoin in Hy, Hz.
  apply (join_lookup_Some_same_length GRID_COLS) in Hy as (r & row_ & c & Hrow & Hcell & ->);
    [|done].
  apply (join_lookup_Some_same_length GRID_COLS) in Hz as (r' & row' & c' & Hrow' & Hcell' & ->);
    [|done].
  destruct (Hu r c r' c' y z) as [-> ->]; [| |done..].
  - unfold cellAt. by rewrite Hrow.
  - unfold cellAt. by rewrite Hrow'.
Qed.

(** [findById] finds a cell of the board, or nothing. *)
Lemma findById_spec b x :
  board_shape b →
  ∃ o, findById b x = Ok o ∧ ∀ cell, o = Some cell → on_board b cell.
Proof.
  intros Hb. unfold findById.
  apply (for_up_spec (λ _ (o : option Cell), ∀ cell, o = Some cell → on_board b cell)).
  - done.
  - intros r o Hr Ho.
    apply (for_up_spec (λ _ (o : option Cell), ∀ cell, o = Some cell → on_board b cell));
      [done|].
    intros c o' Hc Ho'.
    destruct (board_shape_lookup b r c Hb) as [cell Hcell]; [lia | lia |].
    rewrite Hcell. cbn [defined obind]. case_bool_decide.
    + eexists. split; [done|]. intros ? [= <-]. by exists r, c.
    + eexists. split; [done|]. done.
Qed.

Lemma around_spec b r0 c0 :
  board_shape b →
  ∃ cells, around b r0 c0 = Ok cells ∧ ∀ t, t ∈ cells → on_board b t.
Proof.
  intros Hb. unfold around.
  apply (for_each_spec (λ _ (acc : list Cell), ∀ t, t ∈ acc → on_board b t)).
  - intros t Ht. by apply elem_of_nil in Ht.
  - intros _ r _ acc _ Hacc.
    apply (for_each_spec (λ _ (acc : list Cell), ∀ t, t ∈ acc → on_board b t)); [done|].
    intros _ c _ acc' _ Hacc'.
    destruct (in_grid r c) eqn:Hg; [|by eexists].
    destruct (in_grid_defined b r c Hb Hg) as [cell Hcell]. rewrite Hcell.
    cbn [defined obind]. eexists. split; [done|].
    intros t Ht. apply elem_of_app in Ht as [Ht|Ht]; [by apply Hacc'|].
    apply list_elem_of_singleton in Ht as ->.
    apply cellAtZ_Some in Hcell as (_ & _ & Hcell). by eexists _, _.
Qed.

Lemma rand_index_lt d n : 0 < n → rand_index d n < n.
Proof.
  intros Hn. unfold rand_index. destruct (n =? 0) eqn:E.
  - apply Nat.eqb_eq in E. lia.
  - apply Nat.mod_upper_bound. lia.
Qed.

(** The blast of a special cell of the board is made of cells of the board. *)
Lemma getSpecialBlastTargets_spec b cell g :
  board_shape b → coords_ok b → on_board b cell →
  ∃ targets g', getSpecialBlastTargets b cell g = Ok (targets, g') ∧
    ∀ t, t ∈ targets → on_board b t.
Proof.
  intros Hb Hco (r & c & Hcell).
  destruct (Hco _ _ _ Hcell) as [Hrow Hcol].
  destruct (cellAt_lt _ _ _ _ Hb Hcell) as [Hr Hc].
  unfold getSpecialBlastTargets. destruct (special cell).
  - eexists _, _. split; [done|]. intros t Ht. by apply elem_of_nil in Ht.
  - match goal with |- context [for_up GRID_COLS 0 ?body ?s] =>
      destruct (for_up_spec (λ _ (acc : list Cell), ∀ t, t ∈ acc → on_board b t)
                  body GRID_COLS 0 s) as (targets & -> & Ht)
    end.
    + intros t Ht. by apply elem_of_nil in Ht.
    + intros k acc Hk Hacc. rewrite Hrow, cellAtZ_of_nat.
      destruct (board_shape_lookup b r k Hb) as [y Hy]; [lia | lia |].
      rewrite Hy. cbn [defined obind]. eexists. split; [done|].
      intros t Ht. apply elem_of_app in Ht as [Ht|Ht]; [by apply Hacc|].
      apply list_elem_of_singleton in Ht as ->. by exists r, k.
    + cbn [obind]. by eexists _, _.
  - match goal with |- context [for_up GRID_ROWS 0 ?body ?s] =>
      destruct (for_up_spec (λ _ (acc : list Cell), ∀ t, t ∈ acc → on_board b t)
                  body GRID_ROWS 0 s) as (targets & -> & Ht)
    end.
    + intros t Ht. by apply elem_of_nil in Ht.
    + intros k acc Hk Hacc. rewrite Hcol, cellAtZ_of_nat.
      destruct (board_shape_lookup b k c Hb) as [y Hy]; [lia | lia |].
      rewrite Hy. cbn [defined obind]. eexists. split; [done|].
      intros t Ht. apply elem_of_app in Ht as [Ht|Ht]; [by apply Hacc|].
      apply list_elem_of_singleton in Ht as ->. by exists k, c.
    + cbn [obind]. by eexists _, _.
  - destruct (around_spec b (row cell) (col cell) Hb) as (cells & -> & Hcells).
    cbn [obind]. by eexists _, _.
  - match goal with |- context [for_up 5 0 ?body ?s] =>
      destruct (for_up_spec
        (λ _ '((acc, _) : list Cell * Rng), ∀ t, t ∈ acc → on_board b t)
        body 5 0 s) as ([targets g'] & -> & Ht)
    end.
    + intros t Ht. by apply elem_of_nil in Ht.
    + intros k [acc g0] Hk Hacc. cbn [random].
      destruct (board_shape_lookup b (rand_index (g0 0) GRID_ROWS)
                  (rand_index (g0 1) GRID_COLS) Hb) as [y Hy];
        [apply rand_index_lt; unfold GRID_ROWS; lia
        |apply rand_index_lt; unfold GRID_COLS; lia|].
      rewrite Hy. cbn [defined obind]. eexists. split; [done|].
      intros t Ht. apply elem_of_app in Ht as [Ht|Ht]; [by apply Hacc|].
      apply list_elem_of_singleton in Ht as ->. by eexists _, _.
    + by eexists _, _.
Qed.

Lemma foldl_collect (P : Cell → bool) (l : list Cell) (s : list string) :
  NoDup s →
  NoDup (foldl (λ ids cell, if P cell then set_add (id cell) ids else ids) s l) ∧
  ∀ x, x ∈ foldl (λ ids cell, if P cell then set_add (id cell) ids else ids) s l
       ↔ x ∈ s ∨ ∃ cell, cell ∈ l ∧ P cell = true ∧ id cell = x.
Proof.
  revert s. induction l as [|y l IH]; intros s Hs; simpl.
  - split; [done|]. intros x. split; [by left|]. intros [?|(c & Hc & _)]; [done|].
    by apply elem_of_nil in Hc.
  - destruct (P y) eqn:Py.
    + destruct (IH (set_add (id y) s) (NoDup_set_add _ _ Hs)) as [Hnd Hel].
      split; [done|]. intros x. rewrite Hel, elem_of_set_add. split.
      * intros [[-> |?]|(c & Hc & Pc & Hid)]; [right; exists y | by left | right; exists c];
          (split_and!; [by constructor | done..]).
      * intros [?|(c & Hc & Pc & Hid)]; [left; by right|].
        apply elem_of_cons in Hc as [-> |Hc]; [left; by left|]. right. by exists c.
    + destruct (IH s Hs) as [Hnd Hel]. split; [done|]. intros x. rewrite Hel. split.
      * intros [?|(c & Hc & Pc & Hid)]; [by left|]. right. exists c.
        split_and!; [by constructor | done..].
      * intros [?|(c & Hc & Pc & Hid)]; [by left|].
        apply elem_of_cons in Hc as [-> |Hc]; [congruence|]. right. by exists c.
Qed.

Section Saturated.
Variable b : Board.
Hypothesis b_shape : board_shape b.
Hypothesis b_coords : coords_ok b.
Hypothesis all_matched : ∀ y, on_board b y → status y = MATCHED.

(** The matched set of a board whose cells are all [MATCHED]: every
    identifier of the board, once. *)
Lemma collectMatched_all :
  ∃ ids, collectMatched b = Ok ids ∧ NoDup ids ∧ ∀ x, x ∈ ids ↔ x ∈ id <$> concat b.
Proof.
  unfold collectMatched.
  destruct (findMatches_runs b b_shape) as (ids0 & -> & Hnd0 & Hids0). cbn [obind].
  destruct (foldl_collect (λ cell, bool_decide (status cell = MATCHED)) (concat b) ids0 Hnd0)
    as [Hnd Hel].
  eexists. split; [done|]. split; [done|].
  intros x. rewrite Hel, list_elem_of_fmap. split.
  - intros [Hx|(c & Hc & _ & <-)]; [|by exists c].
    apply Hids0 in Hx as (r & c & cell & Hcell & <- & _). exists cell. split; [done|].
    apply on_board_concat. by exists r, c.
  - intros (c & -> & Hc). right. exists c. split; [done|]. split; [|done].
    apply bool_decide_eq_true. apply all_matched. by apply on_board_concat.
Qed.

(** With every identifier matched already, a blast adds nothing. *)
Lemma blast_adds_nothing (matchedIds queue : list string) (targets : list Cell) (g : Rng) :
  (∀ t, t ∈ targets → id t ∈ matchedIds) →
  foldl (λ '(queue, matchedIds, g) t,
           if negb (set_has matchedIds (id t))
           then (queue ++ [id t], set_add (id t) matchedIds, skip_draws 15 g)
           else (queue, matchedIds, g))
    (queue, matchedIds, g) targets = (queue, matchedIds, g).
Proof.
  induction targets as [|t targets IH]; intros Hin; [done|]. simpl.
  assert (Ht : set_has matchedIds (id t) = true).
  { apply set_has_true. apply Hin. by left. }
  rewrite Ht. simpl. apply IH. intros t' Ht'. apply Hin. by right.
Qed.

Lemma expand_step_saturated soundEnabled audio x queue matchedIds processed trig g :
  (∀ y, on_board b y → id y ∈ matchedIds) →
  ∃ processed' trig' g',
    expand_step soundEnabled audio b (x :: queue, matchedIds, processed, trig, g)
      = Ok (queue, matchedIds, processed', trig', g').
Proof.
  intros Hall. unfold expand_step.
  destruct (findById_spec b x b_shape) as (o & -> & Ho). cbn [obind].
  destruct o as [cell|]; [|by eexists _, _, _].
  destruct (bool_decide (special cell ≠ NONE) && negb (set_has processed (id cell)));
    [|by eexists _, _, _].
  destruct (getSpecialBlastTargets_spec b cell g b_shape b_coords (Ho cell eq_refl))
    as (targets & g' & -> & Ht).
  cbn [obind]. rewrite blast_adds_nothing; [by eexists _, _, _|].
  intros t Hin. apply Hall. by apply Ht.
Qed.

(** The expansion leaves the matched set of such a board as it is. *)
Lemma matchedSet_all fuel soundEnabled audio g :
  GRID_ROWS * GRID_COLS < fuel →
  ∃ ids trig g', matchedSet fuel soundEnabled audio b g = Ok (ids, trig, g') ∧
    NoDup ids ∧ ∀ x, x ∈ ids ↔ x ∈ id <$> concat b.
Proof.
  intros Hfuel. unfold matchedSet.
  destruct collectMatched_all as (ids & -> & Hnd & Hids). cbn [obind]. cbv zeta.
  assert (Hlen : length ids ≤ GRID_ROWS * GRID_COLS).
  { rewrite <- (board_shape_cells b b_shape), <- (length_fmap id (concat b)).
    apply submseteq_length, NoDup_submseteq; [done|]. intros x. apply Hids. }
  match goal with |- context [while_loop fuel ?cond ?body ?s] =>
    destruct (while_loop_spec
      (λ st : ExpandState, st.1.1.1.2 = ids)
      (λ st : ExpandState, length st.1.1.1.1) cond body fuel s)
      as ([[[[queue' ids'] processed'] trig'] g'] & -> & Hinv & _)
  end.
  - done.
  - simpl. lia.
  - intros [[[[queue m] processed] trig] g0] Hm. simpl in Hm. subst m.
    eexists. split; [done|]. intros Hq.
    destruct queue as [|x queue]; [done|].
    destruct (expand_step_saturated soundEnabled audio x queue ids processed trig g0)
      as (processed' & trig' & g' & ->).
    { intros y Hy. apply Hids. apply list_elem_of_fmap. exists y. split; [done|].
      by apply on_board_concat. }
    eexists. split; [done|]. simpl. split; [done | lia].
  - simpl in Hinv. subst ids'. cbn [obind]. by eexists _, _, _.
Qed.
End Saturated.

(** ** Two wildcards swapped *)

Lemma handleSwap_two_rainbows soundEnabled audio b combo pos1 pos2 cell1 cell2 g :
  board_shape b → unique_ids b → coords_ok b →
  cellAtZ b (prow pos1) (pcol pos1) = Some cell1 →
  cellAtZ b (prow pos2) (pcol pos2) = Some cell2 →
  special cell1 = RAINBOW → special cell2 = RAINBOW →
  ∃ activeBoard,
    handleSwap soundEnabled audio b combo pos1 pos2 g
      = Ok (Resolve activeBoard combo None, skip_draws audio g) ∧
    board_shape activeBoard ∧ unique_ids activeBoard ∧ coords_ok activeBoard ∧
    (∀ y, on_board activeBoard y → status y = MATCHED).
Proof.
  intros Hb Hu Hco H1 H2 S1 S2. unfold handleSwap. rewrite board_copy.
  rewrite H1, H2. cbn [defined obind].
  apply cellAtZ_Some in H1 as (Hr1 & Hc1 & H1). apply cellAtZ_Some in H2 as (Hr2 & Hc2 & H2).
  destruct (cellAt_lt _ _ _ _ Hb H1) as [Hlr1 Hlc1].
  destruct (cellAt_lt _ _ _ _ Hb H2) as [Hlr2 Hlc2].
  unfold setCellZ.
  destruct (cellAt_setCell b (Z.to_nat (prow pos1)) (Z.to_nat (pcol pos1))
              (placed cell2 pos1 SWAPPING) Hb Hlr1 Hlc1) as (t1 & -> & Hb1 & Ht1).
  cbn [obind].
  destruct (cellAt_setCell t1 (Z.to_nat (prow pos2)) (Z.to_nat (pcol pos2))
              (placed cell1 pos2 SWAPPING) Hb1 Hlr2 Hlc2) as (t2 & -> & Hb2 & Ht2).
  cbn [obind]. rewrite S1, S2. rewrite !bool_decide_eq_true_2 by done.
  cbn [andb obind]. rewrite board_copy.
  eexists. split; [done|].
  assert (Hcell : ∀ r c y, cellAt (map (map (with_status MATCHED)) t2) r c = Some y →
            ∃ y0 r0 c0, cellAt b r0 c0 = Some y0 ∧ id y = id y0 ∧ status y = MATCHED ∧
              row y = Z.of_nat r ∧ col y = Z.of_nat c ∧
              ((r = Z.to_nat (prow pos2) ∧ c = Z.to_nat (pcol pos2) ∧
                  r0 = Z.to_nat (prow pos1) ∧ c0 = Z.to_nat (pcol pos1)) ∨
               (¬ (r = Z.to_nat (prow pos2) ∧ c = Z.to_nat (pcol pos2)) ∧
                  r = Z.to_nat (prow pos1) ∧ c = Z.to_nat (pcol pos1) ∧
                  r0 = Z.to_nat (prow pos2) ∧ c0 = Z.to_nat (pcol pos2)) ∨
               (¬ (r = Z.to_nat (prow pos2) ∧ c = Z.to_nat (pcol pos2)) ∧
                  ¬ (r = Z.to_nat (prow pos1) ∧ c = Z.to_nat (pcol pos1)) ∧
                  r0 = r ∧ c0 = c))).
  { intros r c y. rewrite cellAt_map, Ht2, Ht1.
    destruct (decide (r = Z.to_nat (prow pos2) ∧ c = Z.to_nat (pcol pos2))) as [[-> ->]|N2].
    - intros [= <-]. exists cell1, (Z.to_nat (prow pos1)), (Z.to_nat (pcol pos1)).
      simpl. split; [exact H1|]. split; [reflexivity|]. split; [reflexivity|].
      split; [lia|]. split; [lia|]. left. tauto.
    - destruct (decide (r = Z.to_nat (prow pos1) ∧ c = Z.to_nat (pcol pos1))) as [[-> ->]|N1].
      + intros [= <-]. exists cell2, (Z.to_nat (prow pos2)), (Z.to_nat (pcol pos2)).
        simpl. split; [exact H2|]. split; [reflexivity|]. split; [reflexivity|].
        split; [lia|]. split; [lia|]. right. left. tauto.
      + intros Hy. apply fmap_Some in Hy as (y0 & Hy0 & ->).
        exists y0, r, c. destruct (Hco _ _ _ Hy0).
        simpl. split; [exact Hy0|]. split; [reflexivity|]. split; [reflexivity|].
        split; [tauto|]. split; [tauto|]. right. right. tauto. }
  split_and!.
  - by apply board_shape_map.
  - intros r c r' c' x y Hx Hy Hid.
    destruct (Hcell _ _ _ Hx) as (x0 & rx & cx & Hx0 & Hidx & _ & _ & _ & Hsx).
    destruct (Hcell _ _ _ Hy) as (y0 & ry & cy & Hy0 & Hidy & _ & _ & _ & Hsy).
    destruct (Hu rx cx ry cy x0 y0 Hx0 Hy0) as [Er Ec]; [congruence|].
    generalize dependent (Z.to_nat (prow pos1)). generalize dependent (Z.to_nat (pcol pos1)).
    generalize dependent (Z.to_nat (prow pos2)). generalize dependent (Z.to_nat (pcol pos2)).
    intros. clear -Er Ec Hsx Hsy. lia.
  - intros r c y Hy. destruct (Hcell _ _ _ Hy) as (_ & _ & _ & _ & _ & _ & ? & ? & _). done.
  - intros y (r & c & Hy). destruct (Hcell _ _ _ Hy) as (_ & _ & _ & _ & _ & ? & _). done.
Qed.

(** The scoring step never fails on a board. *)
Lemma scoreBoard_total fuel b matchedIds combo level target g :
  board_shape b → GRID_ROWS * GRID_COLS < fuel →
  ∃ sc g', scoreBoard fuel b matchedIds combo level target g = Ok (sc, g').
Proof.
  intros Hb Hfuel. unfold scoreBoard.
  destruct (findMatches_runs b Hb) as (ids & -> & _ & _). cbn [obind].
  destruct (getConnectedGroups_spec b ids fuel Hb Hfuel)
    as (groups & -> & (_ & Hne & _) & _). cbn [obind].
  match goal with |- context [for_each groups ?body ?s] =>
    destruct (for_each_spec (λ _ (_ : ScoreState), True) body groups s)
      as ([[[gems pts] log] g'] & -> & _)
  end.
  - done.
  - intros done_ group rest_ [[[gems pts] log] g0] Hgroups _.
    assert (Hg : group ≠ []).
    { apply Hne. rewrite Hgroups. apply elem_of_app. right. by left. }
    unfold score_group.
    destruct (lookup_lt_is_Some_2 group (length group / 2)) as [center ->].
    { destruct group; [done|]. simpl length. apply Nat.div_lt; lia. }
    cbn [defined obind].
    destruct (chooseCandidate_defined group target Hg) as [cand ->].
    cbn [defined obind]. case_bool_decide; by eexists.
  - cbn [obind]. by eexists _, _.
Qed.

(** C9.  On every board, the swap of two cells that both carry the special
    [RAINBOW] ends in a call of [resolveBoard] on a board whose cells are all
    [MATCHED]; the matched set of the resolution pass on that board holds the
    identifier of every cell and its size is [GRID_ROWS * GRID_COLS], 64.
    The two positions need not be adjacent for it. *)
Theorem two_rainbows_clear_board (soundEnabled : bool) (audio fuel : nat) (b : Board)
    (combo : Z) (pos1 pos2 : Position) (cell1 cell2 : Cell) (g : Rng) :
  board_shape b → unique_ids b → coords_ok b →
  GRID_ROWS * GRID_COLS < fuel →
  cellAtZ b (prow pos1) (pcol pos1) = Some cell1 →
  cellAtZ b (prow pos2) (pcol pos2) = Some cell2 →
  special cell1 = RAINBOW → special cell2 = RAINBOW →
  ∃ activeBoard g1,
    handleSwap soundEnabled audio b combo pos1 pos2 g
      = Ok (Resolve activeBoard combo None, g1) ∧
    board_shape activeBoard ∧
    (∀ r c y, cellAt activeBoard r c = Some y → status y = MATCHED) ∧
    ∀ currentLevel g2, ∃ pass g3,
      resolvePass fuel soundEnabled audio currentLevel activeBoard combo None g2
        = Ok (Some pass, g3) ∧
      set_size (p_matchedIds pass) = GRID_ROWS * GRID_COLS ∧
      (∀ r c y, cellAt activeBoard r c = Some y → id y ∈ p_matchedIds pass).
Proof.
  intros Hb Hu Hco Hfuel H1 H2 S1 S2.
  destruct (handleSwap_two_rainbows soundEnabled audio b combo pos1 pos2 cell1 cell2 g
              Hb Hu Hco H1 H2 S1 S2) as (activeBoard & Hswap & Hab & Hau & Haco & Hall).
  exists activeBoard, (skip_draws audio g). split; [done|]. split; [done|]. split.
  - intros r c y Hy. apply Hall. by exists r, c.
  - intros currentLevel g2. unfold resolvePass.
    destruct (matchedSet_all activeBoard Hab Haco Hall fuel soundEnabled audio g2 Hfuel)
      as (ids & trig & g3 & -> & Hnd & Hids). cbn [obind].
    assert (Hsize : set_size ids = GRID_ROWS * GRID_COLS).
    { unfold set_size. rewrite <- (board_shape_cells activeBoard Hab).
      rewrite <- (length_fmap id (concat activeBoard)).
      apply Permutation_length, NoDup_Permutation; [done | by apply unique_ids_NoDup | done]. }
    rewrite Hsize. change (0 <? GRID_ROWS * GRID_COLS) with true. cbv iota.
    destruct (scoreBoard_total fuel activeBoard ids combo currentLevel None g3 Hab Hfuel)
      as (sc & g4 & ->). cbn [obind].
    destruct (map_board_fx _ activeBoard g4) as [matchedBoard g5].
    eexists _, _. split; [done|]. simpl. split; [done|].
    intros r c y Hy. apply Hids. apply list_elem_of_fmap. exists y. split; [done|].
    apply on_board_concat. by exists r, c.
Qed.

(** ** Checking the invariants of a given board *)

Lemma unique_ids_of_NoDup b :
  board_shape b → NoDup (id <$> concat b) → unique_ids b.
Proof.
  intros [Hr Hc] Hnd r c r' c' x y Hx Hy Hid.
  unfold cellAt in Hx, Hy.
  destruct (b !! r) as [row_|] eqn:Er; [|done].
  destruct (b !! r') as [row'|] eqn:Er'; [|done]. simpl in Hx, Hy.
  pose proof (lookup_lt_Some _ _ _ Hx) as Hlt.
  pose proof (lookup_lt_Some _ _ _ Hy) as Hlt'.
  rewrite Forall_forall in Hc.
  rewrite (Hc row_ (list_elem_of_lookup_2 _ _ _ Er)) in Hlt.
  rewrite (Hc row' (list_elem_of_lookup_2 _ _ _ Er')) in Hlt'.
  assert (Hi : (id <$> concat b) !! (r * GRID_COLS + c) = Some (id x)).
  { apply list_lookup_fmap_Some. exists x. split; [done|]. rewrite concat_mjoin.
    apply join_lookup_Some_same_length'; [by apply Forall_forall | done |]. by exists row_. }
  assert (Hj : (id <$> concat b) !! (r' * GRID_COLS + c') = Some (id x)).
  { rewrite Hid. apply list_lookup_fmap_Some. exists y. split; [done|]. rewrite concat_mjoin.
    apply join_lookup_Some_same_length'; [by apply Forall_forall | done |]. by exists row'. }
  pose proof (NoDup_lookup _ _ _ _ Hnd Hi Hj) as Heq.
  unfold GRID_COLS in *. split; nia.
Qed.

Lemma coords_ok_check b : board_shape b → coords_okb b = true → coords_ok b.
Proof.
  intros Hb Hchk r c x Hx. destruct (cellAt_lt _ _ _ _ Hb Hx) as [Hr Hc].
  unfold coords_okb in Hchk. rewrite forallb_forall in Hchk.
  specialize (Hchk r). rewrite in_seq in Hchk. specialize (Hchk ltac:(lia)).
  rewrite forallb_forall in Hchk. specialize (Hchk c). rewrite in_seq in Hchk.
  specialize (Hchk ltac:(lia)). rewrite Hx in Hchk. by apply bool_decide_eq_true in Hchk.
Qed.

Lemma in_run_cell b r c : in_run b r c → is_Some (cellAt b r c).
Proof.
  intros [(c0 & len & t & [_ Hrun] & Hc)|(r0 & len & t & [_ Hrun] & Hr)].
  - destruct (Hrun c Hc) as (x & -> & _). done.
  - destruct (Hrun r Hr) as (x & -> & _). done.
Qed.

(** ** The sample boards *)

Lemma four_run_board_shape : board_shape four_run_board.
Proof. split; [reflexivity | repeat constructor]. Qed.

Lemma four_run_board_ids : unique_ids four_run_board.
Proof.
  apply unique_ids_of_NoDup; [apply four_run_board_shape|].
  apply (bool_decide_unpack _). vm_compute. exact I.
Qed.

Lemma four_run_board_coords : coords_ok four_run_board.
Proof. apply coords_ok_check; [apply four_run_board_shape | vm_compute; reflexivity]. Qed.

Lemma four_run_board_run : hrun four_run_board 0 0 4 GemType.GREEN.
Proof.
  split; [lia|]. intros k Hk.
  assert (k = 0 ∨ k = 1 ∨ k = 2 ∨ k = 3) as Hcases by lia.
  destruct Hcases as [-> | [-> | [-> | ->]]]; eexists; split; reflexivity.
Qed.

Lemma four_run_board_only r c :
  in_run four_run_board r c → r = 0 ∧ 0 ≤ c < 0 + 4.
Proof.
  intros Hin. destruct (in_run_cell _ _ _ Hin) as [x Hx].
  destruct (findMatches_runs four_run_board four_run_board_shape) as (ids & Hfm & _ & Hids).
  assert (Hid : id x ∈ ids) by (apply Hids; by exists r, c, x).
  vm_compute in Hfm. injection Hfm as <-.
  assert (∀ k y, cellAt four_run_board 0 k = Some y → id y = id x → r = 0 ∧ c = k) as Hpos.
  { intros k y Hy Heq.
    destruct (four_run_board_ids 0 k r c y x Hy Hx Heq) as [<- <-]. done. }
  rewrite !elem_of_cons, elem_of_nil in Hid.
  destruct Hid as [Hid | [Hid | [Hid | [Hid | []]]]].
  - destruct (Hpos 0 _ eq_refl) as [-> ->]; [by rewrite Hid | lia].
  - destruct (Hpos 1 _ eq_refl) as [-> ->]; [by rewrite Hid | lia].
  - destruct (Hpos 2 _ eq_refl) as [-> ->]; [by rewrite Hid | lia].
  - destruct (Hpos 3 _ eq_refl) as [-> ->]; [by rewrite Hid | lia].
Qed.

Lemma four_run_ids_on_board x :
  x ∈ four_run_ids → ∃ y, on_board four_run_board y ∧ id y = x.
Proof.
  unfold four_run_ids. rewrite !elem_of_cons, elem_of_nil.
  intros [-> | [-> | [-> | [-> | []]]]].
  - eexists. split; [by exists 0, 0 | reflexivity].
  - eexists. split; [by exists 0, 1 | reflexivity].
  - eexists. split; [by exists 0, 2 | reflexivity].
  - eexists. split; [by exists 0, 3 | reflexivity].
Qed.

Lemma hole_board_shape : board_shape hole_board.
Proof. split; [reflexivity | repeat constructor]. Qed.

Lemma rainbow_board_shape : board_shape rainbow_board.
Proof. split; [reflexivity | repeat constructor]. Qed.

Lemma rainbow_board_ids : unique_ids rainbow_board.
Proof.
  apply unique_ids_of_NoDup; [apply rainbow_board_shape|].
  apply (bool_decide_unpack _). vm_compute. exact I.
Qed.

Lemma rainbow_board_coords : coords_ok rainbow_board.
Proof. apply coords_ok_check; [apply rainbow_board_shape | vm_compute; reflexivity]. Qed.

(** ** Sample runs *)

Lemma applyGravity_keeps_survivors_witness :
  ∃ res g', applyGravity hole_board initial_types initial_rng = Ok (res, g') ∧
    ∀ c, c < GRID_COLS →
      ∃ fresh surv,
        column (newBoard res) c = fresh ++ surv ∧
        length fresh = GRID_ROWS - length (filter occupied (column hole_board c)) ∧
        Forall (λ x, status x = DROPPING) fresh ∧
        length surv = length (filter occupied (column hole_board c)) ∧
        Forall2 same_token (filter occupied (column hole_board c)) surv ∧
        (∀ i x, filter occupied (column hole_board c) !! i = Some x →
           ∃ y, column (newBoard res) c !! (length fresh + i) = Some y ∧ same_token x y) ∧
        length (filter occupied (column (newBoard res) c)) = GRID_ROWS.
Proof.
  apply (applyGravity_keeps_survivors hole_board initial_types initial_rng).
  split; [reflexivity | repeat constructor].
Defined.

Lemma findMatches_exact_witness :
  ∃ ids, findMatches four_run_board = Ok ids ∧ NoDup ids ∧
    (∀ x, x ∈ ids ↔ ∃ r c cell, cellAt four_run_board r c = Some cell ∧ id cell = x ∧
                      in_run four_run_board r c) ∧
    (∀ r c cell, cellAt four_run_board r c = Some cell → in_run four_run_board r c →
       id cell ∈ ids) ∧
    (unique_ids four_run_board → ∀ r c cell, cellAt four_run_board r c = Some cell →
       id cell ∈ ids → in_run four_run_board r c).
Proof.
  apply (findMatches_exact four_run_board).
  split; [reflexivity | repeat constructor].
Defined.

Lemma applyGravity_fills_board_witness :
  ∃ res g', applyGravity hole_board initial_types initial_rng = Ok (res, g') ∧
    board_shape (newBoard res) ∧
    (∀ r c x, cellAt (newBoard res) r c = Some x →
       status x ≠ MATCHED ∧ status x ≠ EMPTY) ∧
    (movesDetected res = true ↔
       ∃ r c x, cellAt hole_board r c = Some x ∧ (status x = MATCHED ∨ status x = EMPTY)).
Proof.
  apply (applyGravity_fills_board hole_board initial_types initial_rng).
  split; [reflexivity | repeat constructor].
Defined.

Lemma getConnectedGroups_partition_witness :
  ∃ groups, getConnectedGroups 65 four_run_board four_run_ids = Ok groups ∧
    (∀ x, x ∈ four_run_ids →
       ∃ i g, groups !! i = Some g ∧ x ∈ id <$> g ∧
         ∀ j g', groups !! j = Some g' → x ∈ id <$> g' → j = i) ∧
    NoDup (id <$> concat groups) ∧
    (∀ x, x ∈ id <$> concat groups → x ∈ four_run_ids) ∧
    (∀ g x y, g ∈ groups → x ∈ g → y ∈ g → type x = type y).
Proof.
  apply (getConnectedGroups_partition 65 four_run_board four_run_ids).
  - split; [reflexivity | repeat constructor].
  - unfold GRID_ROWS, GRID_COLS. lia.
  - exact four_run_ids_on_board.
Defined.


Lemma two_rainbows_clear_board_witness :
  ∃ activeBoard g1,
    handleSwap true 0 rainbow_board 0 rainbow_left rainbow_right initial_rng
      = Ok (Resolve activeBoard 0 None, g1) ∧
    board_shape activeBoard ∧
    (∀ r c y, cellAt activeBoard r c = Some y → status y = MATCHED) ∧
    ∀ currentLevel g2, ∃ pass g3,
      resolvePass 65 true 0 currentLevel activeBoard 0 None g2 = Ok (Some pass, g3) ∧
      set_size (p_matchedIds pass) = GRID_ROWS * GRID_COLS ∧
      (∀ r c y, cellAt activeBoard r c = Some y → id y ∈ p_matchedIds pass).
Proof.
  eapply (two_rainbows_clear_board true 0 65 rainbow_board 0 rainbow_left rainbow_right).
  - split; [reflexivity | repeat constructor].
  - exact rainbow_board_ids.
  - exact rainbow_board_coords.
  - unfold GRID_ROWS, GRID_COLS. lia.
  - reflexivity.
  - reflexivity.
  - reflexivity.
  - reflexivity.
Defined.

(* ===================================================================== *)
(** * Part IV.  Further properties of the engine                          *)
(* ===================================================================== *)

(** Beyond the claims C1 to C10: the levels, the generation of a board, the
    tools, the swaps, the resolution pass and its cascade, the groups and
    the input handlers. *)

Lemma getLevelConfig_cases (l : Z) :
  (l = 1 ∧ getLevelConfig l = LevelConfig.mk 1 1000 10 None "Tutorial: Score 1000 pts in 10 moves!")%Z ∨
  (l = 2 ∧ getLevelConfig l = LevelConfig.mk 2 3000 15 None "Score 3000 pts in 15 moves.")%Z ∨
  (l = 3 ∧ getLevelConfig l = LevelConfig.mk 3 6000 20 None "Score 6000 pts in 20 moves.")%Z ∨
  (l = 4 ∧ getLevelConfig l = LevelConfig.mk 4 12000 25 None "Challenge: 12,000 pts in 25 moves!")%Z ∨
  (l = 5 ∧ getLevelConfig l = LevelConfig.mk 5 25000 30 None "Master: 25,000 pts in 30 moves!")%Z ∨
  ((l < 1 ∨ 5 < l) ∧
   getLevelConfig l =
     LevelConfig.mk l (25000 + 10000 * (l - 4)) (30 + (l - 4) * 2) None
       ("Endless Mode: Level " +:+ pretty l))%Z.
Proof.
  unfold getLevelConfig, LEVELS. cbn [find LevelConfig.level].
  repeat (case_bool_decide; [subst; tauto|]).
  do 5 right. split; [lia|reflexivity].
Qed.



Lemma slice_take {A} (xs : list A) (n : nat) :
  n ≤ length xs → slice xs 0 (Z.of_nat n) = take n xs.
Proof.
  intros Hn. unfold slice. 
  replace (0 <? 0)%Z with false by reflexivity.
  replace (Z.of_nat n <? 0)%Z with false by (symmetry; apply Z.ltb_ge; lia).
  rewrite Z.min_l by lia. rewrite Z.min_l by lia.
  replace (Z.to_nat (Z.of_nat n - 0)) with n by lia. done.
Qed.

Lemma take_GEM_TYPES n :
  3 ≤ n ≤ 8 →
  NoDup (take n GEM_TYPES_ARRAY) ∧ (GemType.RAINBOW ∉ take n GEM_TYPES_ARRAY) ∧
  length (take n GEM_TYPES_ARRAY) = n.
Proof.
  intros Hn.
  assert (H : n = 3 ∨ n = 4 ∨ n = 5 ∨ n = 6 ∨ n = 7 ∨ n = 8) by lia.
  destruct H as [->|[->|[->|[->|[->| ->]]]]];
    (split; [apply (bool_decide_unpack _); vm_compute; exact I|]);
    (split; [apply (bool_decide_unpack _); vm_compute; exact I | reflexivity]).
Qed.

Lemma getGemTypesForLevel_take (level : Z) (customCount : option Z) :
  ∃ n, 3 ≤ n ≤ 8 ∧ getGemTypesForLevel level customCount = take n GEM_TYPES_ARRAY ∧
    (level = 1%Z → ∀ k, customCount = Some k → k ≠ 0%Z →
       n = Z.to_nat (Z.max 3 (Z.min 8 k))).
Proof.
  unfold getGemTypesForLevel.
  destruct customCount as [k|].
  - destruct (decide (level = 1%Z)) as [->|Hl].
    + destruct (decide (k = 0%Z)) as [->|Hk].
      * exists 5. split; [lia|]. split; [reflexivity|]. intros _ k [= <-]. done.
      * rewrite bool_decide_eq_true_2 by done.
        rewrite (bool_decide_eq_false_2 (k = 0%Z)) by done. cbn [andb negb].
        exists (Z.to_nat (Z.max 3 (Z.min 8 k))). split; [lia|]. split.
        -- rewrite <- slice_take by (cbn; lia). f_equal. lia.
        -- intros _ k' [= <-] _. done.
    + rewrite (bool_decide_eq_false_2 (level = 1%Z)) by done. cbn [andb].
      repeat case_bool_decide; try done.
      * exists 6. split; [lia|]. split; [reflexivity|]. done.
      * exists 7. split; [lia|]. split; [reflexivity|]. done.
      * exists 8. split; [lia|]. split; [reflexivity|]. done.
  - repeat case_bool_decide.
    + exists 5. split; [lia|]. split; [reflexivity|]. done.
    + exists 6. split; [lia|]. split; [reflexivity|]. done.
    + exists 7. split; [lia|]. split; [reflexivity|]. done.
    + exists 8. split; [lia|]. split; [reflexivity|]. done.
Qed.

(** X2.  For every level and every custom count, [getGemTypesForLevel] returns
    the first [n] types of [GEM_TYPES_ARRAY] for some [n] from 3 to 8: the
    list is never empty, holds no type twice and never holds [RAINBOW]; at
    level 1 a non-zero custom count is clamped into 3..8, a negative one
    included. *)
Theorem getGemTypesForLevel_prefix (level : Z) (customCount : option Z) :
  ∃ n, 3 ≤ n ≤ 8 ∧
    getGemTypesForLevel level customCount = take n GEM_TYPES_ARRAY ∧
    length (getGemTypesForLevel level customCount) = n ∧
    NoDup (getGemTypesForLevel level customCount) ∧
    (GemType.RAINBOW ∉ getGemTypesForLevel level customCount) ∧
    (level = 1%Z → ∀ k, customCount = Some k → k ≠ 0%Z →
       n = Z.to_nat (Z.max 3 (Z.min 8 k))).
Proof.
  destruct (getGemTypesForLevel_take level customCount) as (n & Hn & -> & Hk).
  destruct (take_GEM_TYPES n Hn) as (Hnd & Hr & Hlen).
  exists n. done.
Qed.

(** ** The 3x3 window: [getBombAffectedCells], [activateBomb] *)

Lemma for_each_collect {A} (P : A → bool) (f : A → option Cell) (xs : list A)
    (acc : list Cell) :
  (∀ x, x ∈ xs → P x = true → is_Some (f x)) →
  for_each xs (λ x acc, if P x then let* cell := defined (f x) in Ok (acc ++ [cell])
                        else Ok acc) acc
  = Ok (acc ++ omap (λ x, if P x then f x else None) xs).
Proof.
  revert acc. induction xs as [|x xs IH]; intros acc Hdef; simpl.
  - by rewrite app_nil_r.
  - destruct (P x) eqn:HP.
    + destruct (Hdef x) as [cell Hcell]; [by left | done |]. rewrite Hcell.
      cbn [defined obind]. rewrite IH.
      * by rewrite <- app_assoc.
      * intros y Hy. apply Hdef. by right.
    + cbn [obind]. apply IH. intros y Hy. apply Hdef. by right.
Qed.

Lemma omap_window_row b r (cs : list Z) :
  omap (λ c, if in_grid r c then cellAtZ b r c else None) cs
  = omap (λ '(r, c), if in_grid r c then cellAtZ b r c else None) (c ← cs; [(r, c)]).
Proof.
  induction cs as [|c cs IH]; [done|].
  rewrite bind_cons. cbn [app omap list_omap]. rewrite <- IH.
  destruct (in_grid r c); [destruct (cellAtZ b r c)|]; done.
Qed.

Lemma around_cells b r0 c0 :
  board_shape b → around b r0 c0 = Ok (cells_in b (window r0 c0)).
Proof.
  intros Hb. unfold around, cells_in, window.
  generalize (seqZ (c0 - 1) 3) as cs. generalize (seqZ (r0 - 1) 3) as rs.
  intros rs cs.
  enough (H : ∀ acc,
    for_each rs (λ r acc,
      for_each cs (λ c acc, if in_grid r c
                            then let* cell := defined (cellAtZ b r c) in Ok (acc ++ [cell])
                            else Ok acc) acc) acc
    = Ok (acc ++ omap (λ '(r, c), if in_grid r c then cellAtZ b r c else None)
                   (r ← rs; c ← cs; [(r, c)]))) by apply (H []).
  induction rs as [|r rs IH]; intros acc.
  - simpl. by rewrite app_nil_r.
  - cbn [for_each].
    rewrite (for_each_collect (λ c, in_grid r c) (λ c, cellAtZ b r c));
      [|intros c _ Hg; by apply in_grid_defined].
    cbn [obind]. rewrite IH. f_equal. rewrite bind_cons, omap_app, app_assoc.
    by rewrite omap_window_row.
Qed.

Lemma elem_of_window r0 c0 r c :
  (r, c) ∈ window r0 c0 ↔ (r0 - 1 ≤ r ≤ r0 + 1)%Z ∧ (c0 - 1 ≤ c ≤ c0 + 1)%Z.
Proof.
  unfold window. rewrite list_elem_of_bind. split.
  - intros (r' & Hin & Hr'). apply list_elem_of_bind in Hin as (c' & Hin & Hc').
    apply list_elem_of_singleton in Hin as [= -> ->].
    apply elem_of_seqZ in Hr', Hc'. lia.
  - intros [Hr Hc]. exists r. split; [|apply elem_of_seqZ; lia].
    apply list_elem_of_bind. exists c. split; [by apply list_elem_of_singleton|].
    apply elem_of_seqZ. lia.
Qed.

Lemma elem_of_cells_in_window b r0 c0 cell :
  board_shape b →
  cell ∈ cells_in b (window r0 c0) ↔
  ∃ r c, cellAt b r c = Some cell ∧ near (mkPosition r0 c0) r c.
Proof.
  intros Hb. unfold cells_in. rewrite list_elem_of_omap. split.
  - intros ([r c] & Hin & Hcell). apply elem_of_window in Hin as [Hr Hc].
    destruct (in_grid r c) eqn:Hg; [|done].
    apply cellAtZ_Some in Hcell as (H0r & H0c & Hcell).
    exists (Z.to_nat r), (Z.to_nat c). split; [done|]. unfold near. simpl. lia.
  - intros (r & c & Hcell & [Hr Hc]). simpl in Hr, Hc.
    exists (Z.of_nat r, Z.of_nat c). split; [apply elem_of_window; lia|].
    destruct (cellAt_lt _ _ _ _ Hb Hcell) as [Hlr Hlc].
    rewrite in_grid_of_nat by done. by rewrite cellAtZ_of_nat.
Qed.

Lemma length_cells_in_product b (rs cs : list Z) :
  board_shape b →
  length (cells_in b (r ← rs; c ← cs; [(r, c)]))
  = length (filter (λ r, 0 ≤ r < Z.of_nat GRID_ROWS)%Z rs)
    * length (filter (λ c, 0 ≤ c < Z.of_nat GRID_COLS)%Z cs).
Proof.
  intros Hb. unfold cells_in.
  assert (Hrow : ∀ r, length (omap (λ '(r, c), if in_grid r c then cellAtZ b r c else None)
                               (c ← cs; [(r, c)]))
                      = if decide (0 ≤ r < Z.of_nat GRID_ROWS)%Z
                        then length (filter (λ c, 0 ≤ c < Z.of_nat GRID_COLS)%Z cs) else 0).
  { intros r. induction cs as [|c cs IH].
    - by destruct (decide _).
    - rewrite bind_cons, omap_app, length_app, IH. clear IH. rewrite filter_cons.
      cbn [omap list_omap].
      destruct (in_grid r c) eqn:Hg.
      + destruct (in_grid_defined b r c Hb Hg) as [y ->].
        apply in_grid_spec in Hg. unfold GRID_ROWS, GRID_COLS in *.
        rewrite !decide_True by lia. done.
      + assert (¬ ((0 ≤ r < Z.of_nat GRID_ROWS)%Z ∧ (0 ≤ c < Z.of_nat GRID_COLS)%Z)).
        { intros [? ?]. assert (in_grid r c = true); [|congruence].
          apply in_grid_spec. unfold GRID_ROWS, GRID_COLS in *. lia. }
        destruct (decide (0 ≤ r < _)%Z); [|done].
        rewrite decide_False by tauto. done. }
  induction rs as [|r rs IH]; [done|].
  rewrite bind_cons, omap_app, length_app, IH, Hrow, filter_cons.
  destruct (decide _); simpl; lia.
Qed.

Lemma span_bounds (x : Z) (n : nat) :
  let k := length (filter (λ r, 0 ≤ r < Z.of_nat n)%Z (seqZ (x - 1) 3)) in
  k ≤ 3 ∧ (2 ≤ n → (0 ≤ x < Z.of_nat n)%Z → 2 ≤ k) ∧
  ((1 ≤ x < Z.of_nat n - 1)%Z → k = 3).
Proof.
  assert (Hs : seqZ (x - 1) 3 = [x - 1; x; x + 1]%Z).
  { unfold seqZ. simpl.
    assert (H3 : ∀ a b c a' b' c' : Z, a = a' → b = b' → c = c' → [a; b; c] = [a'; b'; c'])
      by (intros; subst; done).
    apply H3; lia. }
  rewrite Hs. cbv zeta. rewrite !filter_cons, filter_nil.
  repeat destruct (decide _); simpl; lia.
Qed.

Lemma length_window b r0 c0 :
  board_shape b →
  let k := length (cells_in b (window r0 c0)) in
  k ≤ 9 ∧ (in_grid r0 c0 = true → 4 ≤ k) ∧
  ((1 ≤ r0 < 7)%Z → (1 ≤ c0 < 7)%Z → k = 9).
Proof.
  intros Hb. unfold window. cbv zeta. rewrite length_cells_in_product by done.
  destruct (span_bounds r0 GRID_ROWS) as (Hr1 & Hr2 & Hr3).
  destruct (span_bounds c0 GRID_COLS) as (Hc1 & Hc2 & Hc3).
  cbv zeta in *. unfold GRID_ROWS, GRID_COLS in *.
  split; [nia|]. split.
  - intros Hg. apply in_grid_spec in Hg. unfold GRID_ROWS, GRID_COLS in *.
    specialize (Hr2 ltac:(lia) ltac:(lia)). specialize (Hc2 ltac:(lia) ltac:(lia)). nia.
  - intros Hr Hc. rewrite Hr3, Hc3 by lia. done.
Qed.

Lemma getBombAffectedCells_window_aux (b : Board) (center : Position) :
  board_shape b →
  ∃ ids, getBombAffectedCells b center = Ok ids ∧
    (∀ x, x ∈ ids ↔ ∃ r c cell, cellAt b r c = Some cell ∧ id cell = x ∧ near center r c).
Proof.
  intros Hb. unfold getBombAffectedCells. rewrite around_cells by done. cbn [obind].
  eexists. split; [done|].
  intros x. rewrite list_elem_of_fmap. destruct center as [r0 c0]. split.
  - intros (cell & -> & Hin). apply elem_of_cells_in_window in Hin as (r & c & ? & ?); [|done].
    by exists r, c, cell.
  - intros (r & c & cell & Hcell & <- & Hn). exists cell. split; [done|].
    apply elem_of_cells_in_window; [done|]. by exists r, c.
Qed.

(** X3.  On every board [getBombAffectedCells] returns, for every centre, on
    the grid or off it, the identifiers of the cells whose slot is within one
    step of the centre, diagonals included: at most 9, at least 4 when the
    centre is on the grid, exactly 9 when it is not on the border. *)
Theorem getBombAffectedCells_window (b : Board) (center : Position) :
  board_shape b →
  ∃ ids, getBombAffectedCells b center = Ok ids ∧
    (∀ x, x ∈ ids ↔ ∃ r c cell, cellAt b r c = Some cell ∧ id cell = x ∧ near center r c) ∧
    length ids ≤ 9 ∧
    (in_grid (prow center) (pcol center) = true → 4 ≤ length ids) ∧
    ((1 ≤ prow center < 7)%Z → (1 ≤ pcol center < 7)%Z → length ids = 9).
Proof.
  intros Hb. unfold getBombAffectedCells. rewrite around_cells by done. cbn [obind].
  eexists. split; [done|]. rewrite length_map.
  destruct (length_window b (prow center) (pcol center) Hb) as (H1 & H2 & H3).
  split; [|done]. intros x. rewrite list_elem_of_fmap. destruct center as [r0 c0]. split.
  - intros (cell & -> & Hin). apply elem_of_cells_in_window in Hin as (r & c & ? & ?); [|done].
    by exists r, c, cell.
  - intros (r & c & cell & Hcell & <- & Hn). exists cell. split; [done|].
    apply elem_of_cells_in_window; [done|]. by exists r, c.
Qed.

Lemma map_board_fx_board (f : Cell → Cell * nat) b g :
  (map_board_fx f b g).1 = map (map (λ c, (f c).1)) b.
Proof. done. Qed.

(** X4.  [activateBomb] does nothing without a bomb in the inventory.  With
    one, on a board with unique identifiers, it uses one bomb, marks
    [MATCHED] exactly the cells within one step of the centre, and leaves
    every other cell as it was. *)
Theorem activateBomb_marks_window (soundEnabled : bool) (audio : nat)
    (inventory : Inventory.t) (b : Board) (centerPos : Position) (g : Rng) :
  board_shape b → unique_ids b →
  ((Inventory.BOMB inventory ≤ 0)%Z →
     activateBomb soundEnabled audio inventory b centerPos g = Ok (ToolIgnored, g)) ∧
  ((0 < Inventory.BOMB inventory)%Z →
     ∃ tempBoard g',
       activateBomb soundEnabled audio inventory b centerPos g
         = Ok (ToolUsed (Inventory.mk (Inventory.BOMB inventory - 1)
                           (Inventory.REFRESH inventory)) tempBoard, g') ∧
       board_shape tempBoard ∧
       ∀ r c x, cellAt b r c = Some x →
         cellAt tempBoard r c
         = Some (if bool_decide (near centerPos r c) then with_status MATCHED x else x)).
Proof.
  intros Hb Hu. unfold activateBomb. split.
  - intros Hle. by rewrite bool_decide_eq_true_2.
  - intros Hlt. rewrite bool_decide_eq_false_2 by lia.
    destruct (getBombAffectedCells_window_aux b centerPos Hb) as (ids & -> & Hids).
    cbn [obind]. unfold map_board_fx. eexists _, _. split; [reflexivity|].
    split; [by apply board_shape_map|].
    intros r c x Hx. rewrite cellAt_map, Hx. cbn [fmap option_fmap option_map]. f_equal.
    case_bool_decide as Hn.
    + rewrite (proj2 (set_has_true _ _)); [done|].
      apply elem_of_set_of, Hids. by exists r, c, x.
    + rewrite (proj2 (set_has_false _ _)); [done|].
      rewrite elem_of_set_of, Hids. intros (r' & c' & y & Hy & Hid & Hn').
      destruct (Hu _ _ _ _ _ _ Hy Hx Hid) as [-> ->]. done.
Qed.

(** ** [getSpecialBlastTargets] *)

Lemma for_up_collect (f : nat → option Cell) (l : list Cell) n i acc :
  length l = n → (∀ j, j < n → f (i + j) = l !! j) →
  for_up n i (λ k targets, let* t := defined (f k) in Ok (targets ++ [t])) acc
  = Ok (acc ++ l).
Proof.
  revert i acc l. induction n as [|n IH]; intros i acc l Hlen Hf.
  - destruct l; [|done]. simpl. by rewrite app_nil_r.
  - destruct l as [|x l]; [done|]. cbn [for_up].
    specialize (Hf 0 ltac:(lia)) as H0. rewrite Nat.add_0_r in H0. rewrite H0.
    cbn [lookup list_lookup defined obind].
    rewrite (IH (S i) (acc ++ [x]) l).
    + by rewrite <- app_assoc.
    + simpl in Hlen. lia.
    + intros j Hj. specialize (Hf (S j) ltac:(lia)).
      by replace (S i + j) with (i + S j) by lia.
Qed.

Lemma getSpecialBlastTargets_row b cell g r row_ :
  board_shape b → special cell = ROW_BLAST → row cell = Z.of_nat r → b !! r = Some row_ →
  getSpecialBlastTargets b cell g = Ok (row_, g).
Proof.
  intros [Hr Hc] Hs Hrow Hlook. unfold getSpecialBlastTargets. rewrite Hs.
  rewrite (for_up_collect (λ c, cellAtZ b (row cell) (Z.of_nat c)) row_).
  - done.
  - rewrite Forall_forall in Hc. apply Hc. by eapply list_elem_of_lookup_2.
  - intros j _. rewrite Hrow, cellAtZ_of_nat. unfold cellAt. by rewrite Hlook.
Qed.

Lemma getSpecialBlastTargets_col b cell g c :
  board_shape b → special cell = COL_BLAST → col cell = Z.of_nat c → c < GRID_COLS →
  getSpecialBlastTargets b cell g = Ok (column b c, g).
Proof.
  intros Hb Hs Hcol Hc. unfold getSpecialBlastTargets. rewrite Hs.
  rewrite (for_up_collect (λ r, cellAtZ b (Z.of_nat r) (col cell)) (column b c)).
  - done.
  - by apply column_length.
  - intros j _. rewrite Hcol, cellAtZ_of_nat. by rewrite column_lookup.
Qed.

Lemma getSpecialBlastTargets_rainbow b cell g :
  board_shape b → special cell = RAINBOW →
  ∃ targets, getSpecialBlastTargets b cell g = Ok (targets, skip_draws 10 g) ∧
    length targets = 5 ∧
    ∀ i, i < 5 →
      targets !! i = cellAt b (rand_index (g (2 * i)) GRID_ROWS)
                       (rand_index (g (2 * i + 1)) GRID_COLS).
Proof.
  intros Hb Hs. unfold getSpecialBlastTargets. rewrite Hs.
  assert (Hdef : ∀ d1 d2, is_Some (cellAt b (rand_index d1 GRID_ROWS) (rand_index d2 GRID_COLS))).
  { intros d1 d2. apply board_shape_lookup; [done| |]; apply rand_index_lt;
      unfold GRID_ROWS, GRID_COLS; lia. }
  cbn [for_up random].
  destruct (Hdef (g 0) (g 1)) as [t0 H0]. rewrite H0. cbn [defined obind app].
  destruct (Hdef (g 2) (g 3)) as [t1 H1]. rewrite H1. cbn [defined obind app].
  destruct (Hdef (g 4) (g 5)) as [t2 H2]. rewrite H2. cbn [defined obind app].
  destruct (Hdef (g 6) (g 7)) as [t3 H3]. rewrite H3. cbn [defined obind app].
  destruct (Hdef (g 8) (g 9)) as [t4 H4]. rewrite H4. cbn [defined obind app].
  exists [t0; t1; t2; t3; t4]. split; [reflexivity|]. split; [reflexivity|].
  intros i Hi. destruct i as [|[|[|[|[|i]]]]]; simpl; try done. lia.
Qed.


(** ** Loops: what a run that returned has kept *)

Lemma for_down_inv {St} (I : nat → St → Prop) body n (s s' : St) :
  for_down n body s = Ok s' →
  I n s →
  (∀ k s s', k < n → I (S k) s → body k s = Ok s' → I k s') →
  I 0 s'.
Proof.
  revert s. induction n as [|n IH]; intros s Hrun Hs Hstep.
  - by injection Hrun as <-.
  - cbn [for_down] in Hrun. destruct (body n s) as [s1| |] eqn:E; try done.
    cbn [obind] in Hrun. eapply IH; [exact Hrun| |].
    + eapply Hstep; [|exact Hs|exact E]. lia.
    + intros k t t' Hk. apply Hstep. lia.
Qed.

Lemma for_each_inv {A St} (I : list A → St → Prop) body (xs : list A) (s s' : St) :
  for_each xs body s = Ok s' →
  I [] s →
  (∀ done_ x rest s s', xs = done_ ++ x :: rest → I done_ s → body x s = Ok s' →
     I (done_ ++ [x]) s') →
  I xs s'.
Proof.
  intros Hrun Hs Hstep.
  enough (H : ∀ done_ rest s, xs = done_ ++ rest → I done_ s →
                for_each rest body s = Ok s' → I xs s') by (eapply (H [] xs); eauto).
  intros done_ rest. revert done_. induction rest as [|x rest IH]; intros done_ t Hxs Ht Hr.
  - injection Hr as <-. by rewrite Hxs, app_nil_r.
  - cbn [for_each] in Hr. destruct (body x t) as [t1| |] eqn:E; try done.
    cbn [obind] in Hr. apply (IH (done_ ++ [x]) t1).
    + by rewrite <- app_assoc.
    + by eapply Hstep.
    + done.
Qed.

Lemma while_loop_inv {St} (I : St → Prop) cond body fuel (s s' : St) :
  while_loop fuel cond body s = Ok s' →
  I s →
  (∀ s s', I s → cond s = Ok true → body s = Ok s' → I s') →
  I s' ∧ cond s' = Ok false.
Proof.
  revert s. induction fuel as [|fuel IH]; intros s Hrun Hs Hstep; [done|].
  cbn [while_loop] in Hrun. destruct (cond s) as [[]| |] eqn:Ec; try done; cbn [obind] in Hrun.
  - destruct (body s) as [s1| |] eqn:Eb; try done. cbn [obind] in Hrun.
    eapply IH; [exact Hrun| |done]. by eapply Hstep.
  - by injection Hrun as <-.
Qed.

(** ** [applyGravity]: logical coordinates, and the board without a vacant
    slot *)

Lemma setCell_inv b r c v b' :
  board_shape b → r < GRID_ROWS → c < GRID_COLS → setCell b r c v = Ok b' →
  board_shape b' ∧
  ∀ r' c', cellAt b' r' c' = if decide (r' = r ∧ c' = c) then Some v else cellAt b r' c'.
Proof.
  intros Hb Hr Hc Hset.
  destruct (cellAt_setCell b r c v Hb Hr Hc) as (b2 & Hset' & H1 & H2).
  rewrite Hset in Hset'. by injection Hset' as <-.
Qed.

Lemma coords_ok_setCell b r c v b' :
  setCell b r c v = Ok b' →
  board_shape b → coords_ok b → r < GRID_ROWS → c < GRID_COLS →
  row v = Z.of_nat r → col v = Z.of_nat c →
  board_shape b' ∧ coords_ok b'.
Proof.
  intros Hset Hb Hco Hr Hc Hvr Hvc.
  destruct (setCell_inv _ _ _ _ _ Hb Hr Hc Hset) as [Hb' Hlook].
  split; [done|]. intros r' c' x. rewrite Hlook. case_decide as Hd.
  - destruct Hd as [-> ->]. by intros [= <-].
  - apply Hco.
Qed.

Lemma drop_step_coords c r st st' :
  c < GRID_COLS → r < GRID_ROWS →
  (let '(e, cur, _, _) := st in board_shape cur ∧ coords_ok cur ∧ e + S r ≤ GRID_ROWS) →
  drop_step c r st = Ok st' →
  let '(e, cur, _, _) := st' in board_shape cur ∧ coords_ok cur ∧ e + r ≤ GRID_ROWS.
Proof.
  intros Hc Hr. destruct st as [[[e cur] mv] g]. intros (Hb & Hco & He) Hstep.
  unfold drop_step in Hstep.
  destruct (cellAt cur r c) as [cell|] eqn:Hcell; [|done]. cbn [defined obind] in Hstep.
  destruct (Hco _ _ _ Hcell) as [Hrow Hcol].
  destruct (is_vacant (status cell)).
  - destruct (setCell cur r c (with_status EMPTY cell)) as [nb| |] eqn:E1; try done.
    cbn [obind] in Hstep. injection Hstep as <-.
    destruct (coords_ok_setCell _ _ _ _ _ E1 Hb Hco Hr Hc Hrow Hcol)
      as [? ?].
    split_and!; [done | done | lia].
  - destruct (0 <? e) eqn:Epos.
    + match type of Hstep with context [setCell cur (r + e) c ?v] =>
        destruct (setCell cur (r + e) c v) as [nb| |] eqn:E1; try done end.
      cbn [obind random] in Hstep.
      match type of Hstep with context [setCell nb r c ?v] =>
        destruct (setCell nb r c v) as [nb2| |] eqn:E2; try done end.
      cbn [obind] in Hstep. injection Hstep as <-.
      assert (Hre : r + e < GRID_ROWS) by lia.
      destruct (coords_ok_setCell _ _ _ _ _ E1 Hb Hco Hre Hc eq_refl Hcol) as [Hb1 Hco1].
      destruct (coords_ok_setCell _ _ _ _ _ E2 Hb1 Hco1 Hr Hc eq_refl eq_refl) as [Hb2 Hco2].
      split_and!; [done | done | lia].
    + injection Hstep as <-. split_and!; [done | done | lia].
Qed.

Lemma fill_step_coords allowedTypes e c r st st' :
  c < GRID_COLS → r < GRID_ROWS →
  (let '(cur, _, _) := st in board_shape cur ∧ coords_ok cur) →
  fill_step allowedTypes e c r st = Ok st' →
  let '(cur, _, _) := st' in board_shape cur ∧ coords_ok cur.
Proof.
  intros Hc Hr. destruct st as [[cur mv] g]. intros (Hb & Hco) Hstep.
  unfold fill_step in Hstep. cbn [random] in Hstep.
  match type of Hstep with context [setCell cur r c ?v] =>
    destruct (setCell cur r c v) as [nb| |] eqn:E1; try done end.
  cbn [obind] in Hstep. injection Hstep as <-.
  by apply (coords_ok_setCell _ _ _ _ _ E1).
Qed.

Lemma gravity_column_coords allowedTypes c st st' :
  c < GRID_COLS →
  (let '(cur, _, _) := st in board_shape cur ∧ coords_ok cur) →
  gravity_column allowedTypes c st = Ok st' →
  let '(cur, _, _) := st' in board_shape cur ∧ coords_ok cur.
Proof.
  intros Hc. destruct st as [[cur mv] g]. intros [Hb Hco] Hrun.
  unfold gravity_column in Hrun.
  destruct (for_down GRID_ROWS (drop_step c) (0, cur, mv, g)) as [[[[e cur1] mv1] g1]| |] eqn:E;
    try done.
  cbn [obind] in Hrun.
  pose proof (for_down_inv
    (λ k '((e, cur, _, _) : ColState), board_shape cur ∧ coords_ok cur ∧ e + k ≤ GRID_ROWS)
    _ _ _ _ E) as H1. cbv beta iota in H1.
  destruct H1 as (Hb1 & Hco1 & He1).
  - split_and!; [done | done | lia].
  - intros k s s' Hk Hs Hstep. by eapply (drop_step_coords c k s s').
  - pose proof (for_up_inv
      (λ _ '((cur, _, _) : Board * bool * Rng), board_shape cur ∧ coords_ok cur)
      _ _ _ _ _ Hrun) as H2. apply H2.
    + done.
    + intros k s s' Hk Hs Hstep. eapply (fill_step_coords allowedTypes e c k s s'); [done| |done|done].
      lia.
Qed.

Lemma applyGravity_coords_inv b allowedTypes g res g' :
  board_shape b → coords_ok b →
  applyGravity b allowedTypes g = Ok (res, g') →
  board_shape (newBoard res) ∧ coords_ok (newBoard res).
Proof.
  intros Hb Hco Hrun. unfold applyGravity in Hrun. rewrite board_copy in Hrun.
  destruct (for_up GRID_COLS 0 (gravity_column allowedTypes) (b, false, g))
    as [[[nb mv] g1]| |] eqn:E; try done.
  cbn [obind] in Hrun. injection Hrun as <- <-. simpl.
  pose proof (for_up_inv
    (λ _ '((cur, _, _) : Board * bool * Rng), board_shape cur ∧ coords_ok cur)
    _ _ _ _ _ E) as H. apply H; [done|].
  intros k s s' Hk Hs Hstep. eapply (gravity_column_coords allowedTypes k s s'); [lia|done|done].
Qed.

(** X6.  [applyGravity] keeps the logical coordinates right: on a board whose
    cells carry the coordinates of their slots, every cell of the returned
    board does too, the dropped cells and the freshly generated ones
    included. *)
Theorem applyGravity_keeps_coords (b : Board) (allowedTypes : list GemType.t) (g : Rng) :
  board_shape b → coords_ok b →
  ∃ res g', applyGravity b allowedTypes g = Ok (res, g') ∧
    board_shape (newBoard res) ∧ coords_ok (newBoard res).
Proof.
  intros Hb Hco.
  destruct (applyGravity_spec b allowedTypes g Hb) as (res & g' & Hrun & _).
  exists res, g'. split; [done|]. by eapply applyGravity_coords_inv.
Qed.

Lemma applyGravity_full b allowedTypes g :
  board_shape b → (∀ r c x, cellAt b r c = Some x → occupied x) →
  applyGravity b allowedTypes g = Ok (mkGravityResult b false, g).
Proof.
  intros Hb Hocc. unfold applyGravity. rewrite board_copy.
  destruct (for_up_spec (λ _ (st : Board * bool * Rng), st = (b, false, g))
              (gravity_column allowedTypes) GRID_COLS 0 (b, false, g)) as (st & -> & ->).
  - done.
  - intros c st Hc ->. exists (b, false, g). split; [|done].
    unfold gravity_column.
    destruct (for_down_spec (λ _ (st : ColState), st = (0, b, false, g))
                (drop_step c) GRID_ROWS (0, b, false, g)) as (st & -> & ->).
    + done.
    + intros r st Hr ->. exists (0, b, false, g). split; [|done].
      unfold drop_step.
      destruct (board_shape_lookup b r c Hb) as [x Hx]; [lia..|].
      rewrite Hx. cbn [defined obind]. rewrite (Hocc _ _ _ Hx). done.
    + done.
  - done.
Qed.

(** X7.  On a board without a [MATCHED] or [EMPTY] cell [applyGravity] is the
    identity: it returns the board as it is, with [movesDetected] false, and
    draws no random number. *)
Theorem applyGravity_full_board (b : Board) (allowedTypes : list GemType.t) (g : Rng) :
  board_shape b →
  (∀ r c x, cellAt b r c = Some x → status x ≠ MATCHED ∧ status x ≠ EMPTY) →
  applyGravity b allowedTypes g = Ok (mkGravityResult b false, g).
Proof.
  intros Hb Hocc. apply applyGravity_full; [done|].
  intros r c x Hx. destruct (Hocc _ _ _ Hx) as [H1 H2].
  unfold occupied, is_vacant. by rewrite !bool_decide_eq_false_2.
Qed.

(** ** [createInitialBoard]: the cells it makes *)

Lemma do_while_body {St} fuel body cond (s s' : St) :
  do_while fuel body cond s = Ok s' → ∃ s0, body s0 = Ok s'.
Proof.
  revert s. induction fuel as [|fuel IH]; intros s; simpl; [done|].
  intros H. apply obind_Ok in H as (s1 & H1 & H).
  apply obind_Ok in H as (b & Hb & H). destruct b.
  - by eapply IH.
  - injection H as <-. by exists s.
Qed.

Lemma pick_type_drawn fuel allowedTypes board row_ r c g ty g' :
  pick_type fuel allowedTypes board row_ r c g = Ok (ty, g') →
  ∃ d, ty = allowedTypes !! rand_index d (length allowedTypes).
Proof.
  intros H. unfold pick_type in H. apply do_while_body in H as ([ty0 g0] & H).
  cbn [random] in H. injection H as <- _. by eexists.
Qed.

Lemma lookup_rand_index (allowedTypes : list GemType.t) d :
  allowedTypes ≠ [] →
  ∃ t, allowedTypes !! rand_index d (length allowedTypes) = Some t ∧ t ∈ allowedTypes.
Proof.
  intros Hne.
  destruct (lookup_lt_is_Some_2 allowedTypes (rand_index d (length allowedTypes))) as [t Ht].
  - apply rand_index_lt. destruct allowedTypes; [done|]. simpl. lia.
  - exists t. split; [done|]. by eapply list_elem_of_lookup_2.
Qed.

Lemma createInitialBoard_cells fuel allowedTypes g b g' :
  createInitialBoard fuel allowedTypes g = Ok (b, g') →
  ∀ r c x, cellAt b r c = Some x → initial_cell allowedTypes r c x.
Proof.
  intros Hrun.
  assert (Hne : allowedTypes ≠ []).
  { intros ->. by rewrite createInitialBoard_empty_stuck in Hrun. }
  unfold createInitialBoard in Hrun.
  apply (for_up_inv
    (λ r '(board, _), length board = r ∧
       ∀ r' c x, cellAt board r' c = Some x → initial_cell allowedTypes r' c x)) in Hrun.
  - apply Hrun.
  - split; [done|]. intros r' c x H. done.
  - clear Hrun. intros r [board g0] [board' g1] _ (Hlen & Hcells) Hbody.
    apply obind_Ok in Hbody as ([row_ g2] & Hrow & [= <- <-]).
    apply (for_up_inv
      (λ c '(row_, _), length row_ = c ∧
         ∀ c' x, row_ !! c' = Some x → initial_cell allowedTypes r c' x)) in Hrow.
    + destruct Hrow as (Hrlen & Hrow). split.
      * rewrite length_app. simpl. lia.
      * intros r' c x Hx.
        pose proof (cellAt_Some_row_lt _ _ _ _ Hx) as Hlt.
        rewrite length_app in Hlt. simpl in Hlt.
        destruct (decide (r' = length board)) as [->|Hn].
        -- rewrite cellAt_app_r in Hx. rewrite Hlen. by apply Hrow.
        -- rewrite cellAt_app_l in Hx by lia. by apply Hcells.
    + split; [done|]. intros c' x H. done.
    + clear Hrow. intros c [row0 g3] [row1 g4] _ (Hrlen & Hrow) Hbody.
      apply obind_Ok in Hbody as ([ty g5] & Hpick & Hbody).
      destruct (random g5) as [d g6]. injection Hbody as <- <-.
      apply pick_type_drawn in Hpick as [d0 ->].
      destruct (lookup_rand_index allowedTypes d0 Hne) as (t & Ht & Hin).
      split.
      * rewrite length_app. simpl. lia.
      * intros c' x Hx.
        pose proof (lookup_lt_Some _ _ _ Hx) as Hlt.
        rewrite length_app in Hlt. simpl in Hlt.
        destruct (decide (c' = length row0)) as [->|Hn].
        -- rewrite list_lookup_middle in Hx by done. injection Hx as <-.
           rewrite Hrlen. unfold initial_cell. simpl. split_and!; try done.
           exists t. done.
        -- rewrite lookup_app_l in Hx by lia. by apply Hrow.
Qed.

(** X8.  Every cell of a board that [createInitialBoard] returns is at rest on
    its slot: its logical and visual coordinates are those of the slot, its
    status is [IDLE], its type is one of the allowed types, and it is special
    only as a [RAINBOW], when that type is allowed. *)
Theorem createInitialBoard_initial_cells (fuel : nat) (allowedTypes : list GemType.t)
    (g g' : Rng) (b : Board) :
  createInitialBoard fuel allowedTypes g = Ok (b, g') →
  coords_ok b ∧
  (∀ r c x, cellAt b r c = Some x → initial_cell allowedTypes r c x) ∧
  (GemType.RAINBOW ∉ allowedTypes →
     ∀ r c x, cellAt b r c = Some x → special x = NONE).
Proof.
  intros Hrun. pose proof (createInitialBoard_cells _ _ _ _ _ Hrun) as Hcells.
  split_and!.
  - intros r c x Hx. destruct (Hcells r c x Hx) as (? & ? & _). done.
  - done.
  - intros Hno r c x Hx.
    destruct (Hcells r c x Hx) as (_ & _ & _ & _ & _ & _ & Hs & t & Ht & Hin).
    rewrite Hs, Ht. unfold special_of_type. rewrite bool_decide_eq_false_2; [done|].
    intros [= ->]. done.
Qed.

Lemma createInitialBoard_initial_cells_witness :
  ∃ b g', createInitialBoard 10 initial_types initial_rng = Ok (b, g') ∧
  coords_ok b ∧
  (∀ r c x, cellAt b r c = Some x → initial_cell initial_types r c x) ∧
  (GemType.RAINBOW ∉ initial_types →
     ∀ r c x, cellAt b r c = Some x → special x = NONE).
Proof.
  eexists _, _. split; [vm_compute; reflexivity|].
  eapply (createInitialBoard_initial_cells 10 initial_types initial_rng).
  vm_compute. reflexivity.
Defined.

(** ** [createInitialBoard] with one type *)

Lemma pick_type_stuck fuel allowedTypes board row_ r c g :
  (∀ d, completes_run board row_ r c
          (allowedTypes !! rand_index d (length allowedTypes)) = Ok true) →
  pick_type fuel allowedTypes board row_ r c g = OutOfFuel.
Proof.
  intros Hall. unfold pick_type.
  generalize (@None GemType.t) at 1. intros ty0. revert ty0 g.
  induction fuel as [|fuel IH]; intros ty0 g; [done|].
  rewrite do_while_S. cbn [obind random]. rewrite Hall. cbn [obind]. apply IH.
Qed.

(** X9.  With a single allowed type [createInitialBoard] never returns: the
    third cell of the first row can only repeat the type of the two cells on
    its left, and the rejection loop never ends, whatever the draws. *)
Theorem createInitialBoard_one_type_diverges (fuel : nat) (t : GemType.t) (g : Rng) :
  createInitialBoard fuel [t] g = OutOfFuel.
Proof.
  unfold createInitialBoard, GRID_ROWS, GRID_COLS.
  destruct fuel as [|fuel]; [done|].
  cbn [for_up obind].
  rewrite pick_type_first_cells by lia. cbn [obind random app].
  rewrite pick_type_first_cells by lia. cbn [obind random app].
  rewrite pick_type_stuck; [done|].
  intros d. unfold completes_run. cbn [Nat.leb length rand_index Nat.eqb].
  rewrite Nat.mod_1_r. cbn [lookup list_lookup Nat.sub defined obind type].
  rewrite !bool_decide_eq_true_2 by done. done.
Qed.

(** ** [createInitialBoard] returns under a fair generator *)

Lemma fair_suffix K n g g' m :
  fair K n g → (∀ k, g' k = g (m + k)) → fair K n g'.
Proof.
  intros Hf Hg m' i1 i2. destruct (Hf (m + m') i1 i2) as (j & Hj & H1 & H2).
  exists j. rewrite Hg. replace (m + (m' + j)) with (m + m' + j) by lia. done.
Qed.

Lemma fair_pos K n g : fair K n g → 0 < n.
Proof.
  intros Hf. destruct (Hf 0 0 0) as (j & _ & H & _).
  destruct n; [|lia]. done.
Qed.

(** The rejection test always answers, and it rejects at most two types: the
    type of the cell on the left and the type of the cell above. *)
Lemma completes_run_rejects board row_ r c :
  length row_ = c → (∀ r', r' < r → is_Some (cellAt board r' c)) →
  ∃ bad1 bad2 : option GemType.t, ∀ ty,
    ∃ b, completes_run board row_ r c ty = Ok b ∧ (b = true → ty = bad1 ∨ ty = bad2).
Proof.
  intros Hlen Hcol. unfold completes_run.
  assert (Hup : ∃ bad2 : option GemType.t, ∀ ty, ∃ b,
    (if 2 <=? r
     then let* c1 := defined (cellAt board (r - 1) c) in
          if bool_decide (type c1 = ty)
          then let* c2 := defined (cellAt board (r - 2) c) in Ok (bool_decide (type c2 = ty))
          else Ok false
     else Ok false) = Ok b ∧ (b = true → ty = bad2)).
  { destruct (2 <=? r) eqn:Er.
    - apply Nat.leb_le in Er.
      destruct (Hcol (r - 1)) as [x1 H1]; [lia|]. destruct (Hcol (r - 2)) as [x2 H2]; [lia|].
      exists (type x1). intros ty. rewrite H1. cbn [defined obind].
      case_bool_decide as E1.
      + rewrite H2. cbn [defined obind]. eexists. split; [done|]. done.
      + by exists false.
    - exists None. intros ty. by exists false. }
  destruct Hup as [bad2 Hup].
  destruct (2 <=? c) eqn:Ec.
  - apply Nat.leb_le in Ec.
    destruct (lookup_lt_is_Some_2 row_ (c - 1)) as [x1 H1]; [lia|].
    destruct (lookup_lt_is_Some_2 row_ (c - 2)) as [x2 H2]; [lia|].
    exists (type x1), bad2. intros ty. rewrite H1. cbn [defined obind].
    case_bool_decide as E1.
    + rewrite H2. cbn [defined obind]. case_bool_decide as E2.
      * exists true. split; [done|]. intros _. by left.
      * destruct (Hup ty) as (b & -> & Hb). exists b. split; [done|]. intros Hbt. right. auto.
    + cbn [obind]. destruct (Hup ty) as (b & -> & Hb). exists b. split; [done|].
      intros Hbt. right. auto.
  - exists None, bad2. intros ty. cbn [obind].
    destruct (Hup ty) as (b & -> & Hb). exists b. split; [done|]. intros Hbt. right. auto.
Qed.

Lemma avoid_index (allowedTypes : list GemType.t) (x : option GemType.t) :
  NoDup allowedTypes →
  ∃ i, ∀ k, k < length allowedTypes → k ≠ i → allowedTypes !! k ≠ x.
Proof.
  intros Hnd. destruct x as [t|].
  - destruct (decide (t ∈ allowedTypes)) as [Hin|Hnin].
    + apply list_elem_of_lookup_1 in Hin as [i Hi]. exists i. intros k _ Hk Hlook.
      apply Hk. by eapply NoDup_lookup.
    + exists 0. intros k _ _ Hlook. apply Hnin. by eapply list_elem_of_lookup_2.
  - exists 0. intros k Hk _ Hlook. apply lookup_ge_None in Hlook. lia.
Qed.

Lemma pick_type_returns K fuel allowedTypes board row_ r c g :
  NoDup allowedTypes → fair K (length allowedTypes) g → K ≤ fuel →
  length row_ = c → (∀ r', r' < r → is_Some (cellAt board r' c)) →
  ∃ ty g' m, pick_type fuel allowedTypes board row_ r c g = Ok (ty, g') ∧
    ∀ k, g' k = g (m + k).
Proof.
  intros Hnd Hfair HK Hlen Hcol.
  destruct (completes_run_rejects board row_ r c Hlen Hcol) as (bad1 & bad2 & Hrej).
  destruct (avoid_index allowedTypes bad1 Hnd) as [i1 Hi1].
  destruct (avoid_index allowedTypes bad2 Hnd) as [i2 Hi2].
  pose proof (fair_pos _ _ _ Hfair) as Hpos.
  destruct (Hfair 0 i1 i2) as (j & Hj & Hj1 & Hj2). simpl in Hj1, Hj2.
  assert (Hjf : j < fuel) by lia. clear Hj HK Hfair.
  unfold pick_type. generalize (@None GemType.t) at 1. intros ty0.
  revert fuel g ty0 Hjf Hj1 Hj2.
  induction j as [|j IH]; intros fuel g ty0 Hjf Hj1 Hj2.
  - destruct fuel as [|fuel]; [lia|]. rewrite do_while_S. cbn [obind random].
    destruct (Hrej (allowedTypes !! rand_index (g 0) (length allowedTypes)))
      as (b & -> & Hb). cbn [obind].
    destruct b.
    + exfalso. pose proof (rand_index_lt (g 0) _ Hpos) as Hlt.
      destruct (Hb eq_refl) as [E|E]; [by eapply Hi1 | by eapply Hi2].
    + eexists _, _, 1. split; [done|]. done.
  - destruct fuel as [|fuel]; [lia|]. rewrite do_while_S. cbn [obind random].
    destruct (Hrej (allowedTypes !! rand_index (g 0) (length allowedTypes)))
      as (b & -> & Hb). cbn [obind].
    destruct b.
    + destruct (IH fuel (λ n, g (S n)) (allowedTypes !! rand_index (g 0) (length allowedTypes)))
        as (ty & g' & m & Hrun & Hg'); [lia | done | done |].
      exists ty, g', (S m). split; [done|]. intros k. by rewrite Hg'.
    + eexists _, _, 1. split; [done|]. done.
Qed.

Lemma createInitialBoard_total K fuel allowedTypes g :
  NoDup allowedTypes → fair K (length allowedTypes) g → K ≤ fuel →
  ∃ b g', createInitialBoard fuel allowedTypes g = Ok (b, g').
Proof.
  intros Hnd Hfair HK. unfold createInitialBoard.
  destruct (for_up_spec
    (λ r '((board, g0) : Board * Rng), length board = r ∧
       Forall (λ row_, length row_ = GRID_COLS) board ∧ fair K (length allowedTypes) g0)
    (λ r '(board, g),
       let* (row_, g) :=
         for_up GRID_COLS 0 (λ c '(row_, g),
           let* (ty, g) := pick_type fuel allowedTypes board row_ r c g in
           let '(d, g) := random g in
           Ok (row_ ++
                 [mkCell ("cell-" +:+ pretty r +:+ "-" +:+ pretty c +:+ "-" +:+ pretty d)
                    ty (special_of_type ty) IDLE
                    (Z.of_nat r) (Z.of_nat c) (Z.of_nat r) (Z.of_nat c) None], g))
           ([], g) in
       Ok (board ++ [row_], g))
    GRID_ROWS 0 ([], g)) as ([b g'] & Hrun & _).
  - split_and!; [done | constructor | done].
  - intros r [board g0] Hr (Hlen & Hcols & Hf).
    match goal with |- context [for_up GRID_COLS 0 ?body ?s] =>
      destruct (for_up_spec
        (λ c '((row_, g1) : list Cell * Rng), length row_ = c ∧ fair K (length allowedTypes) g1)
        body GRID_COLS 0 s) as ([row_ g1] & -> & Hrlen & Hf1)
    end.
    + done.
    + intros c [row0 g1] Hc (Hrlen & Hf1).
      destruct (pick_type_returns K fuel allowedTypes board row0 r c g1 Hnd Hf1 HK Hrlen)
        as (ty & g2 & m & -> & Hg2).
      * intros r' Hr'. unfold cellAt.
        destruct (lookup_lt_is_Some_2 board r') as [rw Hrw]; [lia|]. rewrite Hrw. simpl.
        apply lookup_lt_is_Some_2. rewrite Forall_forall in Hcols.
        rewrite (Hcols rw); [lia|]. by eapply list_elem_of_lookup_2.
      * cbn [obind random]. eexists (_, _). split; [done|]. split.
        -- rewrite length_app. simpl. lia.
        -- apply (fair_suffix K _ g1 _ (m + 1)); [done|]. intros k. rewrite Hg2.
           f_equal. lia.
    + cbn [obind]. eexists (_, _). split; [done|]. split_and!.
      * rewrite length_app. simpl. lia.
      * apply Forall_app. split; [done|]. constructor; [|constructor]. done.
      * done.
  - by exists b, g'.
Qed.

(** X10.  [createInitialBoard] returns whenever the allowed types are distinct
    and the generator is fair for them (among any [K] consecutive draws one
    avoids any two given types, which needs three types at least) and the
    rejection loops may take [K] turns: the board it returns has [GRID_ROWS]
    rows of [GRID_COLS] cells and [findMatches] finds nothing on it. *)
Theorem createInitialBoard_returns (K fuel : nat) (allowedTypes : list GemType.t)
    (g : Rng) :
  NoDup allowedTypes → fair K (length allowedTypes) g → K ≤ fuel →
  ∃ b g', createInitialBoard fuel allowedTypes g = Ok (b, g') ∧
    board_shape b ∧ findMatches b = Ok [].
Proof.
  intros Hnd Hfair HK.
  destruct (createInitialBoard_total K fuel allowedTypes g Hnd Hfair HK) as (b & g' & Hrun).
  exists b, g'. split; [done|].
  apply createInitialBoard_spec in Hrun as (Hshape & Hh & Hv).
  split; [done|].
  destruct (findMatches_runs b Hshape) as (ids & -> & _ & Hids).
  f_equal. destruct ids as [|x ids]; [done|]. exfalso.
  destruct (Hids x) as [(r & c & cell & _ & _ & Hin) _]; [by left|].
  by eapply no_triples_no_run.
Qed.

Lemma initial_rng_fair : fair 3 3 initial_rng.
Proof.
  intros m i1 i2. unfold initial_rng, rand_index. cbn [Nat.eqb].
  assert (Hmod : ∀ j, ((m + j) * 7 + 3) mod 3 = (m + j) mod 3).
  { intros j. replace ((m + j) * 7 + 3) with ((m + j) + (2 * (m + j) + 1) * 3) by lia.
    apply Nat.Div0.mod_add. }
  pose proof (Nat.Div0.div_mod m 3) as Hm.
  pose proof (Nat.mod_upper_bound m 3 ltac:(lia)) as Hlt.
  assert (Hj : ∀ j, (m + j) mod 3 = (m mod 3 + j) mod 3).
  { intros j. rewrite Hm at 1. replace (3 * (m / 3) + m mod 3 + j)
      with ((m mod 3 + j) + (m / 3) * 3) by lia. apply Nat.Div0.mod_add. }
  destruct (m mod 3) as [|[|[|k]]] eqn:E; [| | |lia].
  - destruct (decide (i1 = 0 ∨ i2 = 0)); [destruct (decide (i1 = 1 ∨ i2 = 1))|].
    + exists 2. rewrite Hmod, Hj. simpl. lia.
    + exists 1. rewrite Hmod, Hj. simpl. lia.
    + exists 0. rewrite Hmod, Hj. simpl. lia.
  - destruct (decide (i1 = 0 ∨ i2 = 0)); [destruct (decide (i1 = 1 ∨ i2 = 1))|].
    + exists 1. rewrite Hmod, Hj. simpl. lia.
    + exists 0. rewrite Hmod, Hj. simpl. lia.
    + exists 2. rewrite Hmod, Hj. simpl. lia.
  - destruct (decide (i1 = 0 ∨ i2 = 0)); [destruct (decide (i1 = 1 ∨ i2 = 1))|].
    + exists 0. rewrite Hmod, Hj. simpl. lia.
    + exists 2. rewrite Hmod, Hj. simpl. lia.
    + exists 1. rewrite Hmod, Hj. simpl. lia.
Qed.

Lemma createInitialBoard_returns_witness :
  ∃ b g', createInitialBoard 3 initial_types initial_rng = Ok (b, g') ∧
    board_shape b ∧ findMatches b = Ok [].
Proof.
  apply (createInitialBoard_returns 3 3 initial_types initial_rng).
  - apply (bool_decide_unpack _). vm_compute. exact I.
  - exact initial_rng_fair.
  - lia.
Defined.

(** ** [startLevel] *)

(** X11.  [startLevel] sets up a level that is ready to play.  Under a fair
    generator it returns; the level has no time limit and the moves of its
    configuration, the score and the combo are 0, both tools have 2 uses; the
    board has no run of three, and every cell is [IDLE], not special, and of
    one of the types of the level, never [RAINBOW]. *)
Theorem startLevel_ready (K fuel : nat) (level1GemCount level : Z) (g : Rng) :
  let types :=
    getGemTypesForLevel level (if bool_decide (level = 1%Z) then Some level1GemCount else None) in
  fair K (length types) g → K ≤ fuel →
  ∃ st g', startLevel fuel level1GemCount level g = Ok (st, g') ∧
    ls_currentLevel st = level ∧ ls_score st = 0%Z ∧ ls_combo st = 0%Z ∧
    ls_timeLeft st = None ∧
    ls_movesLeft st = LevelConfig.moves (getLevelConfig level) ∧
    ls_inventory st = Inventory.mk 2 2 ∧ ls_gamePhase st = PLAYING ∧
    board_shape (ls_board st) ∧ findMatches (ls_board st) = Ok [] ∧
    ∀ r c x, cellAt (ls_board st) r c = Some x →
      status x = IDLE ∧ special x = NONE ∧
      ∃ t, type x = Some t ∧ t ∈ types ∧ t ≠ GemType.RAINBOW.
Proof.
  intros types Hfair HK. unfold startLevel. fold types.
  destruct (getGemTypesForLevel_take level
              (if bool_decide (level = 1%Z) then Some level1GemCount else None))
    as (n & Hn & Htypes & _). fold types in Htypes.
  destruct (take_GEM_TYPES n Hn) as (Hnd & Hnr & _). rewrite <- Htypes in Hnd, Hnr.
  destruct (createInitialBoard_total K fuel types g Hnd Hfair HK) as (b & g' & Hrun).
  rewrite Hrun. cbn [obind]. eexists _, _. split; [reflexivity|].
  cbn [ls_currentLevel ls_score ls_combo ls_timeLeft ls_movesLeft ls_inventory
       ls_gamePhase ls_board].
  split_and!; try reflexivity.
  - destruct (getLevelConfig_cases level)
      as [[_ ->]|[[_ ->]|[[_ ->]|[[_ ->]|[[_ ->]|[_ ->]]]]]]; reflexivity.
  - by apply createInitialBoard_spec in Hrun as (? & _).
  - pose proof Hrun as Hrun'.
    apply createInitialBoard_spec in Hrun as (Hshape & Hh & Hv).
    destruct (findMatches_runs b Hshape) as (ids & -> & _ & Hids).
    f_equal. destruct ids as [|x ids]; [done|]. exfalso.
    destruct (Hids x) as [(r & c & cell & _ & _ & Hin) _]; [by left|].
    by eapply no_triples_no_run.
  - intros r c x Hx.
    destruct (createInitialBoard_cells _ _ _ _ _ Hrun r c x Hx)
      as (_ & _ & _ & _ & Hst & _ & Hs & t & Ht & Hin).
    split; [done|]. split.
    + rewrite Hs, Ht. unfold special_of_type. rewrite bool_decide_eq_false_2; [done|].
      intros [= ->]. done.
    + exists t. split_and!; [done | done |]. intros ->. done.
Qed.

Lemma startLevel_ready_witness :
  ∃ st g', startLevel 3 3 1 initial_rng = Ok (st, g') ∧
    ls_currentLevel st = 1%Z ∧ ls_score st = 0%Z ∧ ls_combo st = 0%Z ∧
    ls_timeLeft st = None ∧
    ls_movesLeft st = LevelConfig.moves (getLevelConfig 1) ∧
    ls_inventory st = Inventory.mk 2 2 ∧ ls_gamePhase st = PLAYING ∧
    board_shape (ls_board st) ∧ findMatches (ls_board st) = Ok [] ∧
    ∀ r c x, cellAt (ls_board st) r c = Some x →
      status x = IDLE ∧ special x = NONE ∧
      ∃ t, type x = Some t ∧ t ∈ getGemTypesForLevel 1 (Some 3%Z) ∧ t ≠ GemType.RAINBOW.
Proof.
  apply (startLevel_ready 3 3 3 1 initial_rng).
  - exact initial_rng_fair.
  - lia.
Defined.

(** ** [handleSwap] *)

Lemma board_ext (b b' : Board) :
  board_shape b → board_shape b' →
  (∀ r c, r < GRID_ROWS → c < GRID_COLS → cellAt b' r c = cellAt b r c) → b' = b.
Proof.
  intros [Hr Hc] [Hr' Hc'] Heq. apply list_eq. intros r.
  destruct (decide (r < GRID_ROWS)) as [Hlt|Hge].
  - destruct (lookup_lt_is_Some_2 b r) as [row_ Hrow]; [lia|].
    destruct (lookup_lt_is_Some_2 b' r) as [row' Hrow']; [lia|].
    rewrite Hrow, Hrow'. f_equal. apply list_eq. intros c.
    rewrite Forall_forall in Hc, Hc'.
    pose proof (Hc _ (list_elem_of_lookup_2 _ _ _ Hrow)) as Hl.
    pose proof (Hc' _ (list_elem_of_lookup_2 _ _ _ Hrow')) as Hl'.
    destruct (decide (c < GRID_COLS)) as [Hcl|Hcg].
    + specialize (Heq r c Hlt Hcl). unfold cellAt in Heq. rewrite Hrow, Hrow' in Heq. done.
    + rewrite !lookup_ge_None_2 by lia. done.
  - rewrite !lookup_ge_None_2 by lia. done.
Qed.

Lemma at_slot_to_nat p r c :
  (0 ≤ prow p)%Z → (0 ≤ pcol p)%Z →
  (r = Z.to_nat (prow p) ∧ c = Z.to_nat (pcol p)) ↔ at_slot p r c.
Proof. unfold at_slot. lia. Qed.

(** The two writes of a swap. *)
Lemma swap_cells b pos1 pos2 cell1 cell2 s :
  board_shape b →
  cellAtZ b (prow pos1) (pcol pos1) = Some cell1 →
  cellAtZ b (prow pos2) (pcol pos2) = Some cell2 →
  ∃ t1 temp,
    setCellZ b pos1 (placed cell2 pos1 s) = Ok t1 ∧
    setCellZ t1 pos2 (placed cell1 pos2 s) = Ok temp ∧
    board_shape temp ∧
    (∀ r c, cellAt temp r c =
       if decide (at_slot pos2 r c) then Some (placed cell1 pos2 s)
       else if decide (at_slot pos1 r c) then Some (placed cell2 pos1 s)
       else cellAt b r c).
Proof.
  intros Hb H1 H2.
  apply cellAtZ_Some in H1 as (Hr1 & Hc1 & H1). apply cellAtZ_Some in H2 as (Hr2 & Hc2 & H2).
  destruct (cellAt_lt _ _ _ _ Hb H1) as [Hlr1 Hlc1].
  destruct (cellAt_lt _ _ _ _ Hb H2) as [Hlr2 Hlc2].
  unfold setCellZ.
  destruct (cellAt_setCell b _ _ (placed cell2 pos1 s) Hb Hlr1 Hlc1) as (t1 & E1 & Hb1 & Hl1).
  destruct (cellAt_setCell t1 _ _ (placed cell1 pos2 s) Hb1 Hlr2 Hlc2) as (temp & E2 & Hb2 & Hl2).
  exists t1, temp. split_and!; [done..|].
  intros r c. rewrite Hl2, Hl1.
  destruct (decide (at_slot pos2 r c)) as [Hs2|Hs2].
  - rewrite decide_True; [done|]. by apply at_slot_to_nat.
  - rewrite decide_False; [|by rewrite at_slot_to_nat].
    destruct (decide (at_slot pos1 r c)) as [Hs1|Hs1].
    + rewrite decide_True; [done|]. by apply at_slot_to_nat.
    + rewrite decide_False; [done|]. by rewrite at_slot_to_nat.
Qed.

Lemma cellAtZ_at_slot b p r c :
  at_slot p r c → cellAtZ b (prow p) (pcol p) = cellAt b r c.
Proof. intros [-> ->]. apply cellAtZ_of_nat. Qed.

Lemma cellAtZ_slot b p x :
  cellAtZ b (prow p) (pcol p) = Some x →
  ∃ r c, at_slot p r c ∧ cellAt b r c = Some x.
Proof.
  intros H. apply cellAtZ_Some in H as (Hr & Hc & H).
  exists (Z.to_nat (prow p)), (Z.to_nat (pcol p)). split; [|done]. unfold at_slot. lia.
Qed.

Lemma at_slot_inj p r c r' c' : at_slot p r c → at_slot p r' c' → r = r' ∧ c = c'.
Proof. unfold at_slot. lia. Qed.

Lemma at_slot_same p q r c : at_slot p r c → at_slot q r c → p = q.
Proof. destruct p, q. unfold at_slot. simpl. intros [-> ->] [-> ->]. done. Qed.

Lemma placed_settled cell pos pos' s :
  settled_at pos cell → placed (placed cell pos' s) pos IDLE = cell.
Proof.
  destruct cell. unfold settled_at, placed. simpl.
  intros (-> & -> & -> & -> & ->). done.
Qed.

(** X12.  An invalid swap is undone completely: when [handleSwap] gives the
    swap back, the board it restores is the board it was given, for two
    cells that were at rest on their slots, and no random number has been
    drawn. *)
Theorem handleSwap_revert_restores (soundEnabled : bool) (audio : nat) (b : Board)
    (combo : Z) (pos1 pos2 : Position) (cell1 cell2 : Cell) (g g' : Rng)
    (revertBoard : Board) :
  board_shape b →
  cellAtZ b (prow pos1) (pcol pos1) = Some cell1 →
  cellAtZ b (prow pos2) (pcol pos2) = Some cell2 →
  settled_at pos1 cell1 → settled_at pos2 cell2 →
  handleSwap soundEnabled audio b combo pos1 pos2 g = Ok (Revert revertBoard, g') →
  revertBoard = b ∧ g' = g.
Proof.
  intros Hb H1 H2 S1 S2 Hrun. unfold handleSwap in Hrun.
  rewrite board_copy, H1, H2 in Hrun. cbn [defined obind] in Hrun.
  destruct (swap_cells b pos1 pos2 cell1 cell2 SWAPPING Hb H1 H2)
    as (t1 & temp & E1 & E2 & Hbt & Hlook).
  rewrite E1 in Hrun. cbn [obind] in Hrun. rewrite E2 in Hrun. cbn [obind] in Hrun.
  destruct (bool_decide (special cell1 ≠ NONE) && bool_decide (special cell2 ≠ NONE)).
  { apply obind_Ok in Hrun as ([ab g1] & _ & Hrun). done. }
  destruct (bool_decide (special cell1 = RAINBOW) || bool_decide (special cell2 = RAINBOW)).
  { destruct (map_board_fx _ _ _). done. }
  apply obind_Ok in Hrun as (matches & _ & Hrun).
  destruct (0 <? set_size matches); [done|].
  rewrite board_copy in Hrun.
  destruct (cellAtZ_slot _ _ _ H1) as (r1 & c1 & Hs1 & Hc1).
  destruct (cellAtZ_slot _ _ _ H2) as (r2 & c2 & Hs2 & Hc2).
  pose proof (Hlook r1 c1) as T1. pose proof (Hlook r2 c2) as T2.
  rewrite (decide_True _ _ Hs2) in T2.
  rewrite <- (cellAtZ_at_slot temp pos1 r1 c1 Hs1) in T1.
  rewrite <- (cellAtZ_at_slot temp pos2 r2 c2 Hs2) in T2.
  destruct (cellAtZ temp (prow pos1) (pcol pos1)) as [a1|] eqn:A1; [|by destruct (decide _)].
  rewrite T2 in Hrun. cbn [defined obind] in Hrun.
  destruct (swap_cells temp pos1 pos2 a1 (placed cell1 pos2 SWAPPING) IDLE Hbt A1 T2)
    as (t2 & rb & E3 & E4 & Hbr & Hlook2).
  rewrite E3 in Hrun. cbn [obind] in Hrun. rewrite E4 in Hrun. cbn [obind] in Hrun.
  injection Hrun as <- <-. split; [|done].
  apply board_ext; [done | done |]. intros r c _ _. rewrite Hlook2.
  destruct (decide (at_slot pos2 r c)) as [Hp2|Hp2].
  - destruct (at_slot_inj _ _ _ _ _ Hp2 Hs2) as [-> ->]. rewrite Hc2. f_equal.
    destruct (decide (at_slot pos2 r1 c1)) as [Hsame|Hdiff].
    + injection T1 as ->.
      destruct (at_slot_inj _ _ _ _ _ Hsame Hs2) as [-> ->].
      assert (cell1 = cell2) as -> by congruence.
      by apply placed_settled.
    + rewrite (decide_True _ _ Hs1) in T1. injection T1 as ->.
      by apply placed_settled.
  - destruct (decide (at_slot pos1 r c)) as [Hp1|Hp1].
    + destruct (at_slot_inj _ _ _ _ _ Hp1 Hs1) as [-> ->]. rewrite Hc1. f_equal.
      by apply placed_settled.
    + rewrite Hlook. rewrite decide_False by done. rewrite decide_False by done. done.
Qed.

(** The board invariants across the two writes of a swap. *)
Lemma swap_invariants b temp pos1 pos2 cell1 cell2 s :
  board_shape b → unique_ids b → coords_ok b →
  cellAtZ b (prow pos1) (pcol pos1) = Some cell1 →
  cellAtZ b (prow pos2) (pcol pos2) = Some cell2 →
  (∀ r c, cellAt temp r c =
     if decide (at_slot pos2 r c) then Some (placed cell1 pos2 s)
     else if decide (at_slot pos1 r c) then Some (placed cell2 pos1 s)
     else cellAt b r c) →
  unique_ids temp ∧ coords_ok temp.
Proof.
  intros Hb Hu Hco H1 H2 Hlook.
  destruct (cellAtZ_slot _ _ _ H1) as (r1 & c1 & Hs1 & Hc1).
  destruct (cellAtZ_slot _ _ _ H2) as (r2 & c2 & Hs2 & Hc2).
  assert (Hsrc : ∀ r c x, cellAt temp r c = Some x →
    ∃ r0 c0 x0, cellAt b r0 c0 = Some x0 ∧ id x0 = id x ∧
      row x = Z.of_nat r ∧ col x = Z.of_nat c ∧
      ((r0, c0) = if decide (at_slot pos2 r c) then (r1, c1)
                  else if decide (at_slot pos1 r c) then (r2, c2) else (r, c))).
  { intros r c x Hx. rewrite Hlook in Hx.
    destruct (decide (at_slot pos2 r c)) as [Hp2|Hp2].
    - injection Hx as <-. exists r1, c1, cell1. destruct Hp2 as [? ?]. done.
    - destruct (decide (at_slot pos1 r c)) as [Hp1|Hp1].
      + injection Hx as <-. exists r2, c2, cell2. destruct Hp1 as [? ?]. done.
      + exists r, c, x. destruct (Hco _ _ _ Hx) as [? ?]. done. }
  split.
  - intros r c r' c' x y Hx Hy Hid.
    destruct (Hsrc _ _ _ Hx) as (ra & ca & xa & Hxa & Hida & _ & _ & Hsa).
    destruct (Hsrc _ _ _ Hy) as (rb & cb & xb & Hxb & Hidb & _ & _ & Hsb).
    destruct (Hu _ _ _ _ _ _ Hxa Hxb ltac:(congruence)) as [-> ->].
    rewrite Hsb in Hsa. clear -Hsa Hs1 Hs2.
    unfold at_slot in *.
    repeat destruct (decide _); try (injection Hsa as ? ?); lia.
  - intros r c x Hx. destruct (Hsrc _ _ _ Hx) as (_ & _ & _ & _ & _ & ? & ? & _). done.
Qed.

Lemma invariants_map (f : Cell → Cell) b :
  (∀ x, id (f x) = id x ∧ row (f x) = row x ∧ col (f x) = col x) →
  board_shape b → unique_ids b → coords_ok b →
  board_shape (map (map f) b) ∧ unique_ids (map (map f) b) ∧ coords_ok (map (map f) b).
Proof.
  intros Hf Hb Hu Hco. split; [by apply board_shape_map|]. split.
  - intros r c r' c' x y. rewrite !cellAt_map.
    destruct (cellAt b r c) as [x0|] eqn:Ex; [|done].
    destruct (cellAt b r' c') as [y0|] eqn:Ey; [|done].
    intros [= <-] [= <-] Hid. eapply (Hu _ _ _ _ x0 y0); [done..|].
    destruct (Hf x0) as (<- & _), (Hf y0) as (<- & _). done.
  - intros r c x. rewrite cellAt_map.
    destruct (cellAt b r c) as [x0|] eqn:Ex; [|done]. intros [= <-].
    destruct (Hf x0) as (_ & -> & ->). by apply Hco.
Qed.

Lemma invariants_map_fx (f : Cell → Cell * nat) b g :
  (∀ x, id (f x).1 = id x ∧ row (f x).1 = row x ∧ col (f x).1 = col x) →
  board_shape b → unique_ids b → coords_ok b →
  board_shape (map_board_fx f b g).1 ∧ unique_ids (map_board_fx f b g).1 ∧
  coords_ok (map_board_fx f b g).1.
Proof. intros Hf. apply (invariants_map (λ c, (f c).1)). done. Qed.

(** X13.  [handleSwap] answers every swap of two slots of the board, adjacent
    or not, without an exception, and what it hands on (the board to resolve
    or the board given back) is still a board of [GRID_ROWS] by [GRID_COLS]
    cells, with unique identifiers and with the coordinates of the cells
    matching their slots; a resolution starts with the combo counter
    unchanged and with no anchor or the destination of the swap as anchor. *)
Theorem handleSwap_keeps_board soundEnabled audio b combo pos1 pos2 cell1 cell2 g :
  board_shape b → unique_ids b → coords_ok b →
  cellAtZ b (prow pos1) (pcol pos1) = Some cell1 →
  cellAtZ b (prow pos2) (pcol pos2) = Some cell2 →
  ∃ act g', handleSwap soundEnabled audio b combo pos1 pos2 g = Ok (act, g') ∧
    board_shape (action_board act) ∧ unique_ids (action_board act) ∧
    coords_ok (action_board act) ∧
    (∀ ab combo' target, act = Resolve ab combo' target →
       combo' = combo ∧ (target = None ∨ target = Some pos2)).
Proof.
  intros Hb Hu Hco H1 H2. unfold handleSwap.
  rewrite board_copy, H1, H2. cbn [defined obind].
  destruct (swap_cells b pos1 pos2 cell1 cell2 SWAPPING Hb H1 H2)
    as (t1 & temp & E1 & E2 & Hbt & Hlook).
  rewrite E1. cbn [obind]. rewrite E2. cbn [obind].
  destruct (swap_invariants b temp pos1 pos2 cell1 cell2 SWAPPING Hb Hu Hco H1 H2 Hlook)
    as [Hut Hcot].
  destruct (bool_decide (special cell1 ≠ NONE) && bool_decide (special cell2 ≠ NONE)).
  { rewrite board_copy.
    destruct (bool_decide (special cell1 = RAINBOW) && bool_decide (special cell2 = RAINBOW)).
    - cbn [obind]. eexists _, _. split; [reflexivity|]. cbn [action_board].
      destruct (invariants_map (with_status MATCHED) temp) as (? & ? & ?); [done..|].
      split_and!; [done..|]. intros ab c' t [= <- <- <-]. auto.
    - destruct (bool_decide (special cell1 = RAINBOW) || bool_decide (special cell2 = RAINBOW)).
      + cbn [obind].
        match goal with |- context [map_board_fx ?f temp g] =>
          destruct (invariants_map_fx f temp g) as (? & ? & ?); [|done..|] end.
        { intros x. repeat case_bool_decide; done. }
        destruct (map_board_fx _ temp g) as [ab g1]. eexists _, _. split; [reflexivity|].
        cbn [action_board]. split_and!; [done..|]. intros ab' c' t [= <- <- <-]. auto.
      + unfold blastCombo.
        destruct (cellAtZ_slot _ _ _ H1) as (r1 & c1 & _ & Hc1).
        destruct (cellAtZ_slot _ _ _ H2) as (r2 & c2 & _ & Hc2).
        destruct (getSpecialBlastTargets_spec b cell1 g Hb Hco) as (ts1 & g1 & -> & _);
          [by exists r1, c1|].
        cbn [obind].
        destruct (getSpecialBlastTargets_spec b cell2 g1 Hb Hco) as (ts2 & g2 & -> & _);
          [by exists r2, c2|].
        cbn [obind].
        match goal with |- context [map_board_fx ?f temp g2] =>
          destruct (invariants_map_fx f temp g2) as (? & ? & ?); [|done..|] end.
        { intros x. destruct (set_has _ _); done. }
        destruct (map_board_fx _ temp g2) as [ab g3]. eexists _, _. split; [reflexivity|].
        cbn [action_board]. split_and!; [done..|]. intros ab' c' t [= <- <- <-]. auto. }
  destruct (bool_decide (special cell1 = RAINBOW) || bool_decide (special cell2 = RAINBOW)).
  { match goal with |- context [map_board_fx ?f temp g] =>
      destruct (invariants_map_fx f temp g) as (? & ? & ?); [|done..|] end.
    { intros x. destruct (_ || _); done. }
    destruct (map_board_fx _ temp g) as [ab g1]. eexists _, _. split; [reflexivity|].
    cbn [action_board]. split_and!; [done..|]. intros ab' c' t [= <- <- <-]. auto. }
  destruct (findMatches_runs temp Hbt) as (matches & -> & _). cbn [obind].
  destruct (0 <? set_size matches).
  { eexists _, _. split; [reflexivity|]. cbn [action_board].
    split_and!; [done..|]. intros ab' c' t [= <- <- <-]. auto. }
  rewrite board_copy.
  destruct (cellAtZ_slot _ _ _ H1) as (r1 & c1 & Hs1 & Hc1).
  destruct (cellAtZ_slot _ _ _ H2) as (r2 & c2 & Hs2 & Hc2).
  assert (A1 : ∃ a1, cellAtZ temp (prow pos1) (pcol pos1) = Some a1).
  { rewrite (cellAtZ_at_slot temp pos1 r1 c1 Hs1), Hlook. repeat destruct (decide _); eauto. }
  destruct A1 as [a1 A1].
  assert (A2 : ∃ a2, cellAtZ temp (prow pos2) (pcol pos2) = Some a2).
  { rewrite (cellAtZ_at_slot temp pos2 r2 c2 Hs2), Hlook. rewrite decide_True by done. eauto. }
  destruct A2 as [a2 A2].
  rewrite A1, A2. cbn [defined obind].
  destruct (swap_cells temp pos1 pos2 a1 a2 IDLE Hbt A1 A2)
    as (t2 & rb & E3 & E4 & Hbr & Hlook2).
  rewrite E3. cbn [obind]. rewrite E4. cbn [obind].
  destruct (swap_invariants temp rb pos1 pos2 a1 a2 IDLE Hbt Hut Hcot A1 A2 Hlook2)
    as [Hur Hcor].
  eexists _, _. split; [reflexivity|]. cbn [action_board].
  split_and!; [done..|]. intros ab' c' t [=].
Qed.


(** X14.  Swapping a [RAINBOW] gem with a gem that is not special clears the
    type of that gem: the two swapped cells are [MATCHED] on their new slots,
    every other cell of the type of the plain gem is [MATCHED] where it is,
    every cell of another type is left as it was, and the resolution starts
    without an anchor. *)
Theorem handleSwap_rainbow_clears_type (soundEnabled : bool) (audio : nat) (b : Board)
    (combo : Z) (pos1 pos2 : Position) (cell1 cell2 : Cell) (g : Rng) :
  let otherCell := if bool_decide (special cell1 = RAINBOW) then cell2 else cell1 in
  board_shape b → unique_ids b →
  cellAtZ b (prow pos1) (pcol pos1) = Some cell1 →
  cellAtZ b (prow pos2) (pcol pos2) = Some cell2 →
  special cell1 = RAINBOW ∨ special cell2 = RAINBOW →
  special otherCell = NONE →
  ∃ activeBoard g',
    handleSwap soundEnabled audio b combo pos1 pos2 g
      = Ok (Resolve activeBoard combo None, g') ∧
    board_shape activeBoard ∧
    cellAtZ activeBoard (prow pos1) (pcol pos1)
      = Some (with_status MATCHED (placed cell2 pos1 SWAPPING)) ∧
    cellAtZ activeBoard (prow pos2) (pcol pos2)
      = Some (with_status MATCHED (placed cell1 pos2 SWAPPING)) ∧
    ∀ r c x, ¬ at_slot pos1 r c → ¬ at_slot pos2 r c → cellAt b r c = Some x →
      cellAt activeBoard r c
      = Some (if bool_decide (type x = type otherCell) then with_status MATCHED x else x).
Proof.
  intros otherCell Hb Hu H1 H2 Hrain Hother. unfold handleSwap.
  rewrite board_copy, H1, H2. cbn [defined obind].
  destruct (swap_cells b pos1 pos2 cell1 cell2 SWAPPING Hb H1 H2)
    as (t1 & temp & E1 & E2 & Hbt & Hlook).
  rewrite E1. cbn [obind]. rewrite E2. cbn [obind].
  destruct (cellAtZ_slot _ _ _ H1) as (r1 & c1 & Hs1 & Hc1).
  destruct (cellAtZ_slot _ _ _ H2) as (r2 & c2 & Hs2 & Hc2).
  assert (Hspec : bool_decide (special cell1 ≠ NONE) && bool_decide (special cell2 ≠ NONE)
                  = false).
  { subst otherCell. apply andb_false_iff. case_bool_decide as Hr.
    - right. by rewrite bool_decide_eq_false_2 by (intros H; apply H; done).
    - left. by rewrite bool_decide_eq_false_2 by (intros H; apply H; done). }
  rewrite Hspec.
  assert (Hr : bool_decide (special cell1 = RAINBOW) || bool_decide (special cell2 = RAINBOW)
               = true).
  { apply orb_true_iff. rewrite !bool_decide_eq_true. done. }
  rewrite Hr. fold otherCell.
  assert (Hdiff : ¬ at_slot pos2 r1 c1).
  { intros Hsame. destruct (at_slot_inj _ _ _ _ _ Hsame Hs2) as [-> ->].
    assert (Heq : cell1 = cell2) by congruence.
    unfold otherCell in Hother. rewrite <- Heq in Hother, Hrain.
    destruct (bool_decide (special cell1 = RAINBOW)); destruct Hrain; congruence. }
  unfold map_board_fx. eexists _, _. split; [reflexivity|].
  split; [by apply board_shape_map|].
  set (rainbowCell := if bool_decide (special cell1 = RAINBOW) then cell1 else cell2).
  assert (Hids : ∀ y, y = cell1 ∨ y = cell2 →
            bool_decide (type y = type otherCell) || bool_decide (id y = id rainbowCell)
            || bool_decide (id y = id otherCell) = true).
  { intros y Hy. subst otherCell rainbowCell. apply orb_true_iff.
    case_bool_decide; destruct Hy as [-> | ->];
      rewrite ?orb_true_iff, !bool_decide_eq_true; tauto. }
  split_and!.
  - rewrite (cellAtZ_at_slot _ pos1 r1 c1 Hs1), cellAt_map, Hlook.
    rewrite (decide_False _ _ Hdiff), (decide_True _ _ Hs1).
    cbn [fmap option_fmap option_map placed id type]. by rewrite Hids by auto.
  - rewrite (cellAtZ_at_slot _ pos2 r2 c2 Hs2), cellAt_map, Hlook.
    rewrite (decide_True _ _ Hs2).
    cbn [fmap option_fmap option_map placed id type]. by rewrite Hids by auto.
  - intros r c x Hn1 Hn2 Hx. rewrite cellAt_map, Hlook.
    rewrite (decide_False _ _ Hn2), (decide_False _ _ Hn1), Hx.
    cbn [fmap option_fmap option_map]. f_equal.
    assert (Hne : ∀ y, y = cell1 ∨ y = cell2 → bool_decide (id x = id y) = false).
    { intros y Hy. apply bool_decide_eq_false. intros Hid.
      destruct Hy as [-> | ->].
      - destruct (Hu _ _ _ _ _ _ Hx Hc1 Hid) as [-> ->]. done.
      - destruct (Hu _ _ _ _ _ _ Hx Hc2 Hid) as [-> ->]. done. }
    rewrite (Hne rainbowCell), (Hne otherCell), !orb_false_r.
    + by destruct (bool_decide (type x = type otherCell)).
    + subst otherCell. case_bool_decide; auto.
    + subst rainbowCell. case_bool_decide; auto.
Qed.

(** ** The expansion of the matched set *)

Lemma findById_found b x :
  board_shape b →
  ∃ o, findById b x = Ok o ∧
    (∀ cell, o = Some cell → on_board b cell ∧ id cell = x) ∧
    (o = None → ∀ cell, on_board b cell → id cell ≠ x).
Proof.
  intros Hb. unfold findById.
  destruct (for_up_spec
    (λ r (o : option Cell),
       (∀ cell, o = Some cell → on_board b cell ∧ id cell = x) ∧
       (o = None → ∀ r' c cell, r' < r → cellAt b r' c = Some cell → id cell ≠ x))
    (λ r found, for_up GRID_COLS 0 (λ c found,
       let* cell := defined (cellAt b r c) in
       if bool_decide (id cell = x) then Ok (Some cell) else Ok found) found)
    GRID_ROWS 0 None) as (o & Hrun & Ho1 & Ho2).
  - split; [done|]. intros _ r' c cell Hr'. lia.
  - intros r o Hr [Ho1 Ho2].
    destruct (for_up_spec
      (λ c (o : option Cell),
         (∀ cell, o = Some cell → on_board b cell ∧ id cell = x) ∧
         (o = None → ∀ r' c' cell, r' < r ∨ (r' = r ∧ c' < c) →
            cellAt b r' c' = Some cell → id cell ≠ x))
      (λ c found,
         let* cell := defined (cellAt b r c) in
         if bool_decide (id cell = x) then Ok (Some cell) else Ok found)
      GRID_COLS 0 o) as (o' & Hrun' & Ho1' & Ho2').
    + split; [done|]. intros Hn r' c' cell [Hlt|[_ Hlt]]; [|lia]. by apply Ho2.
    + intros c o' Hc [Ho1' Ho2'].
      destruct (board_shape_lookup b r c Hb) as [cell Hcell]; [lia | lia |].
      rewrite Hcell. cbn [defined obind]. case_bool_decide as Hid.
      * eexists. split; [done|]. split; [|done].
        intros ? [= <-]. split; [by exists r, c | done].
      * eexists. split; [done|]. split; [done|].
        intros Hn r' c' cell' Hlt Hcell'.
        destruct (decide (r' = r ∧ c' = c)) as [[-> ->]|Hne].
        -- rewrite Hcell in Hcell'. by injection Hcell' as <-.
        -- apply (Ho2' Hn r' c'); [lia | done].
    + exists o'. split; [done|]. split; [done|].
      intros Hn r' c' cell Hr' Hcell. destruct (cellAt_lt _ _ _ _ Hb Hcell) as [_ Hc'].
      apply (Ho2' Hn r' c'); [|done]. destruct (decide (r' = r)); [right|left]; lia.
  - exists o. split; [done|]. split; [done|].
    intros Hn cell (r & c & Hcell). destruct (cellAt_lt _ _ _ _ Hb Hcell) as [Hr _].
    by apply (Ho2 Hn r c).
Qed.

Lemma getSpecialBlastTargets_zone b cell g :
  board_shape b → coords_ok b → on_board b cell →
  ∃ targets g', getSpecialBlastTargets b cell g = Ok (targets, g') ∧
    (∀ t, t ∈ targets → on_board b t) ∧
    (∀ t, blast_zone b cell t → t ∈ targets).
Proof.
  intros Hb Hco Hon.
  destruct (getSpecialBlastTargets_spec b cell g Hb Hco Hon) as (targets & g' & Hrun & Hts).
  exists targets, g'. split; [done|]. split; [done|].
  destruct Hon as (r & c & Hcell). destruct (Hco _ _ _ Hcell) as [Hrow Hcol].
  destruct (cellAt_lt _ _ _ _ Hb Hcell) as [Hr Hc].
  intros t Hz. unfold blast_zone in Hz. destruct (special cell) eqn:Hs; try done.
  - destruct (lookup_lt_is_Some_2 b r) as [row_ Hrow_]; [destruct Hb; lia|].
    rewrite (getSpecialBlastTargets_row b cell g r row_ Hb Hs Hrow Hrow_) in Hrun.
    injection Hrun as <- _. destruct Hz as [c' Hc'].
    rewrite Hrow, cellAtZ_of_nat in Hc'. unfold cellAt in Hc'. rewrite Hrow_ in Hc'.
    by eapply list_elem_of_lookup_2.
  - rewrite (getSpecialBlastTargets_col b cell g c Hb Hs Hcol Hc) in Hrun.
    injection Hrun as <- _. destruct Hz as [r' Hr'].
    rewrite Hcol, cellAtZ_of_nat, <- column_lookup in Hr' by done.
    by eapply list_elem_of_lookup_2.
  - unfold getSpecialBlastTargets in Hrun. rewrite Hs, around_cells in Hrun by done.
    injection Hrun as <- _. by apply elem_of_cells_in_window.
Qed.

(** What a blast adds: the identifiers of its targets, the new ones queued. *)
Lemma blast_fold b (targets : list Cell) (queue M : list string) (g : Rng) :
  (∀ t, t ∈ targets → on_board b t) → NoDup M →
  ∃ queue' M' g',
    foldl (λ '(queue, matchedIds, g) t,
             if negb (set_has matchedIds (id t))
             then (queue ++ [id t], set_add (id t) matchedIds, skip_draws 15 g)
             else (queue, matchedIds, g))
      (queue, M, g) targets = (queue', M', g') ∧
    NoDup M' ∧
    (∀ x, x ∈ M' ↔ x ∈ M ∨ x ∈ id <$> targets) ∧
    (∀ x, x ∈ queue' ↔ x ∈ queue ∨ (x ∈ id <$> targets ∧ x ∉ M)) ∧
    unvisited b M' + length queue' ≤ unvisited b M + length queue.
Proof.
  revert queue M g. induction targets as [|t targets IH]; intros queue M g Hon Hnd.
  - exists queue, M, g. split; [done|]. split; [done|]. split_and!.
    + intros x. rewrite fmap_nil, elem_of_nil. tauto.
    + intros x. rewrite fmap_nil, elem_of_nil. tauto.
    + done.
  - cbn [foldl]. destruct (set_has M (id t)) eqn:Hhas; cbn [negb].
    + apply set_has_true in Hhas.
      destruct (IH queue M g) as (q' & M' & g' & Hrun & Hnd' & HM' & Hq' & Hm);
        [intros; apply Hon; by right | done |].
      exists q', M', g'. split; [done|]. split; [done|]. split_and!.
      * intros x. rewrite HM', fmap_cons, elem_of_cons. split; [tauto|].
        intros [?|[->|?]]; tauto.
      * intros x. rewrite Hq', fmap_cons, elem_of_cons. split; [tauto|].
        intros [?|[[->|?] ?]]; tauto.
      * done.
    + apply set_has_false in Hhas.
      destruct (IH (queue ++ [id t]) (set_add (id t) M) (skip_draws 15 g))
        as (q' & M' & g' & Hrun & Hnd' & HM' & Hq' & Hm);
        [intros; apply Hon; by right | by apply NoDup_set_add |].
      exists q', M', g'. split; [done|]. split; [done|]. split_and!.
      * intros x. rewrite HM', elem_of_set_add, fmap_cons, elem_of_cons. tauto.
      * intros x. rewrite Hq', elem_of_app, list_elem_of_singleton, elem_of_set_add,
          fmap_cons, elem_of_cons.
        destruct (decide (x = id t)) as [->|?]; tauto.
      * pose proof (unvisited_visit b M t (Hon t ltac:(by left)) Hhas).
        rewrite length_app in Hm. simpl in Hm. lia.
Qed.

Lemma closed_mono b M M' x :
  (∀ y, y ∈ M → y ∈ M') → closed b M x → closed b M' x.
Proof. intros Hsub Hc cell t H1 H2 H3. apply Hsub. by eapply Hc. Qed.

Lemma expand_step_inv soundEnabled audio b M0 x queue M P trig g :
  board_shape b → unique_ids b → coords_ok b →
  expand_inv b M0 (x :: queue, M, P, trig, g) →
  ∃ st', expand_step soundEnabled audio b (x :: queue, M, P, trig, g) = Ok st' ∧
    expand_inv b M0 st' ∧
    expand_measure b st' < expand_measure b (x :: queue, M, P, trig, g).
Proof.
  intros Hb Hu Hco (Hnd & H0 & Hon & Hq & Hcl & HP). unfold expand_step.
  destruct (findById_found b x Hb) as (o & -> & Ho1 & Ho2). cbn [obind].
  assert (Hkeep : closed b M x →
    expand_inv b M0 (queue, M, P, trig, g) ∧
    expand_measure b (queue, M, P, trig, g) < expand_measure b (x :: queue, M, P, trig, g)).
  { intros Hx. split; [|simpl; lia]. split_and!; try done.
    - intros y Hy. apply Hq. by right.
    - intros y Hy. destruct (Hcl y Hy) as [Hin|Hc]; [|by right].
      apply elem_of_cons in Hin as [->|Hin]; [by right | by left]. }
  destruct o as [cell|].
  - destruct (Ho1 cell eq_refl) as [Hcell Hid].
    assert (Hsame : ∀ cell', on_board b cell' → id cell' = x → cell' = cell).
    { intros cell' (r' & c' & H') Hid'. destruct Hcell as (r & c & H).
      destruct (Hu _ _ _ _ _ _ H' H ltac:(congruence)) as [-> ->]. congruence. }
    destruct (bool_decide (special cell ≠ NONE)) eqn:Hsp; cbn [andb].
    + destruct (set_has P (id cell)) eqn:HinP; cbn [negb].
      * eexists. split; [done|]. apply Hkeep. apply HP. rewrite <- Hid.
        by apply set_has_true.
      * destruct (getSpecialBlastTargets_zone b cell g Hb Hco Hcell)
          as (targets & g' & -> & Hts & Hzone).
        cbn [obind].
        destruct (blast_fold b targets queue M g' Hts Hnd)
          as (q' & M' & g'' & -> & Hnd' & HM' & Hq' & Hm).
        eexists. split; [done|].
        assert (Hsub : ∀ y, y ∈ M → y ∈ M') by (intros y Hy; apply HM'; by left).
        assert (Hx : closed b M' x).
        { intros cell' t Hc' Hid' Hz. rewrite (Hsame cell' Hc' Hid') in Hz.
          apply HM'. right. apply list_elem_of_fmap. exists t. split; [done|]. by apply Hzone. }
        split.
        -- split_and!.
           ++ done.
           ++ intros y Hy. apply Hsub. by apply H0.
           ++ intros y Hy. apply HM' in Hy as [Hy|Hy]; [by apply Hon|].
              apply list_elem_of_fmap in Hy as (t & -> & Ht). exists t. split; [|done].
              by apply Hts.
           ++ intros y Hy. apply Hq' in Hy as [Hy|[Hy _]].
              ** apply Hsub, Hq. by right.
              ** apply HM'. by right.
           ++ intros y Hy. apply HM' in Hy as Hy'.
              destruct (decide (y ∈ M)) as [HyM|HyM].
              ** destruct (Hcl y HyM) as [Hin|Hc].
                 --- apply elem_of_cons in Hin as [->|Hin]; [by right|].
                     left. apply Hq'. by left.
                 --- right. by eapply closed_mono.
              ** left. apply Hq'. right. split; [|done]. by destruct Hy'.
           ++ intros y Hy. apply elem_of_set_add in Hy as [->|Hy].
              ** by rewrite Hid.
              ** eapply closed_mono; [exact Hsub|]. by apply HP.
        -- simpl. lia.
    + eexists. split; [done|]. apply Hkeep.
      intros cell' t Hc' Hid' Hz. rewrite (Hsame cell' Hc' Hid') in Hz.
      apply bool_decide_eq_false in Hsp. assert (Hnone : special cell = NONE).
      { destruct (special cell); try done; exfalso; apply Hsp; done. }
      unfold blast_zone in Hz. by rewrite Hnone in Hz.
  - eexists. split; [done|]. apply Hkeep.
    intros cell t Hc Hid _. exfalso. by eapply Ho2.
Qed.

Lemma measure_bound b (M : list string) :
  NoDup M → (∀ x, x ∈ M → ∃ y, on_board b y ∧ id y = x) →
  unvisited b M + length M ≤ length (concat b).
Proof.
  intros Hnd Hon. unfold unvisited.
  assert (Hsplit : ∀ l : list Cell,
    length (filter (λ y, id y ∉ M) l) + length (filter (λ y, id y ∈ M) l) = length l).
  { induction l as [|z l IH]; [done|]. rewrite !filter_cons.
    destruct (decide (id z ∈ M)) as [Hin|Hnin].
    - rewrite decide_False by (intros H; by apply H). simpl. lia.
    - rewrite decide_True by done. simpl. lia. }
  specialize (Hsplit (concat b)).
  assert (Hle : length M ≤ length (filter (λ y, id y ∈ M) (concat b))).
  { rewrite <- (length_fmap id (filter _ _)).
    apply submseteq_length, NoDup_submseteq; [done|].
    intros x Hx. destruct (Hon x Hx) as (y & Hy & <-).
    apply list_elem_of_fmap. exists y. split; [done|].
    apply list_elem_of_filter. split; [done|]. by apply on_board_concat. }
  lia.
Qed.

Lemma collectMatched_spec b :
  board_shape b →
  ∃ M0, collectMatched b = Ok M0 ∧ NoDup M0 ∧
    ∀ x, x ∈ M0 ↔ ∃ r c y, cellAt b r c = Some y ∧ id y = x ∧
                    (in_run b r c ∨ status y = MATCHED).
Proof.
  intros Hb. unfold collectMatched.
  destruct (findMatches_runs b Hb) as (ids0 & -> & Hnd0 & Hids0). cbn [obind].
  destruct (foldl_collect (λ cell, bool_decide (status cell = MATCHED)) (concat b) ids0 Hnd0)
    as [Hnd Hel].
  eexists. split; [done|]. split; [done|].
  intros x. rewrite Hel. split.
  - intros [Hx|(y & Hy & Hst & <-)].
    + apply Hids0 in Hx as (r & c & y & Hy & <- & Hrun). exists r, c, y. auto.
    + apply on_board_concat in Hy as (r & c & Hy). apply bool_decide_eq_true in Hst.
      exists r, c, y. auto.
  - intros (r & c & y & Hy & <- & [Hrun|Hst]).
    + left. apply Hids0. by exists r, c, y.
    + right. exists y. split; [apply on_board_concat; by exists r, c|].
      split; [by apply bool_decide_eq_true | done].
Qed.

Lemma matchedSet_spec fuel soundEnabled audio b g :
  board_shape b → unique_ids b → coords_ok b → GRID_ROWS * GRID_COLS < fuel →
  ∃ ids trig g', matchedSet fuel soundEnabled audio b g = Ok (ids, trig, g') ∧
    NoDup ids ∧
    (∀ x, x ∈ ids → ∃ y, on_board b y ∧ id y = x) ∧
    (∀ r c y, cellAt b r c = Some y → in_run b r c ∨ status y = MATCHED → id y ∈ ids) ∧
    (∀ cell t, on_board b cell → id cell ∈ ids → blast_zone b cell t → id t ∈ ids).
Proof.
  intros Hb Hu Hco Hfuel. unfold matchedSet.
  destruct (collectMatched_spec b Hb) as (M0 & -> & Hnd0 & HM0). cbn [obind]. cbv zeta.
  assert (Hon0 : ∀ x, x ∈ M0 → ∃ y, on_board b y ∧ id y = x).
  { intros x Hx. apply HM0 in Hx as (r & c & y & Hy & <- & _). exists y.
    split; [by exists r, c | done]. }
  match goal with |- context [while_loop fuel ?cond ?body ?s] =>
    destruct (while_loop_spec (expand_inv b M0) (expand_measure b) cond body fuel s)
      as ([[[[queue' M] P] trig] g'] & -> & Hinv & Hcond)
  end.
  - split_and!; try done.
    + intros x Hx. by left.
    + intros x Hx. by apply elem_of_nil in Hx.
  - simpl. pose proof (measure_bound b M0 Hnd0 Hon0) as Hle.
    rewrite (board_shape_cells b Hb) in Hle. lia.
  - intros [[[[queue M] P] trig] g0] Hinv. eexists. split; [done|]. intros Hq.
    destruct queue as [|x queue]; [done|].
    destruct (expand_step_inv soundEnabled audio b M0 x queue M P trig g0 Hb Hu Hco Hinv)
      as (st' & Hrun & Hinv' & Hm).
    by exists st'.
  - cbn [obind]. exists M, trig, g'. split; [done|].
    destruct Hinv as (Hnd & H0 & Hon & Hq & Hcl & HP).
    injection Hcond as Hcond. destruct queue' as [|? ?]; [|done].
    split_and!; [done | done | |].
    + intros r c y Hy Hor. apply H0, HM0. by exists r, c, y.
    + intros cell t Hc Hid Hz. destruct (Hcl _ Hid) as [Hin|Hclosed].
      * by apply elem_of_nil in Hin.
      * by eapply Hclosed.
Qed.

(** ** A resolution pass *)

Lemma stable_collect b :
  board_shape b → (stable b ↔ collectMatched b = Ok []).
Proof.
  intros Hb. destruct (collectMatched_spec b Hb) as (M0 & HM0 & _ & Hel).
  rewrite HM0. split.
  - intros [Hfm Hst]. f_equal. destruct M0 as [|x M0]; [done|]. exfalso.
    destruct (Hel x) as [(r & c & y & Hy & _ & [Hrun|Hm]) _]; [by left | |].
    + destruct (findMatches_runs b Hb) as (ids & Hids & _ & Hin). rewrite Hfm in Hids.
      injection Hids as <-. eapply elem_of_nil. apply Hin. by exists r, c, y.
    + by eapply Hst.
  - intros [= ->]. split.
    + destruct (findMatches_runs b Hb) as (ids & -> & _ & Hin). f_equal.
      destruct ids as [|x ids]; [done|]. exfalso.
      destruct (Hin x) as [(r & c & y & Hy & Hid & Hrun) _]; [by left|].
      eapply elem_of_nil. apply Hel. exists r, c, y. auto.
    + intros r c x Hx Hm. eapply elem_of_nil. apply Hel. exists r, c, x. auto.
Qed.

Lemma resolvePass_stable fuel soundEnabled audio level b combo target g :
  board_shape b → stable b →
  resolvePass (S fuel) soundEnabled audio level b combo target g = Ok (None, g).
Proof.
  intros Hb Hst. apply stable_collect in Hst; [|done].
  unfold resolvePass, matchedSet. rewrite Hst. done.
Qed.

(** X15.  A resolution pass on a board with unique identifiers and right
    coordinates always returns.  It finds nothing exactly when the board is
    stable.  Otherwise its matched set holds each identifier once, holds
    identifiers of the board only, holds every cell of a run of three and
    every cell already [MATCHED], and is closed under the chain reactions:
    with a row blast gem it holds the whole row of the gem, with a column
    blast gem the whole column, with an area blast gem the cells within one
    step of it; and the combo counter goes up by one. *)
Theorem resolvePass_chain_reaction (fuel : nat) (soundEnabled : bool) (audio : nat)
    (level : Z) (b : Board) (combo : Z) (target : option Position) (g : Rng) :
  board_shape b → unique_ids b → coords_ok b → GRID_ROWS * GRID_COLS < fuel →
  ∃ res g', resolvePass fuel soundEnabled audio level b combo target g = Ok (res, g') ∧
    (res = None ↔ stable b) ∧
    ∀ pass, res = Some pass →
      NoDup (p_matchedIds pass) ∧
      (∀ x, x ∈ p_matchedIds pass → ∃ y, on_board b y ∧ id y = x) ∧
      (∀ r c y, cellAt b r c = Some y → in_run b r c ∨ status y = MATCHED →
         id y ∈ p_matchedIds pass) ∧
      (∀ cell t, on_board b cell → id cell ∈ p_matchedIds pass → blast_zone b cell t →
         id t ∈ p_matchedIds pass) ∧
      p_nextCombo pass = (combo + 1)%Z.
Proof.
  intros Hb Hu Hco Hfuel.
  assert (Hdec : stable b ∨ ¬ stable b).
  { destruct (collectMatched_spec b Hb) as (M0 & HM0 & _).
    destruct M0 as [|x M0].
    - left. by apply stable_collect.
    - right. intros Hst. apply stable_collect in Hst; [|done]. congruence. }
  destruct Hdec as [Hst|Hst].
  - destruct fuel as [|fuel]; [lia|].
    rewrite resolvePass_stable by done. exists None, g. split; [done|]. split; [done|]. done.
  - unfold resolvePass.
    destruct (matchedSet_spec fuel soundEnabled audio b g Hb Hu Hco Hfuel)
      as (ids & trig & g1 & -> & Hnd & Hon & Hruns & Hclosed).
    cbn [obind].
    assert (Hne : ids ≠ []).
    { intros ->. apply Hst. apply stable_collect; [done|].
      destruct (collectMatched_spec b Hb) as (M0 & -> & _ & Hel). f_equal.
      destruct M0 as [|x M0]; [done|]. exfalso.
      destruct (Hel x) as [(r & c & y & Hy & _ & Hor) _]; [by left|].
      eapply elem_of_nil. by eapply Hruns. }
    assert (Hpos : (0 <? set_size ids) = true).
    { apply Nat.ltb_lt. destruct ids; [done|]. simpl. lia. }
    rewrite Hpos.
    destruct (scoreBoard_total fuel b ids combo level target g1 Hb Hfuel) as (sc & g2 & ->).
    cbn [obind]. destruct (map_board_fx _ b g2) as [mb g3].
    eexists _, _. split; [reflexivity|]. split; [done|].
    intros pass [= <-]. done.
Qed.

(** ** The cascade *)

Lemma blast_fold_mono (targets : list Cell) (queue M : list string) (g : Rng) x :
  x ∈ M →
  x ∈ (foldl (λ '(queue, matchedIds, g) t,
                if negb (set_has matchedIds (id t))
                then (queue ++ [id t], set_add (id t) matchedIds, skip_draws 15 g)
                else (queue, matchedIds, g))
         (queue, M, g) targets).1.2.
Proof.
  revert queue M g. induction targets as [|t targets IH]; intros queue M g Hx; [done|].
  cbn [foldl]. destruct (negb (set_has M (id t))).
  - apply IH. apply elem_of_set_add. by right.
  - by apply IH.
Qed.

Lemma expand_step_mono soundEnabled audio b st st' x :
  expand_step soundEnabled audio b st = Ok st' →
  x ∈ st.1.1.1.2 → x ∈ st'.1.1.1.2.
Proof.
  destruct st as [[[[queue M] P] trig] g]. unfold expand_step. simpl.
  destruct queue as [|y queue]; [by intros [= <-]|].
  intros Hrun Hx. apply obind_Ok in Hrun as (o & _ & Hrun).
  destruct o as [cell|]; [|by injection Hrun as <-].
  destruct (bool_decide (special cell ≠ NONE) && negb (set_has P (id cell)));
    [|by injection Hrun as <-].
  apply obind_Ok in Hrun as ([targets g1] & _ & Hrun).
  pose proof (blast_fold_mono targets queue M g1 x Hx) as Hmono.
  destruct (foldl _ _ targets) as [[q' M'] g']. injection Hrun as <-. done.
Qed.

Lemma resolvePass_none_stable fuel soundEnabled audio level b combo target g g' :
  board_shape b →
  resolvePass fuel soundEnabled audio level b combo target g = Ok (None, g') →
  stable b.
Proof.
  intros Hb Hrun. apply stable_collect; [done|].
  unfold resolvePass in Hrun.
  apply obind_Ok in Hrun as ([[ids trig] g1] & Hms & Hrun).
  destruct (0 <? set_size ids) eqn:Hsz.
  { apply obind_Ok in Hrun as ([sc g2] & _ & Hrun). by destruct (map_board_fx _ _ _). }
  apply Nat.ltb_ge in Hsz. destruct ids as [|? ?]; [|simpl in Hsz; lia].
  unfold matchedSet in Hms.
  apply obind_Ok in Hms as (M0 & HM0 & Hms). rewrite HM0. f_equal.
  apply obind_Ok in Hms as ([[[[queue' M] P] trig'] g2] & Hloop & Hres).
  injection Hres as -> _ _.
  apply (while_loop_inv (λ st : ExpandState, ∀ x, x ∈ M0 → x ∈ st.1.1.1.2)) in Hloop
    as [Hsub _].
  - destruct M0 as [|x M0]; [done|]. exfalso. eapply elem_of_nil. apply Hsub. by left.
  - done.
  - intros st st' Hst _ Hstep x Hx. eapply expand_step_mono; [done|]. by apply Hst.
Qed.

Lemma Qfloor_nonneg (q : Q) : (0 <= q)%Q → (0 ≤ Qfloor q)%Z.
Proof. intros H. change 0%Z with (Qfloor 0%Q). by apply Qfloor_resp_le. Qed.

Lemma Qplus_nonneg (x y : Q) : (0 <= x)%Q → (0 <= y)%Q → (0 <= x + y)%Q.
Proof.
  intros Hx Hy. apply (Qle_trans _ (0 + 0)%Q); [done|]. by apply Qplus_le_compat.
Qed.

Lemma inject_Z_nonneg (n : Z) : (0 ≤ n)%Z → (0 <= inject_Z n)%Q.
Proof. intros H. unfold Qle. simpl. lia. Qed.

Lemma multipliers_nonneg (combo level : Z) :
  (0 ≤ combo)%Z → (1 ≤ level)%Z →
  (0 <= comboMultiplier combo level)%Q ∧ (0 <= levelBaseMultiplier level)%Q.
Proof.
  intros Hc Hl. split.
  - unfold comboMultiplier, levelComboStep. apply Qplus_nonneg; [done|].
    apply Qmult_le_0_compat; [by apply inject_Z_nonneg|].
    apply Qplus_nonneg; [done|]. apply Qmult_le_0_compat; [|done].
    apply inject_Z_nonneg. lia.
  - unfold levelBaseMultiplier. apply Qplus_nonneg; [done|].
    apply Qmult_le_0_compat; [|done]. apply inject_Z_nonneg. lia.
Qed.

Lemma groupScore_nonneg (size : nat) (combo level : Z) :
  (0 ≤ combo)%Z → (1 ≤ level)%Z → (0 ≤ groupScore size combo level)%Z.
Proof.
  intros Hc Hl. destruct (multipliers_nonneg combo level Hc Hl) as [H1 H2].
  unfold groupScore. apply Qfloor_nonneg.
  repeat apply Qmult_le_0_compat; try done.
  - apply inject_Z_nonneg. lia.
  - unfold sizeMultiplier. destruct (5 <=? size); [done|]. by destruct (size =? 4).
Qed.

Lemma debris_nonneg (pts debris combo level : Z) :
  (0 ≤ pts)%Z → (0 ≤ combo)%Z → (1 ≤ level)%Z →
  (0 ≤ if bool_decide (0 < debris)%Z
       then pts + Qfloor (inject_Z debris * basePoints * levelBaseMultiplier level
                          * comboMultiplier combo level)
       else pts)%Z.
Proof.
  intros Hp Hc Hl. destruct (multipliers_nonneg combo level Hc Hl) as [H1 H2].
  destruct (bool_decide _) eqn:Hd; [|done]. apply bool_decide_eq_true in Hd.
  match goal with |- (0 ≤ _ + Qfloor ?q)%Z => assert (0 ≤ Qfloor q)%Z; [|lia] end.
  apply Qfloor_nonneg. repeat apply Qmult_le_0_compat; try done.
  apply inject_Z_nonneg. lia.
Qed.

Lemma scoreBoard_nonneg fuel b matchedIds combo level target g sc g' :
  (0 ≤ combo)%Z → (1 ≤ level)%Z →
  scoreBoard fuel b matchedIds combo level target g = Ok (sc, g') →
  (0 ≤ sc_turnPoints sc)%Z.
Proof.
  intros Hc Hl Hrun. unfold scoreBoard in Hrun.
  apply obind_Ok in Hrun as (ids & _ & Hrun).
  apply obind_Ok in Hrun as (groups & _ & Hrun).
  apply obind_Ok in Hrun as ([[[gems pts] log] g1] & Hloop & Hrun).
  apply (for_each_inv (λ _ (st : ScoreState), (0 ≤ st.1.1.2)%Z)) in Hloop.
  - simpl in Hloop. injection Hrun as <- _. cbn [sc_turnPoints].
    by apply debris_nonneg.
  - done.
  - intros done_ group rest [[[gems0 pts0] log0] g0] [[[gems1 pts1] log1] g2] _ Hpts Hstep.
    simpl in Hpts. unfold score_group in Hstep.
    apply obind_Ok in Hstep as (center & _ & Hstep).
    pose proof (groupScore_nonneg (length group) combo level Hc Hl).
    destruct (bool_decide (classifyMatchGroup group ≠ NONE)).
    + apply obind_Ok in Hstep as (cand & _ & Hstep). injection Hstep as _ <- _ _. simpl. lia.
    + injection Hstep as _ <- _ _. simpl. lia.
Qed.

Lemma coords_ok_map (f : Cell → Cell) b :
  (∀ x, row (f x) = row x ∧ col (f x) = col x) →
  coords_ok b → coords_ok (map (map f) b).
Proof.
  intros Hf Hco r c x. rewrite cellAt_map.
  destruct (cellAt b r c) as [x0|] eqn:Ex; [|done]. intros [= <-].
  destruct (Hf x0) as (-> & ->). by apply Hco.
Qed.

Lemma resolvePass_some fuel soundEnabled audio level b combo target g p g' :
  board_shape b → coords_ok b →
  resolvePass fuel soundEnabled audio level b combo target g = Ok (Some p, g') →
  board_shape (p_matchedBoard p) ∧ coords_ok (p_matchedBoard p) ∧
  p_nextCombo p = (combo + 1)%Z ∧
  ((0 ≤ combo)%Z → (1 ≤ level)%Z → (0 ≤ sc_turnPoints (p_scoring p))%Z).
Proof.
  intros Hb Hco Hrun. unfold resolvePass in Hrun.
  apply obind_Ok in Hrun as ([[ids trig] g1] & _ & Hrun).
  destruct (0 <? set_size ids); [|done].
  apply obind_Ok in Hrun as ([sc g2] & Hsc & Hrun).
  unfold map_board_fx in Hrun. injection Hrun as <- _.
  cbn [p_matchedBoard p_nextCombo p_scoring]. split_and!.
  - by apply board_shape_map.
  - apply coords_ok_map; [|done]. intros x. unfold mark_cell.
    destruct (map_get _ _); [done|]. by destruct (set_has _ _).
  - done.
  - intros Hc Hl. by eapply scoreBoard_nonneg.
Qed.


(** ** [getConnectedGroups]: the groups are the connected components *)

Lemma bfs_step_reach b matchedIds seed st st' :
  bfs_step b matchedIds st = Ok st' →
  reach_inv b matchedIds seed st → reach_inv b matchedIds seed st'.
Proof.
  destruct st as [[queue visited] group]. unfold bfs_step.
  intros Hrun [Hhead Hlink].
  destruct queue as [|current queue]; [done|]. cbn [head tail defined obind] in Hrun.
  apply obind_Ok in Hrun as ([queue' visited'] & Hloop & [= <-]).
  assert (Hcur : linked b matchedIds seed current).
  { apply Hlink. apply elem_of_app. right. by left. }
  apply (for_each_inv
    (λ _ '((q, _) : list Cell * list string),
       (∃ new, q = queue ++ new) ∧ ∀ y, y ∈ q → linked b matchedIds seed y)) in Hloop.
  - destruct Hloop as [[new ->] Hq]. split.
    + rewrite <- app_assoc. clear -Hhead. by destruct group.
    + intros y Hy. rewrite <- app_assoc in Hy. apply elem_of_app in Hy as [Hy|Hy].
      * apply Hlink. apply elem_of_app. by left.
      * simpl in Hy. apply elem_of_cons in Hy as [->|Hy]; [done|]. by apply Hq.
  - split; [exists []; by rewrite app_nil_r|].
    intros y Hy. apply Hlink. apply elem_of_app. right. by right.
  - intros done_ n rest [q v] [q1 v1] Hns [[new ->] Hq] Hbody.
    destruct (in_grid (prow n) (pcol n)) eqn:Hg; [|injection Hbody as <- <-; eauto].
    apply obind_Ok in Hbody as (neighbor & Hnb & Hbody).
    destruct (cellAtZ b (prow n) (pcol n)) as [nb|] eqn:Hcell; [|done].
    injection Hnb as <-.
    destruct (set_has matchedIds (id nb) && negb (set_has v (id nb))
              && bool_decide (type nb = type current)) eqn:Hc;
      [|injection Hbody as <- <-; eauto].
    injection Hbody as <- <-. split.
    + exists (new ++ [nb]). by rewrite app_assoc.
    + intros y Hy. apply elem_of_app in Hy as [Hy|Hy]; [by apply Hq|].
      apply list_elem_of_singleton in Hy as ->.
      apply andb_true_iff in Hc as [Hc Hty]. apply andb_true_iff in Hc as [Hm _].
      apply set_has_true in Hm. apply bool_decide_eq_true in Hty.
      eapply linked_step; [exact Hcur|]. exists n. split_and!; try done.
      rewrite Hns. apply elem_of_app. right. by left.
Qed.

Lemma getConnectedGroups_linked fuel b matchedIds groups :
  getConnectedGroups fuel b matchedIds = Ok groups →
  ∀ g, g ∈ groups →
    ∃ seed, head g = Some seed ∧ ∀ y, y ∈ g → linked b matchedIds seed y.
Proof.
  intros Hrun. unfold getConnectedGroups in Hrun.
  apply obind_Ok in Hrun as ([visited groups'] & Hloop & [= <-]).
  set (I := λ st : list string * list (list Cell),
         ∀ g, g ∈ st.2 →
           ∃ seed, head g = Some seed ∧ ∀ y, y ∈ g → linked b matchedIds seed y).
  apply (for_up_inv (λ _ st, I st)) in Hloop; [done | |].
  - intros g Hg. by apply elem_of_nil in Hg.
  - clear Hloop. intros r st st' _ Hst Hrow.
    apply (for_up_inv (λ _ st, I st)) in Hrow; [done | done |].
    clear Hrow Hst. intros c [vis gs] [vis' gs'] _ Hst Hbody.
    apply obind_Ok in Hbody as (cell & _ & Hbody).
    destruct (set_has matchedIds (id cell) && negb (set_has vis (id cell)));
      [|by injection Hbody as <- <-].
    apply obind_Ok in Hbody as ([[q' v'] group] & Hbfs & [= <- <-]).
    unfold bfs in Hbfs.
    apply (while_loop_inv (reach_inv b matchedIds cell)) in Hbfs as [[Hhead Hlink] Hcond].
    + injection Hcond as Hcond. destruct q' as [|? ?]; [|done].
      rewrite app_nil_r in Hhead, Hlink.
      intros g Hg. simpl in Hg. apply elem_of_app in Hg as [Hg|Hg]; [by apply Hst|].
      apply list_elem_of_singleton in Hg as ->. by exists cell.
    + split; [done|]. intros y Hy. apply list_elem_of_singleton in Hy as ->. constructor.
    + intros s s' Hs _ Hstep. by eapply bfs_step_reach.
Qed.

Lemma side_by_side_adjacent b matchedIds x y :
  board_shape b → coords_ok b → on_board b y →
  id y ∈ matchedIds → type y = type x → side_by_side x y →
  adjacent_match b matchedIds x y.
Proof.
  intros Hb Hco (ry & cy & Hy) Hm Hty Hside.
  destruct (Hco _ _ _ Hy) as [Hry Hcy].
  destruct (cellAt_lt _ _ _ _ Hb Hy) as [Hlr Hlc].
  exists (mkPosition (row y) (col y)). cbn [prow pcol]. split_and!; [| | |done|done].
  - unfold neighbors, side_by_side in *. rewrite !elem_of_cons.
    assert (H4 : ((row y = row x - 1 ∧ col y = col x) ∨ (row y = row x + 1 ∧ col y = col x) ∨
                  (row y = row x ∧ col y = col x - 1) ∨ (row y = row x ∧ col y = col x + 1))%Z)
      by lia.
    destruct H4 as [[-> ->]|[[-> ->]|[[-> ->]|[-> ->]]]]; auto.
  - rewrite Hry, Hcy. by apply in_grid_of_nat.
  - rewrite Hry, Hcy. by rewrite cellAtZ_of_nat.
Qed.

Lemma elem_of_concat_take {A B} (f : A → B) (ls : list (list A)) n x :
  x ∈ f <$> concat (take n ls) → ∃ k l, k < n ∧ ls !! k = Some l ∧ x ∈ f <$> l.
Proof.
  intros Hx. apply list_elem_of_fmap in Hx as (a & -> & Ha).
  apply elem_of_concat in Ha as (l & Hal & Hl).
  apply list_elem_of_lookup_1 in Hl as [k Hk].
  apply lookup_take_Some in Hk as [Hk Hlt].
  exists k, l. split; [done|]. split; [done|]. apply list_elem_of_fmap. by exists a.
Qed.

(** X17.  The groups of [getConnectedGroups] are the connected components of
    the matched cells: every group starts with its seed and each of its cells
    is linked to the seed through matched cells of the same type, each next
    to the one before (so no group is empty); two matched cells of one type
    on slots side by side are always in the same group; and an empty matched
    set gives no group. *)
Theorem getConnectedGroups_components fuel b matchedIds :
  board_shape b → coords_ok b → GRID_ROWS * GRID_COLS < fuel →
  ∃ groups, getConnectedGroups fuel b matchedIds = Ok groups ∧
    (matchedIds = [] → groups = []) ∧
    (∀ g, g ∈ groups →
       ∃ seed, head g = Some seed ∧ ∀ y, y ∈ g → linked b matchedIds seed y) ∧
    (∀ i j g h x y, groups !! i = Some g → groups !! j = Some h → x ∈ g → y ∈ h →
       type x = type y → side_by_side x y → i = j).
Proof.
  intros Hb Hco Hfuel.
  destruct (getConnectedGroups_spec b matchedIds fuel Hb Hfuel)
    as (groups & Hrun & (Hnd & Hne & Hcells & Hty & Hclos) & _).
  exists groups. split; [done|]. split_and!.
  - intros ->. destruct groups as [|g groups]; [done|]. exfalso.
    destruct g as [|y g]; [apply (Hne []); [by left | done]|].
    destruct (Hcells y) as [_ Hin]; [simpl; by left|]. by apply elem_of_nil in Hin.
  - by apply (getConnectedGroups_linked fuel).
  - assert (Hle : ∀ i j g h x y, groups !! i = Some g → groups !! j = Some h →
              x ∈ g → y ∈ h → type x = type y → side_by_side x y → j ≤ i).
    { intros i j g h x y Hi Hj Hx Hy Hxy Hside.
      assert (Hyc : y ∈ concat groups).
      { apply elem_of_concat. exists h. split; [done|]. by eapply list_elem_of_lookup_2. }
      destruct (Hcells y Hyc) as [Hyon Hym].
      pose proof (side_by_side_adjacent b matchedIds x y Hb Hco Hyon Hym (eq_sym Hxy) Hside)
        as Hadj.
      pose proof (Hclos i g x y Hi Hx Hadj) as Hin.
      apply elem_of_concat_take in Hin as (k & l & Hk & Hl & Hyl).
      assert (k = j); [|lia].
      eapply (NoDup_concat_index id groups k j l h (id y)); try done.
      apply list_elem_of_fmap. by exists y. }
    intros i j g h x y Hi Hj Hx Hy Hxy Hside.
    pose proof (Hle i j g h x y Hi Hj Hx Hy Hxy Hside).
    assert (Hside' : side_by_side y x) by (unfold side_by_side in *; lia).
    pose proof (Hle j i h g y x Hj Hi Hy Hx (eq_sym Hxy) Hside'). lia.
Qed.

(** ** The score of a group at level 1 *)

Lemma Qfloor_inject (q : Q) (n : Z) : (q == inject_Z n)%Q → Qfloor q = n.
Proof. intros H. rewrite H. apply Qfloor_Z. Qed.

(** X18.  At level 1 the score of a group is a whole number of points in
    closed form: 10 points per cell for a group of up to 3 cells, 15 per cell
    for a group of 4 and 30 per cell for a group of 5 or more, times
    [2 + combo]; without a combo that is 20, 30 and 60 points per cell. *)
Theorem groupScore_level_one (size : nat) (combo : Z) :
  groupScore size combo 1
  = (Z.of_nat size * (if (5 <=? size)%nat then 30 else if (size =? 4)%nat then 15 else 10)
     * (2 + combo))%Z.
Proof.
  unfold groupScore. apply Qfloor_inject.
  unfold sizeMultiplier, comboMultiplier, levelComboStep, levelBaseMultiplier, basePoints.
  destruct (5 <=? size); [|destruct (size =? 4)];
    unfold Qeq, Qmult, Qplus, inject_Z; simpl; rewrite ?Pos2Z.inj_mul; ring.
Qed.

(** ** The input handlers *)

(** X19.  A click issues a swap only while the game is being played and no
    resolution is running, with no bomb in hand, from the selected cell to
    the clicked slot, when the two are side by side and the clicked cell is
    on the board and [IDLE]. *)
Theorem onCellClick_swaps_neighbours (gamePhase : GamePhase) (isProcessing : bool)
    (activeTool : option ItemType.t) (b : Board) (selectedPos : option Position)
    (r c : Z) (pos1 pos2 : Position) :
  onCellClick gamePhase isProcessing activeTool b selectedPos r c = Ok (ClickSwap pos1 pos2) →
  gamePhase = PLAYING ∧ isProcessing = false ∧ activeTool ≠ Some ItemType.BOMB ∧
  selectedPos = Some pos1 ∧ pos2 = mkPosition r c ∧
  (Z.abs (prow pos1 - prow pos2) + Z.abs (pcol pos1 - pcol pos2) = 1)%Z ∧
  ∃ cell, cellAtZ b r c = Some cell ∧ status cell = IDLE.
Proof.
  unfold onCellClick. intros Hrun.
  destruct (bool_decide (gamePhase ≠ PLAYING)) eqn:Hp; [done|].
  destruct isProcessing; [done|]. cbn [orb] in Hrun.
  destruct (bool_decide (activeTool = Some ItemType.BOMB)) eqn:Ht; [done|].
  apply bool_decide_eq_false in Hp, Ht.
  destruct (cellAtZ b r c) as [cell|] eqn:Hcell; [|done]. cbn [defined obind] in Hrun.
  destruct (bool_decide (status cell ≠ IDLE)) eqn:Hs; [done|].
  apply bool_decide_eq_false in Hs.
  destruct selectedPos as [sel|]; [|done].
  destruct (bool_decide (Z.abs (prow sel - r) + Z.abs (pcol sel - c) = 1)%Z) eqn:Hadj.
  - injection Hrun as <- <-. apply bool_decide_eq_true in Hadj.
    split_and!; try done.
    + by destruct (decide (gamePhase = PLAYING)).
    + exists cell. split; [done|]. by destruct (decide (status cell = IDLE)).
  - by destruct (_ && _).
Qed.

Lemma onCellClick_swaps_neighbours_witness :
  PLAYING = PLAYING ∧ false = false ∧ None ≠ Some ItemType.BOMB ∧
  Some swap_from = Some swap_from ∧ swap_to = mkPosition 1 1 ∧
  (Z.abs (prow swap_from - prow swap_to) + Z.abs (pcol swap_from - pcol swap_to) = 1)%Z ∧
  ∃ cell, cellAtZ before_swap_board 1 1 = Some cell ∧ status cell = IDLE.
Proof.
  apply (onCellClick_swaps_neighbours PLAYING false None before_swap_board
           (Some swap_from) 1 1 swap_from swap_to).
  reflexivity.
Defined.

Lemma Qgt_bool_spec (x y : Q) : Qgt_bool x y = true ↔ (y < x)%Q.
Proof.
  unfold Qgt_bool. rewrite negb_true_iff. split.
  - intros H. apply Qnot_le_lt. intros Hle. apply Qle_bool_iff in Hle. congruence.
  - intros H. destruct (Qle_bool x y) eqn:E; [|done].
    apply Qle_bool_iff in E. exfalso. by eapply Qlt_not_le.
Qed.

(** X20.  A swipe issues a swap only past the threshold of 40 in one
    direction, from the cell where the touch started to one of its four
    neighbours, and only when that neighbour is on the grid; the gesture is
    then over.  Without a swap the gesture is kept as it is. *)
Theorem handleTouchMove_swaps_neighbours (isProcessing : bool)
    (activeTool : option ItemType.t) (x y : Q) (refs refs' : Gesture)
    (swap : option (Position * Position)) :
  handleTouchMove isProcessing activeTool x y refs = (swap, refs') →
  (swap = None → refs' = refs) ∧
  ∀ pos1 pos2, swap = Some (pos1, pos2) →
    isProcessing = false ∧ activeTool ≠ Some ItemType.BOMB ∧
    activeCellRef refs = Some pos1 ∧
    in_grid (prow pos2) (pcol pos2) = true ∧
    (Z.abs (prow pos1 - prow pos2) + Z.abs (pcol pos1 - pcol pos2) = 1)%Z ∧
    refs' = mkGesture None None ∧
    ∃ startX startY, touchStartRef refs = Some (startX, startY) ∧
      (40 < Qabs (x - startX) ∨ 40 < Qabs (y - startY))%Q.
Proof.
  unfold handleTouchMove. intros Hrun.
  destruct (touchStartRef refs) as [[startX startY]|] eqn:Hstart;
    [|injection Hrun as <- <-; done].
  destruct (activeCellRef refs) as [activeCell|] eqn:Hcell;
    [|injection Hrun as <- <-; done].
  destruct isProcessing; [injection Hrun as <- <-; done|]. cbn [orb] in Hrun.
  destruct (bool_decide (activeTool = Some ItemType.BOMB)) eqn:Ht;
    [injection Hrun as <- <-; done|].
  apply bool_decide_eq_false in Ht.
  destruct (Qgt_bool (Qabs (x - startX)) 40 || Qgt_bool (Qabs (y - startY)) 40) eqn:Hth;
    [|injection Hrun as <- <-; done].
  apply orb_true_iff in Hth. rewrite !Qgt_bool_spec in Hth.
  destruct (Qgt_bool (Qabs (x - startX)) (Qabs (y - startY))).
  - destruct (in_grid _ _) eqn:Hg; injection Hrun as <- <-; [|done].
    split; [done|]. intros pos1 pos2 [= <- <-]. cbn [prow pcol].
    split_and!; try done.
    + destruct (Qgt_bool _ _); lia.
    + by exists startX, startY.
  - destruct (in_grid _ _) eqn:Hg; injection Hrun as <- <-; [|done].
    split; [done|]. intros pos1 pos2 [= <- <-]. cbn [prow pcol].
    split_and!; try done.
    + destruct (Qgt_bool _ _); lia.
    + by exists startX, startY.
Qed.

Lemma handleTouchMove_swaps_neighbours_witness :
  (Some (mkPosition 3 3, mkPosition 3 4) = None →
     mkGesture None None = mkGesture (Some (0, 0)%Q) (Some (mkPosition 3 3))) ∧
  ∀ pos1 pos2, Some (mkPosition 3 3, mkPosition 3 4) = Some (pos1, pos2) →
    false = false ∧ None ≠ Some ItemType.BOMB ∧
    activeCellRef (mkGesture (Some (0, 0)%Q) (Some (mkPosition 3 3))) = Some pos1 ∧
    in_grid (prow pos2) (pcol pos2) = true ∧
    (Z.abs (prow pos1 - prow pos2) + Z.abs (pcol pos1 - pcol pos2) = 1)%Z ∧
    mkGesture None None = mkGesture None None ∧
    ∃ startX startY,
      touchStartRef (mkGesture (Some (0, 0)%Q) (Some (mkPosition 3 3)))
        = Some (startX, startY) ∧
      (40 < Qabs (50 - startX) ∨ 40 < Qabs (10 - startY))%Q.
Proof.
  apply (handleTouchMove_swaps_neighbours false None 50 10
           (mkGesture (Some (0, 0)%Q) (Some (mkPosition 3 3)))).
  reflexivity.
Defined.

(** ** [activateReshuffle] *)

Lemma initial_board_stable fuel allowedTypes g b g' :
  createInitialBoard fuel allowedTypes g = Ok (b, g') → board_shape b ∧ stable b.
Proof.
  intros Hrun. pose proof (createInitialBoard_cells _ _ _ _ _ Hrun) as Hcells.
  apply createInitialBoard_spec in Hrun as (Hshape & Hh & Hv).
  split; [done|]. split.
  - destruct (findMatches_runs b Hshape) as (ids & -> & _ & Hids).
    f_equal. destruct ids as [|x ids]; [done|]. exfalso.
    destruct (Hids x) as [(r & c & cell & _ & _ & Hin) _]; [by left|].
    by eapply no_triples_no_run.
  - intros r c x Hx. destruct (Hcells r c x Hx) as (_ & _ & _ & _ & -> & _). done.
Qed.

(** X21.  [activateReshuffle] does nothing while a resolution is running or
    without a refresh in the inventory.  Otherwise, under a fair generator,
    it uses one refresh and replaces the board by a fresh one that is stable:
    no run of three and no [MATCHED] cell, so that nothing is left to
    resolve. *)
Theorem activateReshuffle_stable (K fuel : nat) (isProcessing : bool)
    (inventory : Inventory.t) (activeGemTypes : list GemType.t) (g : Rng) :
  NoDup activeGemTypes → fair K (length activeGemTypes) g → K ≤ fuel →
  (isProcessing = true ∨ (Inventory.REFRESH inventory ≤ 0)%Z →
     activateReshuffle fuel isProcessing inventory activeGemTypes g = Ok (ToolIgnored, g)) ∧
  (isProcessing = false → (0 < Inventory.REFRESH inventory)%Z →
     ∃ newBoard g',
       activateReshuffle fuel isProcessing inventory activeGemTypes g
         = Ok (ToolUsed (Inventory.mk (Inventory.BOMB inventory)
                           (Inventory.REFRESH inventory - 1)) newBoard, g') ∧
       board_shape newBoard ∧ stable newBoard).
Proof.
  intros Hnd Hfair HK. unfold activateReshuffle. split.
  - intros [-> | Hle]; [done|]. rewrite (bool_decide_eq_true_2 _ Hle).
    by destruct isProcessing.
  - intros -> Hlt. rewrite bool_decide_eq_false_2 by lia. cbn [orb].
    destruct (createInitialBoard_total K fuel activeGemTypes g Hnd Hfair HK)
      as (b & g' & Hrun).
    rewrite Hrun. cbn [obind]. exists b, g'. split; [done|].
    by eapply initial_board_stable.
Qed.

Lemma activateReshuffle_stable_witness :
  (false = true ∨ (Inventory.REFRESH (Inventory.mk 2 2) ≤ 0)%Z →
     activateReshuffle 3 false (Inventory.mk 2 2) initial_types initial_rng
       = Ok (ToolIgnored, initial_rng)) ∧
  (false = false → (0 < Inventory.REFRESH (Inventory.mk 2 2))%Z →
     ∃ newBoard g',
       activateReshuffle 3 false (Inventory.mk 2 2) initial_types initial_rng
         = Ok (ToolUsed (Inventory.mk (Inventory.BOMB (Inventory.mk 2 2))
                           (Inventory.REFRESH (Inventory.mk 2 2) - 1)) newBoard, g') ∧
       board_shape newBoard ∧ stable newBoard).
Proof.
  apply (activateReshuffle_stable 3 3 false (Inventory.mk 2 2) initial_types initial_rng).
  - apply (bool_decide_unpack _). vm_compute. exact I.
  - exact initial_rng_fair.
  - lia.
Defined.

(** ** The marking of a pass: special gems are made of matched cells *)

Lemma elem_of_map_set k v (m : list (string * SpecialType)) k' v' :
  (k', v') ∈ map_set k v m → (k', v') = (k, v) ∨ (k', v') ∈ m.
Proof.
  unfold map_set. destruct (map_has m k).
  - intros Hin. apply list_elem_of_fmap in Hin as ([k0 v0] & Heq & Hin).
    simpl in Heq. case_bool_decide; [left|right]; congruence.
  - intros Hin. apply elem_of_app in Hin as [Hin|Hin]; [by right|].
    apply list_elem_of_singleton in Hin. by left.
Qed.

Lemma map_get_elem (m : list (string * SpecialType)) k v :
  map_get m k = Some v → (k, v) ∈ m.
Proof.
  unfold map_get. destruct (find _ m) as [[k0 v0]|] eqn:E; [|done].
  intros [= <-]. apply find_Some_first in E as [Hin Hk]. simpl in Hk.
  apply bool_decide_eq_true in Hk. by subst.
Qed.

Lemma chooseCandidate_member group target cand :
  chooseCandidate group target = Some cand → cand ∈ group.
Proof.
  unfold chooseCandidate. destruct target as [p|].
  - destruct (find _ group) as [c|] eqn:E.
    + intros [= <-]. by apply find_Some_first in E as [? _].
    + intros H. by eapply list_elem_of_lookup_2.
  - intros H. by eapply list_elem_of_lookup_2.
Qed.

Lemma scoreBoard_gems fuel b matchedIds combo level target g sc g' :
  scoreBoard fuel b matchedIds combo level target g = Ok (sc, g') →
  ∃ ids, findMatches b = Ok ids ∧
    getConnectedGroups fuel b ids = Ok (sc_groups sc) ∧
    ∀ k s, (k, s) ∈ sc_newSpecialGems sc →
      s ≠ NONE ∧ ∃ group cand, group ∈ sc_groups sc ∧ cand ∈ group ∧ id cand = k ∧
                   s = classifyMatchGroup group.
Proof.
  intros Hrun. unfold scoreBoard in Hrun.
  apply obind_Ok in Hrun as (ids & Hfm & Hrun).
  apply obind_Ok in Hrun as (groups & Hgr & Hrun).
  apply obind_Ok in Hrun as ([[[gems pts] log] g1] & Hloop & [= <- _]).
  exists ids. split; [done|]. split; [done|]. cbn [sc_newSpecialGems sc_groups].
  apply (for_each_inv (λ done_ (st : ScoreState),
           ∀ k s, (k, s) ∈ st.1.1.1 →
             s ≠ NONE ∧ ∃ group cand, group ∈ done_ ∧ cand ∈ group ∧ id cand = k ∧
                          s = classifyMatchGroup group) _ _ _ _ Hloop).
  - intros k s Hin. by apply elem_of_nil in Hin.
  - intros done_ group rest [[[gems0 pts0] log0] g0] [[[gems1 pts1] log1] g2] _ Hinv Hstep.
    simpl in Hinv.
    assert (Hold : ∀ k s, (k, s) ∈ gems0 →
              s ≠ NONE ∧ ∃ group0 cand, group0 ∈ done_ ++ [group] ∧ cand ∈ group0 ∧
                           id cand = k ∧ s = classifyMatchGroup group0).
    { intros k s Hin. destruct (Hinv k s Hin) as (Hs & g3 & cand & Hg3 & ?).
      split; [done|]. exists g3, cand. split; [|done]. apply elem_of_app. by left. }
    unfold score_group in Hstep.
    apply obind_Ok in Hstep as (center & _ & Hstep).
    destruct (bool_decide (classifyMatchGroup group ≠ NONE)) eqn:Hs.
    + apply obind_Ok in Hstep as (cand & Hcand & Hstep).
      injection Hstep as <- _ _ _. simpl. intros k s Hin.
      apply elem_of_map_set in Hin as [[= -> ->]|Hin]; [|by apply Hold].
      apply bool_decide_eq_true in Hs. split; [done|].
      exists group, cand. split_and!; [| |done|done].
      * apply elem_of_app. right. by left.
      * destruct (chooseCandidate group target) as [c0|] eqn:E; [|done].
        injection Hcand as <-. by eapply chooseCandidate_member.
    + injection Hstep as <- _ _ _. simpl. done.
Qed.

Lemma matchedSet_natural fuel soundEnabled audio b g ids trig g' ids0 :
  board_shape b →
  matchedSet fuel soundEnabled audio b g = Ok (ids, trig, g') →
  findMatches b = Ok ids0 → ∀ x, x ∈ ids0 → x ∈ ids.
Proof.
  intros Hb Hms Hfm x Hx. unfold matchedSet in Hms.
  apply obind_Ok in Hms as (M0 & HM0 & Hms).
  apply obind_Ok in Hms as ([[[[queue' M] P] trig'] g2] & Hloop & [= <- _ _]).
  apply (while_loop_inv (λ st : ExpandState, ∀ x, x ∈ M0 → x ∈ st.1.1.1.2)) in Hloop
    as [Hsub _].
  - apply Hsub. unfold collectMatched in HM0. rewrite Hfm in HM0. cbn [obind] in HM0.
    injection HM0 as <-.
    destruct (findMatches_runs b Hb) as (ids1 & Hids1 & Hnd & _).
    rewrite Hfm in Hids1. injection Hids1 as <-.
    apply (foldl_collect (λ cell, bool_decide (status cell = MATCHED)) (concat b) ids0 Hnd).
    by left.
  - done.
  - intros st st' Hst _ Hstep y Hy. eapply expand_step_mono; [done|]. by apply Hst.
Qed.


(** ** [applyGravity]: how far a cell falls *)

Lemma filter_occupied_split (l : list Cell) :
  length (filter occupied l) + length (filter (λ y, ¬ occupied y) l) = length l.
Proof.
  induction l as [|z l IH]; [done|]. rewrite !filter_cons.
  destruct (decide (occupied z)) as [Ho|Ho].
  - rewrite decide_False by (intros H; by apply H). simpl. lia.
  - rewrite decide_True by done. simpl. lia.
Qed.

Lemma filter_lookup_rank (l : list Cell) r x :
  l !! r = Some x → occupied x →
  filter occupied l !! length (filter occupied (take r l)) = Some x ∧
  length (filter occupied l)
  = length (filter occupied (take r l)) + 1 + length (filter occupied (drop (S r) l)).
Proof.
  intros Hx Ho. pose proof (take_drop_middle l r x Hx) as E.
  assert (Hf : filter occupied l
               = filter occupied (take r l) ++ x :: filter occupied (drop (S r) l)).
  { rewrite <- E at 1. by rewrite filter_app, filter_cons, decide_True. }
  rewrite Hf. split.
  - rewrite lookup_app_r by lia. by rewrite Nat.sub_diag.
  - rewrite length_app. simpl. lia.
Qed.

(** X23.  In [applyGravity] every cell that is not cleared falls, in its own
    column, by exactly the number of [MATCHED] or [EMPTY] slots below it,
    and keeps its identifier, its type and its special. *)
Theorem applyGravity_drop_distance (b : Board) (allowedTypes : list GemType.t) (g : Rng) :
  board_shape b →
  ∃ res g', applyGravity b allowedTypes g = Ok (res, g') ∧
    ∀ r c x, cellAt b r c = Some x → occupied x →
      ∃ y, cellAt (newBoard res)
             (r + length (filter (λ z, ¬ occupied z) (drop (S r) (column b c)))) c = Some y ∧
           same_token x y.
Proof.
  intros Hb. destruct (applyGravity_spec b allowedTypes g Hb)
    as (res & g' & Hrun & Hshape & Hpost & _).
  exists res, g'. split; [done|]. intros r c x Hx Ho.
  destruct (cellAt_lt _ _ _ _ Hb Hx) as [Hr Hc].
  rewrite <- column_lookup in Hx by done.
  destruct (Hpost c Hc) as (fresh & surv & Hcol & Hlen & Hfresh & Hsurv).
  destruct (filter_lookup_rank _ _ _ Hx Ho) as [Hrank Hocc].
  destruct (Forall2_lookup_l _ _ _ _ _ Hsurv Hrank) as (y & Hy & Hxy).
  exists y. split; [|done].
  rewrite <- column_lookup by done. rewrite Hcol.
  pose proof (filter_occupied_split (drop (S r) (column b c))) as Hd.
  pose proof (filter_occupied_split (take r (column b c))) as Ht.
  pose proof (lookup_lt_Some _ _ _ Hx) as Hlt.
  rewrite length_take in Ht. rewrite length_drop in Hd.
  rewrite lookup_app_r by lia. rewrite <- Hy. f_equal. lia.
Qed.

Lemma applyGravity_drop_distance_witness :
  ∃ res g', applyGravity hole_board initial_types initial_rng = Ok (res, g') ∧
    ∀ r c x, cellAt hole_board r c = Some x → occupied x →
      ∃ y, cellAt (newBoard res)
             (r + length (filter (λ z, ¬ occupied z) (drop (S r) (column hole_board c)))) c
           = Some y ∧
           same_token x y.
Proof.
  apply (applyGravity_drop_distance hole_board initial_types initial_rng).
  split; [reflexivity | repeat constructor].
Defined.

(** ** [handleSwap]: plain swaps, and a wildcard with a special gem *)

(** X24.  A swap of two gems that are not special is accepted exactly when the
    board with the two cells exchanged has a run of three: then the
    resolution starts on that board, with the combo counter as it is and the
    destination of the swap as anchor; otherwise the swap is given back.
    Either way no random number is drawn. *)
Theorem handleSwap_plain_swap (soundEnabled : bool) (audio : nat) (b : Board)
    (combo : Z) (pos1 pos2 : Position) (cell1 cell2 : Cell) (g : Rng) :
  board_shape b →
  cellAtZ b (prow pos1) (pcol pos1) = Some cell1 →
  cellAtZ b (prow pos2) (pcol pos2) = Some cell2 →
  special cell1 = NONE → special cell2 = NONE →
  ∃ temp,
    board_shape temp ∧
    (∀ r c, cellAt temp r c =
       if decide (at_slot pos2 r c) then Some (placed cell1 pos2 SWAPPING)
       else if decide (at_slot pos1 r c) then Some (placed cell2 pos1 SWAPPING)
       else cellAt b r c) ∧
    ((∃ r c, in_run temp r c) →
       handleSwap soundEnabled audio b combo pos1 pos2 g
         = Ok (Resolve temp combo (Some pos2), g)) ∧
    ((∀ r c, ¬ in_run temp r c) →
       ∃ revertBoard,
         handleSwap soundEnabled audio b combo pos1 pos2 g = Ok (Revert revertBoard, g)).
Proof.
  intros Hb H1 H2 S1 S2.
  destruct (swap_cells b pos1 pos2 cell1 cell2 SWAPPING Hb H1 H2)
    as (t1 & temp & E1 & E2 & Hbt & Hlook).
  exists temp. split; [done|]. split; [done|].
  assert (Hrun : handleSwap soundEnabled audio b combo pos1 pos2 g =
    let* matches := findMatches temp in
    if 0 <? set_size matches then Ok (Resolve temp combo (Some pos2), g)
    else
      let revertBoard := map (map (λ c : Cell, c)) temp in
      let* cellAtPos1 := defined (cellAtZ revertBoard (prow pos1) (pcol pos1)) in
      let* cellAtPos2 := defined (cellAtZ revertBoard (prow pos2) (pcol pos2)) in
      let* revertBoard := setCellZ revertBoard pos1 (placed cellAtPos2 pos1 IDLE) in
      let* revertBoard := setCellZ revertBoard pos2 (placed cellAtPos1 pos2 IDLE) in
      Ok (Revert revertBoard, g)).
  { unfold handleSwap. rewrite board_copy, H1, H2. cbn [defined obind].
    rewrite E1. cbn [obind]. rewrite E2. cbn [obind]. rewrite S1, S2. reflexivity. }
  rewrite Hrun. clear Hrun.
  destruct (findMatches_runs temp Hbt) as (matches & -> & _ & Hin). cbn [obind].
  split.
  - intros (r & c & Hr). destruct (in_run_cell _ _ _ Hr) as [y Hy].
    assert (Hne : id y ∈ matches) by (apply Hin; by exists r, c, y).
    destruct matches as [|? ?]; [by apply elem_of_nil in Hne|]. done.
  - intros Hno. destruct matches as [|x ?].
    + cbn [set_size length Nat.ltb Nat.leb]. rewrite board_copy.
      destruct (cellAtZ_slot _ _ _ H1) as (r1 & c1 & Hs1 & Hc1).
      destruct (cellAtZ_slot _ _ _ H2) as (r2 & c2 & Hs2 & Hc2).
      assert (A1 : ∃ a1, cellAtZ temp (prow pos1) (pcol pos1) = Some a1).
      { rewrite (cellAtZ_at_slot temp pos1 r1 c1 Hs1), Hlook.
        repeat destruct (decide _); eauto. }
      destruct A1 as [a1 A1].
      assert (A2 : ∃ a2, cellAtZ temp (prow pos2) (pcol pos2) = Some a2).
      { rewrite (cellAtZ_at_slot temp pos2 r2 c2 Hs2), Hlook. rewrite decide_True by done.
        eauto. }
      destruct A2 as [a2 A2].
      rewrite A1, A2. cbn [defined obind].
      destruct (swap_cells temp pos1 pos2 a1 a2 IDLE Hbt A1 A2)
        as (t2 & rb & E3 & E4 & _ & _).
      rewrite E3. cbn [obind]. rewrite E4. cbn [obind]. by exists rb.
    + exfalso. destruct (Hin x) as [(r & c & y & _ & _ & Hr) _]; [by left|].
      by eapply Hno.
Qed.

(** X25.  Swapping a [RAINBOW] gem onto another special gem, not a
    [RAINBOW], turns the colour of that gem into its kind: the [RAINBOW]
    cell is [MATCHED] on its new slot, every cell of the type of the other
    gem, that gem included, is [MATCHED] and carries its special, and every
    other cell is left as it was. *)
Theorem handleSwap_rainbow_spreads_special (soundEnabled : bool) (audio : nat) (b : Board)
    (combo : Z) (pos1 pos2 : Position) (cell1 cell2 : Cell) (g : Rng) :
  board_shape b → unique_ids b →
  cellAtZ b (prow pos1) (pcol pos1) = Some cell1 →
  cellAtZ b (prow pos2) (pcol pos2) = Some cell2 →
  special cell1 = RAINBOW → special cell2 ≠ NONE → special cell2 ≠ RAINBOW →
  ∃ activeBoard g',
    handleSwap soundEnabled audio b combo pos1 pos2 g
      = Ok (Resolve activeBoard combo None, g') ∧
    board_shape activeBoard ∧
    cellAtZ activeBoard (prow pos2) (pcol pos2)
      = Some (with_status MATCHED (placed cell1 pos2 SWAPPING)) ∧
    (∃ y, cellAtZ activeBoard (prow pos1) (pcol pos1) = Some y ∧
          id y = id cell2 ∧ special y = special cell2 ∧ status y = MATCHED) ∧
    ∀ r c x, ¬ at_slot pos1 r c → ¬ at_slot pos2 r c → cellAt b r c = Some x →
      ∃ y, cellAt activeBoard r c = Some y ∧
        if bool_decide (type x = type cell2)
        then id y = id x ∧ type y = type x ∧ special y = special cell2 ∧ status y = MATCHED
        else y = x.
Proof.
  intros Hb Hu H1 H2 S1 S2 S3. unfold handleSwap.
  rewrite board_copy, H1, H2. cbn [defined obind].
  destruct (swap_cells b pos1 pos2 cell1 cell2 SWAPPING Hb H1 H2)
    as (t1 & temp & E1 & E2 & Hbt & Hlook).
  rewrite E1. cbn [obind]. rewrite E2. cbn [obind].
  destruct (cellAtZ_slot _ _ _ H1) as (r1 & c1 & Hs1 & Hc1).
  destruct (cellAtZ_slot _ _ _ H2) as (r2 & c2 & Hs2 & Hc2).
  rewrite (bool_decide_eq_true_2 (special cell1 ≠ NONE)) by (rewrite S1; done).
  rewrite (bool_decide_eq_true_2 (special cell2 ≠ NONE)) by done.
  rewrite (bool_decide_eq_true_2 (special cell1 = RAINBOW)) by done.
  rewrite (bool_decide_eq_false_2 (special cell2 = RAINBOW)) by done.
  cbn [andb orb obind]. rewrite board_copy. unfold map_board_fx.
  assert (Hdiff : ¬ at_slot pos2 r1 c1).
  { intros Hsame. destruct (at_slot_inj _ _ _ _ _ Hsame Hs2) as [-> ->]. congruence. }
  assert (Hne : id cell2 ≠ id cell1).
  { intros Hid. destruct (Hu _ _ _ _ _ _ Hc2 Hc1 Hid) as [-> ->]. done. }
  eexists _, _. split; [reflexivity|]. split; [by apply board_shape_map|]. split_and!.
  - rewrite (cellAtZ_at_slot _ pos2 r2 c2 Hs2), cellAt_map, Hlook, (decide_True _ _ Hs2).
    cbn [fmap option_fmap option_map placed id]. by rewrite bool_decide_eq_true_2.
  - rewrite (cellAtZ_at_slot _ pos1 r1 c1 Hs1), cellAt_map, Hlook,
      (decide_False _ _ Hdiff), (decide_True _ _ Hs1).
    cbn [fmap option_fmap option_map placed id type].
    rewrite (bool_decide_eq_false_2 (id cell2 = id cell1)) by done.
    rewrite (bool_decide_eq_true_2 (type cell2 = type cell2)) by done.
    eexists. split; [reflexivity|]. done.
  - intros r c x Hn1 Hn2 Hx. rewrite cellAt_map, Hlook,
      (decide_False _ _ Hn2), (decide_False _ _ Hn1), Hx.
    cbn [fmap option_fmap option_map].
    eexists. split; [reflexivity|].
    assert (Hx1 : id x ≠ id cell1).
    { intros Hid. destruct (Hu _ _ _ _ _ _ Hx Hc1 Hid) as [-> ->]. done. }
    rewrite (bool_decide_eq_false_2 (id x = id cell1)) by done.
    by destruct (bool_decide (type x = type cell2)).
Qed.

Lemma blast_board_ids : unique_ids blast_board.
Proof.
  apply unique_ids_of_NoDup; [split; [reflexivity | repeat constructor]|].
  apply (bool_decide_unpack _). vm_compute. exact I.
Qed.

Lemma handleSwap_plain_swap_witness :
  ∃ temp,
    board_shape temp ∧
    (∀ r c, cellAt temp r c =
       if decide (at_slot swap_to r c)
       then Some (placed (sample_cell 0 1 GemType.YELLOW) swap_to SWAPPING)
       else if decide (at_slot swap_from r c)
       then Some (placed (sample_cell 1 1 GemType.GREEN) swap_from SWAPPING)
       else cellAt before_swap_board r c) ∧
    ((∃ r c, in_run temp r c) →
       handleSwap true 0 before_swap_board 0 swap_from swap_to initial_rng
         = Ok (Resolve temp 0 (Some swap_to), initial_rng)) ∧
    ((∀ r c, ¬ in_run temp r c) →
       ∃ revertBoard,
         handleSwap true 0 before_swap_board 0 swap_from swap_to initial_rng
           = Ok (Revert revertBoard, initial_rng)).
Proof.
  apply (handleSwap_plain_swap true 0 before_swap_board 0 swap_from swap_to
           (sample_cell 0 1 GemType.YELLOW) (sample_cell 1 1 GemType.GREEN) initial_rng).
  - split; [reflexivity | repeat constructor].
  - reflexivity.
  - reflexivity.
  - reflexivity.
  - reflexivity.
Defined.

Lemma handleSwap_rainbow_spreads_special_witness :
  ∃ activeBoard g',
    handleSwap true 0 blast_board 0 rainbow_left above_rainbow initial_rng
      = Ok (Resolve activeBoard 0 None, g') ∧
    board_shape activeBoard ∧
    cellAtZ activeBoard (prow above_rainbow) (pcol above_rainbow)
      = Some (with_status MATCHED
                (placed (mkCell "cell-3-3" (Some GemType.RAINBOW) RAINBOW IDLE 3 3 3 3 None)
                   above_rainbow SWAPPING)) ∧
    (∃ y, cellAtZ activeBoard (prow rainbow_left) (pcol rainbow_left) = Some y ∧
          id y = id (mkCell "cell-2-3" (Some GemType.RED) ROW_BLAST IDLE 2 3 2 3 None) ∧
          special y = special (mkCell "cell-2-3" (Some GemType.RED) ROW_BLAST IDLE 2 3 2 3 None) ∧
          status y = MATCHED) ∧
    ∀ r c x, ¬ at_slot rainbow_left r c → ¬ at_slot above_rainbow r c →
      cellAt blast_board r c = Some x →
      ∃ y, cellAt activeBoard r c = Some y ∧
        if bool_decide
             (type x = type (mkCell "cell-2-3" (Some GemType.RED) ROW_BLAST IDLE 2 3 2 3 None))
        then id y = id x ∧ type y = type x ∧
             special y = special (mkCell "cell-2-3" (Some GemType.RED) ROW_BLAST IDLE 2 3 2 3 None) ∧
             status y = MATCHED
        else y = x.
Proof.
  apply (handleSwap_rainbow_spreads_special true 0 blast_board 0 rainbow_left above_rainbow
           (mkCell "cell-3-3" (Some GemType.RAINBOW) RAINBOW IDLE 3 3 3 3 None)
           (mkCell "cell-2-3" (Some GemType.RED) ROW_BLAST IDLE 2 3 2 3 None) initial_rng).
  - split; [reflexivity | repeat constructor].
  - exact blast_board_ids.
  - reflexivity.
  - reflexivity.
  - reflexivity.
  - discriminate.
  - discriminate.
Defined.

(** ** Sample runs of the further properties *)

Lemma quiet_board_shape : board_shape quiet_board.
Proof. split; [reflexivity | repeat constructor]. Qed.

Lemma hole_board_coords : coords_ok hole_board.
Proof. apply coords_ok_check; [apply hole_board_shape | vm_compute; reflexivity]. Qed.

Lemma four_run_board_full r c x :
  cellAt four_run_board r c = Some x → status x ≠ MATCHED ∧ status x ≠ EMPTY.
Proof.
  intros Hx.
  assert (Hall : Forall (λ y, status y = IDLE) (concat four_run_board)).
  { apply (bool_decide_unpack _). vm_compute. exact I. }
  rewrite Forall_forall in Hall. rewrite (Hall x); [done|].
  apply on_board_concat. by exists r, c.
Qed.

Lemma getBombAffectedCells_window_witness :
  ∃ ids, getBombAffectedCells four_run_board (mkPosition 0 0) = Ok ids ∧
    (∀ x, x ∈ ids ↔ ∃ r c cell, cellAt four_run_board r c = Some cell ∧ id cell = x ∧
                      near (mkPosition 0 0) r c) ∧
    length ids ≤ 9 ∧
    (in_grid (prow (mkPosition 0 0)) (pcol (mkPosition 0 0)) = true → 4 ≤ length ids) ∧
    ((1 ≤ prow (mkPosition 0 0) < 7)%Z → (1 ≤ pcol (mkPosition 0 0) < 7)%Z →
       length ids = 9).
Proof.
  apply (getBombAffectedCells_window four_run_board (mkPosition 0 0)).
  split; [reflexivity | repeat constructor].
Defined.

Lemma activateBomb_marks_window_witness :
  ((Inventory.BOMB (Inventory.mk 2 2) ≤ 0)%Z →
     activateBomb true 0 (Inventory.mk 2 2) four_run_board (mkPosition 3 3) initial_rng
       = Ok (ToolIgnored, initial_rng)) ∧
  ((0 < Inventory.BOMB (Inventory.mk 2 2))%Z →
     ∃ tempBoard g',
       activateBomb true 0 (Inventory.mk 2 2) four_run_board (mkPosition 3 3) initial_rng
         = Ok (ToolUsed (Inventory.mk (Inventory.BOMB (Inventory.mk 2 2) - 1)
                           (Inventory.REFRESH (Inventory.mk 2 2))) tempBoard, g') ∧
       board_shape tempBoard ∧
       ∀ r c x, cellAt four_run_board r c = Some x →
         cellAt tempBoard r c
         = Some (if bool_decide (near (mkPosition 3 3) r c)
                 then with_status MATCHED x else x)).
Proof.
  apply (activateBomb_marks_window true 0 (Inventory.mk 2 2) four_run_board
           (mkPosition 3 3) initial_rng).
  - split; [reflexivity | repeat constructor].
  - exact four_run_board_ids.
Defined.


Lemma applyGravity_keeps_coords_witness :
  ∃ res g', applyGravity hole_board initial_types initial_rng = Ok (res, g') ∧
    board_shape (newBoard res) ∧ coords_ok (newBoard res).
Proof.
  apply (applyGravity_keeps_coords hole_board initial_types initial_rng).
  - split; [reflexivity | repeat constructor].
  - exact hole_board_coords.
Defined.

Lemma applyGravity_full_board_witness :
  applyGravity four_run_board initial_types initial_rng
  = Ok (mkGravityResult four_run_board false, initial_rng).
Proof.
  apply (applyGravity_full_board four_run_board initial_types initial_rng).
  - split; [reflexivity | repeat constructor].
  - exact four_run_board_full.
Defined.

Lemma handleSwap_revert_restores_witness :
  ∃ revertBoard g',
    handleSwap true 0 quiet_board 0 (mkPosition 0 0) (mkPosition 0 1) initial_rng
      = Ok (Revert revertBoard, g') ∧
    revertBoard = quiet_board ∧ g' = initial_rng.
Proof.
  eexists _, _. split; [vm_compute; reflexivity|].
  eapply (handleSwap_revert_restores true 0 quiet_board 0 (mkPosition 0 0) (mkPosition 0 1)
            (sample_cell 0 0 GemType.RED) (sample_cell 0 1 GemType.RED) initial_rng).
  - split; [reflexivity | repeat constructor].
  - reflexivity.
  - reflexivity.
  - repeat split.
  - repeat split.
  - vm_compute. reflexivity.
Defined.

Lemma handleSwap_keeps_board_witness :
  ∃ act g',
    handleSwap true 0 four_run_board 0 (mkPosition 0 0) (mkPosition 1 0) initial_rng
      = Ok (act, g') ∧
    board_shape (action_board act) ∧ unique_ids (action_board act) ∧
    coords_ok (action_board act) ∧
    (∀ ab combo' target, act = Resolve ab combo' target →
       combo' = 0%Z ∧ (target = None ∨ target = Some (mkPosition 1 0))).
Proof.
  apply (handleSwap_keeps_board true 0 four_run_board 0 (mkPosition 0 0) (mkPosition 1 0)
           (sample_cell 0 0 GemType.GREEN) (sample_cell 1 0 GemType.RED) initial_rng).
  - split; [reflexivity | repeat constructor].
  - exact four_run_board_ids.
  - exact four_run_board_coords.
  - reflexivity.
  - reflexivity.
Defined.

Lemma handleSwap_rainbow_clears_type_witness :
  ∃ activeBoard g',
    handleSwap true 0 rainbow_board 0 rainbow_left above_rainbow initial_rng
      = Ok (Resolve activeBoard 0 None, g') ∧
    board_shape activeBoard ∧
    cellAtZ activeBoard (prow rainbow_left) (pcol rainbow_left)
      = Some (with_status MATCHED
                (placed (sample_cell 2 3 GemType.RED) rainbow_left SWAPPING)) ∧
    cellAtZ activeBoard (prow above_rainbow) (pcol above_rainbow)
      = Some (with_status MATCHED
                (placed (mkCell "cell-3-3" (Some GemType.RAINBOW) RAINBOW IDLE 3 3 3 3 None)
                   above_rainbow SWAPPING)) ∧
    ∀ r c x, ¬ at_slot rainbow_left r c → ¬ at_slot above_rainbow r c →
      cellAt rainbow_board r c = Some x →
      cellAt activeBoard r c
      = Some (if bool_decide (type x = type (sample_cell 2 3 GemType.RED))
              then with_status MATCHED x else x).
Proof.
  apply (handleSwap_rainbow_clears_type true 0 rainbow_board 0 rainbow_left above_rainbow
           (mkCell "cell-3-3" (Some GemType.RAINBOW) RAINBOW IDLE 3 3 3 3 None)
           (sample_cell 2 3 GemType.RED) initial_rng).
  - split; [reflexivity | repeat constructor].
  - exact rainbow_board_ids.
  - reflexivity.
  - reflexivity.
  - left. reflexivity.
  - reflexivity.
Defined.

Lemma resolvePass_chain_reaction_witness :
  ∃ res g', resolvePass 65 true 0 1 four_run_board 0 None initial_rng = Ok (res, g') ∧
    (res = None ↔ stable four_run_board) ∧
    ∀ pass, res = Some pass →
      NoDup (p_matchedIds pass) ∧
      (∀ x, x ∈ p_matchedIds pass → ∃ y, on_board four_run_board y ∧ id y = x) ∧
      (∀ r c y, cellAt four_run_board r c = Some y →
         in_run four_run_board r c ∨ status y = MATCHED → id y ∈ p_matchedIds pass) ∧
      (∀ cell t, on_board four_run_board cell → id cell ∈ p_matchedIds pass →
         blast_zone four_run_board cell t → id t ∈ p_matchedIds pass) ∧
      p_nextCombo pass = (0 + 1)%Z.
Proof.
  apply (resolvePass_chain_reaction 65 true 0 1 four_run_board 0 None initial_rng).
  - split; [reflexivity | repeat constructor].
  - exact four_run_board_ids.
  - exact four_run_board_coords.
  - unfold GRID_ROWS, GRID_COLS. lia.
Defined.


Lemma getConnectedGroups_components_witness :
  ∃ groups, getConnectedGroups 65 four_run_board four_run_ids = Ok groups ∧
    (four_run_ids = [] → groups = []) ∧
    (∀ g, g ∈ groups →
       ∃ seed, head g = Some seed ∧
         ∀ y, y ∈ g → linked four_run_board four_run_ids seed y) ∧
    (∀ i j g h x y, groups !! i = Some g → groups !! j = Some h → x ∈ g → y ∈ h →
       type x = type y → side_by_side x y → i = j).
Proof.
  apply (getConnectedGroups_components 65 four_run_board four_run_ids).
  - split; [reflexivity | repeat constructor].
  - exact four_run_board_coords.
  - unfold GRID_ROWS, GRID_COLS. lia.
Defined.

